(** * ts-lsp-mcp: the TypeScript LSP client, its path guard and its
    result normalisation, as a shallow embedding.

  The development follows the sources:
  - [NodePath]   : the POSIX behaviour of [node:path] used by [util/path.ts];
  - [PathUtil]   : [toAbsolutePath] and [toFileUri] of [util/path.ts];
  - [Js]         : the JSON values the language server answers with;
  - [Protocol]   : positions, ranges, locations and location links, and
                   their JSON form;
  - [Locations]  : [normalizeLocations] and [isLocationLink] of [lsp/client.ts];
  - [Lsp]        : [TypeScriptLspClient] of [lsp/client.ts], run on an event
                   loop whose steps are the synchronous segments between two
                   [await]s;
  - [Scenario]   : concrete runs of the client. *)

From Stdlib Require Import ZArith Ascii DecimalString.
From stdpp Require Import base option list gmap strings.

Open Scope Z_scope.
Open Scope list_scope.

(** A JavaScript call either returns or throws an [Error] with a message. *)
Inductive result (A : Type) : Type :=
| Ok (a : A)
| Throw (message : string).
Arguments Ok {A} a.
Arguments Throw {A} message.

Definition is_ok {A} (r : result A) : bool :=
match r with Ok _ => true | Throw _ => false end.

(** ** String helpers: [String.prototype.startsWith] and [endsWith] *)

Fixpoint startsWith (s p : string) : bool :=
match p, s with
| EmptyString, _ => true
| String _ _, EmptyString => false
| String a p', String b s' => Ascii.eqb a b && startsWith s' p'
end.

Definition endsWith (s p : string) : bool :=
startsWith (String.rev s) (String.rev p).

(** [`${n}`] for an integral number. *)
Definition show_Z (n : Z) : string :=
NilZero.string_of_int (Z.to_int n).

(** ** node:path, POSIX flavour *)
Module NodePath.

Definition slash : ascii := "/"%char.

(** [s.split("/")]. *)
Fixpoint split (s : string) : list string :=
  match s with
  | EmptyString => [EmptyString]
  | String c s' =>
      if Ascii.eqb c slash then EmptyString :: split s'
      else match split s' with
           | seg :: rest => String c seg :: rest
           | [] => [String c EmptyString]
           end
  end.

(** [segs.join("/")]. *)
Fixpoint join (segs : list string) : string :=
  match segs with
  | [] => ""
  | [s] => s
  | s :: rest => s +:+ "/" +:+ join rest
  end.

(** [normalizeString] with [allowAboveRoot = false]: empty and "." segments
    vanish, ".." removes the segment before it and is dropped at the root.
    [stack] holds the segments kept so far, innermost first. *)
Fixpoint normalize_onto (stack : list string) (segs : list string) : list string :=
  match segs with
  | [] => rev stack
  | seg :: rest =>
      if String.eqb seg "" then normalize_onto stack rest
      else if String.eqb seg "." then normalize_onto stack rest
      else if String.eqb seg ".." then normalize_onto (tail stack) rest
      else normalize_onto (seg :: stack) rest
  end.

Definition isAbsolute (p : string) : bool :=
  match p with
  | String c _ => Ascii.eqb c slash
  | EmptyString => false
  end.

(** The right-to-left loop of [path.resolve]: arguments are prepended until
    an absolute one has been seen; empty arguments are skipped. *)
Fixpoint resolve_join (rev_args : list string) (resolvedPath : string) : string :=
  match rev_args with
  | [] => resolvedPath
  | p :: rest =>
      if String.eqb p "" then resolve_join rest resolvedPath
      else
        let r := p +:+ "/" +:+ resolvedPath in
        if isAbsolute p then r else resolve_join rest r
  end.

(** The segments of [path.resolve(...args)], the working directory [cwd]
    being the last resort. *)
Definition resolve_segments (cwd : string) (args : list string) : list string :=
  normalize_onto [] (split (resolve_join (rev args ++ [cwd]) "")).

Definition resolve (cwd : string) (args : list string) : string :=
  "/" +:+ join (resolve_segments cwd args).

(** Removes the longest common prefix of two segment lists. *)
Fixpoint strip_common (from to : list string) : list string * list string :=
  match from, to with
  | f :: from', t :: to' =>
      if String.eqb f t then strip_common from' to' else (from, to)
  | _, _ => (from, to)
  end.

(** [path.relative(from, to)]: one ".." for every segment of [from] below the
    common ancestor, then what is left of [to]. *)
Definition relative (cwd : string) (from to : string) : string :=
  let '(up, down) :=
    strip_common (resolve_segments cwd [from]) (resolve_segments cwd [to]) in
  join (map (fun _ => "..") up ++ down).

End NodePath.

(** ** util/path.ts *)
Module PathUtil.
Import NodePath.

Definition toAbsolutePath (cwd : string) (workspaceRoot inputPath : string)
  : result string :=
  let normalizedRoot := resolve cwd [workspaceRoot] in
  let candidate :=
    if isAbsolute inputPath then resolve cwd [inputPath]
    else resolve cwd [normalizedRoot; inputPath] in
  let relative := relative cwd normalizedRoot candidate in
  if startsWith relative ".." || isAbsolute relative then
    Throw ("Resolved path " +:+ candidate +:+ " escapes workspace root "
           +:+ normalizedRoot)
  else Ok candidate.

(** [pathToFileURL(absolutePath).toString()]; the percent-encoding of
    reserved characters is left out of the model. *)
Definition toFileUri (absolutePath : string) : string :=
  "file://" +:+ absolutePath.

(** A path lies within a root when, once both are resolved, the segments of
    the root are a prefix of the segments of the path. *)
Fixpoint segments_below (root path : list string) : bool :=
  match root, path with
  | [], _ => true
  | r :: root', p :: path' => String.eqb r p && segments_below root' path'
  | _ :: _, [] => false
  end.

Definition within (cwd : string) (root path : string) : bool :=
  segments_below (resolve_segments cwd [root]) (resolve_segments cwd [path]).

End PathUtil.

(** ** JSON values exchanged with the language server *)
Module Js.

#[warnings="-register-all"]
Inductive value : Type :=
| Null
| Undefined
| Bool (b : bool)
| Num (n : Z)
| Str (s : string)
| Obj (fields : list (string * value))
| Arr (items : list value).

(** [!v] is [negb (truthy v)]. *)
Definition truthy (v : value) : bool :=
  match v with
  | Null | Undefined => false
  | Bool b => b
  | Num n => negb (n =? 0)
  | Str s => negb (String.eqb s "")
  | Obj _ | Arr _ => true
  end.

Fixpoint field (k : string) (fields : list (string * value)) : option value :=
  match fields with
  | [] => None
  | (k', v) :: rest => if String.eqb k k' then Some v else field k rest
  end.

(** [v.k] on a value that is not [null] or [undefined]. *)
Definition get (v : value) (k : string) : value :=
  match v with
  | Obj fields => default Undefined (field k fields)
  | _ => Undefined
  end.

(** [k in v] for an object or an array [v]. *)
Definition has (k : string) (v : value) : bool :=
  match v with
  | Obj fields => bool_decide (is_Some (field k fields))
  | _ => false
  end.

(** [a ?? b]. *)
Definition nullish (a b : value) : value :=
  match a with
  | Null | Undefined => b
  | _ => a
  end.

Definition is_object (v : value) : bool :=
  match v with
  | Obj _ | Arr _ => true
  | _ => false
  end.

Definition is_string (v : value) : bool :=
  match v with
  | Str _ => true
  | _ => false
  end.

End Js.

(** ** The protocol's typed structures and their JSON form *)
Module Protocol.

Record Position := { line : Z; character : Z }.
Record Range := { range_start : Position; range_end : Position }.
Record Location := { uri : string; range : Range }.
Record LocationLink := {
  originSelectionRange : option Range;
  targetUri : string;
  targetRange : Range;
  targetSelectionRange : option Range;
}.

Definition of_position (p : Position) : Js.value :=
  Js.Obj [("line", Js.Num (line p)); ("character", Js.Num (character p))].

Definition of_range (r : Range) : Js.value :=
  Js.Obj [("start", of_position (range_start r));
          ("end", of_position (range_end r))].

Definition of_location (l : Location) : Js.value :=
  Js.Obj [("uri", Js.Str (uri l)); ("range", of_range (range l))].

(** An optional member that is absent is not serialised. *)
Definition optional (k : string) (r : option Range) : list (string * Js.value) :=
  match r with
  | Some r => [(k, of_range r)]
  | None => []
  end.

Definition of_location_link (l : LocationLink) : Js.value :=
  Js.Obj (optional "originSelectionRange" (originSelectionRange l)
          ++ [("targetUri", Js.Str (targetUri l));
              ("targetRange", of_range (targetRange l))]
          ++ optional "targetSelectionRange" (targetSelectionRange l)).

(** The answers the definition request may give. *)
Inductive DefinitionAnswer : Type :=
| NoAnswer (absent : bool)
| OneLocation (l : Location)
| Entries (es : list (Location + LocationLink)).

Definition of_entry (e : Location + LocationLink) : Js.value :=
  match e with
  | inl l => of_location l
  | inr k => of_location_link k
  end.

Definition of_answer (a : DefinitionAnswer) : Js.value :=
  match a with
  | NoAnswer absent => if absent then Js.Undefined else Js.Null
  | OneLocation l => of_location l
  | Entries es => Js.Arr (map of_entry es)
  end.

(** The plain location the specification assigns to a link: its target uri
    with the selection range when present, else the target range. *)
Definition link_location (k : LocationLink) : Location :=
  {| uri := targetUri k;
     range := default (targetRange k) (targetSelectionRange k) |}.

Definition entry_location (e : Location + LocationLink) : Location :=
  match e with
  | inl l => l
  | inr k => link_location k
  end.

(** The list of plain locations the specification assigns to an answer. *)
Definition answer_locations (a : DefinitionAnswer) : list Location :=
  match a with
  | NoAnswer _ => []
  | OneLocation l => [l]
  | Entries es => map entry_location es
  end.

End Protocol.

(** ** lsp/client.ts: result normalisation *)
Module Locations.

Definition isLocationLink (value : Js.value) : bool :=
  Js.is_object value
  && Js.has "targetUri" value
  && Js.is_string (Js.get value "targetUri").

Definition normalizeEntry (entry : Js.value) : Js.value :=
  if isLocationLink entry then
    Js.Obj [("uri", Js.get entry "targetUri");
            ("range", Js.nullish (Js.get entry "targetSelectionRange")
                                 (Js.get entry "targetRange"))]
  else entry.

Definition normalizeLocations (input : Js.value) : list Js.value :=
  if negb (Js.truthy input) then []
  else match input with
       | Js.Arr items => map normalizeEntry items
       | _ => [input]
       end.

End Locations.
(** ** lsp/client.ts: the client on the event loop *)
Module Lsp.
Import Protocol PathUtil.

Record TypeScriptLspClientOptions := {
  workspacePath : string;
  tsgoPath : option string;
  tsgoArgs : option (list string);
  initializationTimeoutMs : option Z;
  diagnosticsTimeoutMs : option Z;
}.

Record DocumentState := {
  doc_uri : string;
  doc_path : string;
  doc_version : Z;
  doc_text : string;
}.

Record PublishDiagnosticsParams := {
  diag_uri : string;
  diag_diagnostics : list Js.value;
}.

Definition DEFAULT_INITIALIZATION_TIMEOUT_MS : Z := 10000.
Definition DEFAULT_DIAGNOSTICS_TIMEOUT_MS : Z := 1500.

Inductive LogLevel := LogDebug | LogInfo | LogWarn | LogError.

(** What the client writes to the language server. *)
Inductive Outgoing :=
| InitializeRequest (processId : Z) (rootUri rootPath : string)
| InitializedNotification
| DidOpenTextDocumentNotification (uri languageId : string) (version : Z) (text : string)
| DidChangeTextDocumentNotification (uri : string) (version : Z) (text : string)
| HoverRequest (uri : string) (position : Position)
| DefinitionRequest (uri : string) (position : Position)
| ReferencesRequest (uri : string) (position : Position) (context : Js.value)
| DocumentSymbolRequest (uri : string)
| ShutdownRequest
| ExitNotification.

Record Spawn := { command : string; args : list string; spawn_cwd : string }.

(** The two closures handed to [setTimeout]. *)
Inductive TimerCallback :=
| InitializationTimeout (promise : nat)
| DiagnosticsTimeout (uri : string) (waiter : nat).

Record Timer := { delay : Z; callback : TimerCallback }.

(** The closure [handler] of [getDiagnostics]: it belongs to one call, the
    waiter, and holds the timer of that call. *)
Record Listener := { waiter : nat; timer : nat }.

(** Where a run of [start] stands: suspended at [await Promise.race], at
    [await connection.sendNotification], or settled. *)
Inductive StartState :=
| Racing
| Acknowledging (result : Js.value)
| Fulfilled (result : Js.value)
| Rejected (error : string).

Record Handshake := {
  hs_child : nat;
  hs_connection : nat;
  timeoutHandle : nat;
  errorListener : bool;
  state : StartState;
}.

(** The public methods. *)
Inductive Operation :=
| Initialize
| GetHover (filePath : string) (position : Position)
| GetDefinition (filePath : string) (position : Position)
| FindReferences (filePath : string) (position : Position) (context : Js.value)
| DocumentSymbols (filePath : string)
| GetDiagnostics (filePath : string)
| Shutdown.

Inductive Value :=
| VJs (v : Js.value)
| VLocations (locations : list Js.value)
| VDiagnostics (report : PublishDiagnosticsParams)
| VVoid.

(** Where a call stands: the [await] it is suspended at, or its outcome. *)
Inductive Pc :=
| AwaitInitialize (promise : nat)
| AwaitReadFile (absolutePath uri : string)
| AwaitEnsureDocument (uri : string)
| AwaitResponse
| AwaitDiagnostics
| AwaitShutdownRequest
| AwaitExitNotification
| Returned (v : Value)
| Thrown (error : string).

Record Task := { operation : Operation; pc : Pc }.

Record World := {
  (** The Node process: working directory and process id. *)
  cwd : string;
  pid : Z;
  (** The fields of the client object; the first four are [readonly]. *)
  options : TypeScriptLspClientOptions;
  workspaceRoot : string;
  initializationTimeout : Z;
  diagnosticsTimeout : Z;
  child : option nat;
  connection : option nat;
  initializePromise : option nat;
  shuttingDown : bool;
  openDocuments : gmap string DocumentState;
  diagnostics : gmap string PublishDiagnosticsParams;
  diagnosticsEvents : gmap string (list Listener);
  (** The runs of [start], by the promise each returned. *)
  handshakes : gmap nat Handshake;
  (** The calls of the public methods, by call id. *)
  tasks : gmap nat Task;
  (** The timers that are set and have neither fired nor been cleared. *)
  timers : gmap nat Timer;
  (** What the client has done to the outside, in order. *)
  spawned : list Spawn;
  sent : list Outgoing;
  disposed : list nat;
  killed : list nat;
  logged : list (LogLevel * string);
  (** The diagnostics handlers that were invoked, by waiter. *)
  invoked : list nat;
  (** The next fresh identifier. *)
  next : nat;
}.

Definition set_child (v : option nat) (w : World) : World :=
  {| cwd := cwd w; pid := pid w; options := options w;
     workspaceRoot := workspaceRoot w;
     initializationTimeout := initializationTimeout w;
     diagnosticsTimeout := diagnosticsTimeout w; child := v;
     connection := connection w; initializePromise := initializePromise w;
     shuttingDown := shuttingDown w; openDocuments := openDocuments w;
     diagnostics := diagnostics w; diagnosticsEvents := diagnosticsEvents w;
     handshakes := handshakes w; tasks := tasks w; timers := timers w;
     spawned := spawned w; sent := sent w; disposed := disposed w;
     killed := killed w; logged := logged w; invoked := invoked w; next := next w |}.

Definition set_connection (v : option nat) (w : World) : World :=
  {| cwd := cwd w; pid := pid w; options := options w;
     workspaceRoot := workspaceRoot w;
     initializationTimeout := initializationTimeout w;
     diagnosticsTimeout := diagnosticsTimeout w; child := child w; connection := v;
     initializePromise := initializePromise w; shuttingDown := shuttingDown w;
     openDocuments := openDocuments w; diagnostics := diagnostics w;
     diagnosticsEvents := diagnosticsEvents w; handshakes := handshakes w;
     tasks := tasks w; timers := timers w; spawned := spawned w; sent := sent w;
     disposed := disposed w; killed := killed w; logged := logged w;
     invoked := invoked w; next := next w |}.

Definition set_initializePromise (v : option nat) (w : World) : World :=
  {| cwd := cwd w; pid := pid w; options := options w;
     workspaceRoot := workspaceRoot w;
     initializationTimeout := initializationTimeout w;
     diagnosticsTimeout := diagnosticsTimeout w; child := child w;
     connection := connection w; initializePromise := v;
     shuttingDown := shuttingDown w; openDocuments := openDocuments w;
     diagnostics := diagnostics w; diagnosticsEvents := diagnosticsEvents w;
     handshakes := handshakes w; tasks := tasks w; timers := timers w;
     spawned := spawned w; sent := sent w; disposed := disposed w;
     killed := killed w; logged := logged w; invoked := invoked w; next := next w |}.

Definition set_shuttingDown (v : bool) (w : World) : World :=
  {| cwd := cwd w; pid := pid w; options := options w;
     workspaceRoot := workspaceRoot w;
     initializationTimeout := initializationTimeout w;
     diagnosticsTimeout := diagnosticsTimeout w; child := child w;
     connection := connection w; initializePromise := initializePromise w;
     shuttingDown := v; openDocuments := openDocuments w;
     diagnostics := diagnostics w; diagnosticsEvents := diagnosticsEvents w;
     handshakes := handshakes w; tasks := tasks w; timers := timers w;
     spawned := spawned w; sent := sent w; disposed := disposed w;
     killed := killed w; logged := logged w; invoked := invoked w; next := next w |}.

Definition set_openDocuments (v : gmap string DocumentState) (w : World) : World :=
  {| cwd := cwd w; pid := pid w; options := options w;
     workspaceRoot := workspaceRoot w;
     initializationTimeout := initializationTimeout w;
     diagnosticsTimeout := diagnosticsTimeout w; child := child w;
     connection := connection w; initializePromise := initializePromise w;
     shuttingDown := shuttingDown w; openDocuments := v;
     diagnostics := diagnostics w; diagnosticsEvents := diagnosticsEvents w;
     handshakes := handshakes w; tasks := tasks w; timers := timers w;
     spawned := spawned w; sent := sent w; disposed := disposed w;
     killed := killed w; logged := logged w; invoked := invoked w; next := next w |}.

Definition set_diagnostics (v : gmap string PublishDiagnosticsParams) (w : World) : World :=
  {| cwd := cwd w; pid := pid w; options := options w;
     workspaceRoot := workspaceRoot w;
     initializationTimeout := initializationTimeout w;
     diagnosticsTimeout := diagnosticsTimeout w; child := child w;
     connection := connection w; initializePromise := initializePromise w;
     shuttingDown := shuttingDown w; openDocuments := openDocuments w;
     diagnostics := v; diagnosticsEvents := diagnosticsEvents w;
     handshakes := handshakes w; tasks := tasks w; timers := timers w;
     spawned := spawned w; sent := sent w; disposed := disposed w;
     killed := killed w; logged := logged w; invoked := invoked w; next := next w |}.

Definition set_diagnosticsEvents (v : gmap string (list Listener)) (w : World) : World :=
  {| cwd := cwd w; pid := pid w; options := options w;
     workspaceRoot := workspaceRoot w;
     initializationTimeout := initializationTimeout w;
     diagnosticsTimeout := diagnosticsTimeout w; child := child w;
     connection := connection w; initializePromise := initializePromise w;
     shuttingDown := shuttingDown w; openDocuments := openDocuments w;
     diagnostics := diagnostics w; diagnosticsEvents := v;
     handshakes := handshakes w; tasks := tasks w; timers := timers w;
     spawned := spawned w; sent := sent w; disposed := disposed w;
     killed := killed w; logged := logged w; invoked := invoked w; next := next w |}.

Definition set_handshakes (v : gmap nat Handshake) (w : World) : World :=
  {| cwd := cwd w; pid := pid w; options := options w;
     workspaceRoot := workspaceRoot w;
     initializationTimeout := initializationTimeout w;
     diagnosticsTimeout := diagnosticsTimeout w; child := child w;
     connection := connection w; initializePromise := initializePromise w;
     shuttingDown := shuttingDown w; openDocuments := openDocuments w;
     diagnostics := diagnostics w; diagnosticsEvents := diagnosticsEvents w;
     handshakes := v; tasks := tasks w; timers := timers w; spawned := spawned w;
     sent := sent w; disposed := disposed w; killed := killed w; logged := logged w;
     invoked := invoked w; next := next w |}.

Definition set_tasks (v : gmap nat Task) (w : World) : World :=
  {| cwd := cwd w; pid := pid w; options := options w;
     workspaceRoot := workspaceRoot w;
     initializationTimeout := initializationTimeout w;
     diagnosticsTimeout := diagnosticsTimeout w; child := child w;
     connection := connection w; initializePromise := initializePromise w;
     shuttingDown := shuttingDown w; openDocuments := openDocuments w;
     diagnostics := diagnostics w; diagnosticsEvents := diagnosticsEvents w;
     handshakes := handshakes w; tasks := v; timers := timers w;
     spawned := spawned w; sent := sent w; disposed := disposed w;
     killed := killed w; logged := logged w; invoked := invoked w; next := next w |}.

Definition set_timers (v : gmap nat Timer) (w : World) : World :=
  {| cwd := cwd w; pid := pid w; options := options w;
     workspaceRoot := workspaceRoot w;
     initializationTimeout := initializationTimeout w;
     diagnosticsTimeout := diagnosticsTimeout w; child := child w;
     connection := connection w; initializePromise := initializePromise w;
     shuttingDown := shuttingDown w; openDocuments := openDocuments w;
     diagnostics := diagnostics w; diagnosticsEvents := diagnosticsEvents w;
     handshakes := handshakes w; tasks := tasks w; timers := v; spawned := spawned w;
     sent := sent w; disposed := disposed w; killed := killed w; logged := logged w;
     invoked := invoked w; next := next w |}.

Definition set_spawned (v : list Spawn) (w : World) : World :=
  {| cwd := cwd w; pid := pid w; options := options w;
     workspaceRoot := workspaceRoot w;
     initializationTimeout := initializationTimeout w;
     diagnosticsTimeout := diagnosticsTimeout w; child := child w;
     connection := connection w; initializePromise := initializePromise w;
     shuttingDown := shuttingDown w; openDocuments := openDocuments w;
     diagnostics := diagnostics w; diagnosticsEvents := diagnosticsEvents w;
     handshakes := handshakes w; tasks := tasks w; timers := timers w; spawned := v;
     sent := sent w; disposed := disposed w; killed := killed w; logged := logged w;
     invoked := invoked w; next := next w |}.

Definition set_sent (v : list Outgoing) (w : World) : World :=
  {| cwd := cwd w; pid := pid w; options := options w;
     workspaceRoot := workspaceRoot w;
     initializationTimeout := initializationTimeout w;
     diagnosticsTimeout := diagnosticsTimeout w; child := child w;
     connection := connection w; initializePromise := initializePromise w;
     shuttingDown := shuttingDown w; openDocuments := openDocuments w;
     diagnostics := diagnostics w; diagnosticsEvents := diagnosticsEvents w;
     handshakes := handshakes w; tasks := tasks w; timers := timers w;
     spawned := spawned w; sent := v; disposed := disposed w; killed := killed w;
     logged := logged w; invoked := invoked w; next := next w |}.

Definition set_disposed (v : list nat) (w : World) : World :=
  {| cwd := cwd w; pid := pid w; options := options w;
     workspaceRoot := workspaceRoot w;
     initializationTimeout := initializationTimeout w;
     diagnosticsTimeout := diagnosticsTimeout w; child := child w;
     connection := connection w; initializePromise := initializePromise w;
     shuttingDown := shuttingDown w; openDocuments := openDocuments w;
     diagnostics := diagnostics w; diagnosticsEvents := diagnosticsEvents w;
     handshakes := handshakes w; tasks := tasks w; timers := timers w;
     spawned := spawned w; sent := sent w; disposed := v; killed := killed w;
     logged := logged w; invoked := invoked w; next := next w |}.

Definition set_killed (v : list nat) (w : World) : World :=
  {| cwd := cwd w; pid := pid w; options := options w;
     workspaceRoot := workspaceRoot w;
     initializationTimeout := initializationTimeout w;
     diagnosticsTimeout := diagnosticsTimeout w; child := child w;
     connection := connection w; initializePromise := initializePromise w;
     shuttingDown := shuttingDown w; openDocuments := openDocuments w;
     diagnostics := diagnostics w; diagnosticsEvents := diagnosticsEvents w;
     handshakes := handshakes w; tasks := tasks w; timers := timers w;
     spawned := spawned w; sent := sent w; disposed := disposed w; killed := v;
     logged := logged w; invoked := invoked w; next := next w |}.

Definition set_logged (v : list (LogLevel * string)) (w : World) : World :=
  {| cwd := cwd w; pid := pid w; options := options w;
     workspaceRoot := workspaceRoot w;
     initializationTimeout := initializationTimeout w;
     diagnosticsTimeout := diagnosticsTimeout w; child := child w;
     connection := connection w; initializePromise := initializePromise w;
     shuttingDown := shuttingDown w; openDocuments := openDocuments w;
     diagnostics := diagnostics w; diagnosticsEvents := diagnosticsEvents w;
     handshakes := handshakes w; tasks := tasks w; timers := timers w;
     spawned := spawned w; sent := sent w; disposed := disposed w;
     killed := killed w; logged := v; invoked := invoked w; next := next w |}.

Definition set_invoked (v : list nat) (w : World) : World :=
  {| cwd := cwd w; pid := pid w; options := options w;
     workspaceRoot := workspaceRoot w;
     initializationTimeout := initializationTimeout w;
     diagnosticsTimeout := diagnosticsTimeout w; child := child w;
     connection := connection w; initializePromise := initializePromise w;
     shuttingDown := shuttingDown w; openDocuments := openDocuments w;
     diagnostics := diagnostics w; diagnosticsEvents := diagnosticsEvents w;
     handshakes := handshakes w; tasks := tasks w; timers := timers w;
     spawned := spawned w; sent := sent w; disposed := disposed w;
     killed := killed w; logged := logged w; invoked := v; next := next w |}.

Definition set_next (v : nat) (w : World) : World :=
  {| cwd := cwd w; pid := pid w; options := options w;
     workspaceRoot := workspaceRoot w;
     initializationTimeout := initializationTimeout w;
     diagnosticsTimeout := diagnosticsTimeout w; child := child w;
     connection := connection w; initializePromise := initializePromise w;
     shuttingDown := shuttingDown w; openDocuments := openDocuments w;
     diagnostics := diagnostics w; diagnosticsEvents := diagnosticsEvents w;
     handshakes := handshakes w; tasks := tasks w; timers := timers w;
     spawned := spawned w; sent := sent w; disposed := disposed w;
     killed := killed w; logged := logged w; invoked := invoked w; next := v |}.
(** *** The constructor *)

Definition new_client (cwd : string) (pid : Z)
    (options : TypeScriptLspClientOptions) : World :=
  {| cwd := cwd; pid := pid; options := options;
     workspaceRoot := NodePath.resolve cwd [workspacePath options];
     initializationTimeout :=
       default DEFAULT_INITIALIZATION_TIMEOUT_MS (initializationTimeoutMs options);
     diagnosticsTimeout :=
       default DEFAULT_DIAGNOSTICS_TIMEOUT_MS (diagnosticsTimeoutMs options);
     child := None; connection := None; initializePromise := None;
     shuttingDown := false; openDocuments := ∅; diagnostics := ∅;
     diagnosticsEvents := ∅; handshakes := ∅; tasks := ∅; timers := ∅;
     spawned := []; sent := []; disposed := []; killed := []; logged := [];
     invoked := []; next := 0%nat |}.

(** *** Primitive effects *)

Definition fresh (w : World) : nat * World :=
  (next w, set_next (S (next w)) w).

Definition log (level : LogLevel) (message : string) (w : World) : World :=
  set_logged (logged w ++ [(level, message)]) w.

(** [connection.sendRequest] and [connection.sendNotification], as far as
    the bytes written are concerned. *)
Definition send (m : Outgoing) (w : World) : World :=
  set_sent (sent w ++ [m]) w.

Definition setTimeout (cb : TimerCallback) (ms : Z) (w : World) : nat * World :=
  let '(id, w) := fresh w in
  (id, set_timers (<[id := {| delay := ms; callback := cb |}]> (timers w)) w).

Definition clearTimeout (id : nat) (w : World) : World :=
  set_timers (delete id (timers w)) w.

Definition set_pc (t : nat) (op : Operation) (pc : Pc) (w : World) : World :=
  set_tasks (<[t := {| operation := op; pc := pc |}]> (tasks w)) w.

Definition set_state (p : nat) (h : Handshake) (s : StartState) (w : World) : World :=
  set_handshakes
    (<[p := {| hs_child := hs_child h; hs_connection := hs_connection h;
               timeoutHandle := timeoutHandle h;
               errorListener := errorListener h; state := s |}]> (handshakes w)) w.

(** *** The event emitter [diagnosticsEvents] *)

Definition listeners (w : World) (uri : string) : list Listener :=
  default [] (diagnosticsEvents w !! uri).

Definition set_listeners (uri : string) (ls : list Listener) (w : World) : World :=
  match ls with
  | [] => set_diagnosticsEvents (delete uri (diagnosticsEvents w)) w
  | _ => set_diagnosticsEvents (<[uri := ls]> (diagnosticsEvents w)) w
  end.

(** [diagnosticsEvents.once(uri, handler)]. *)
Definition once (uri : string) (l : Listener) (w : World) : World :=
  set_listeners uri (listeners w uri ++ [l]) w.

(** Removes the most recently added listener of waiter [t]. *)
Fixpoint remove_last (t : nat) (ls : list Listener) : list Listener * bool :=
  match ls with
  | [] => ([], false)
  | l :: rest =>
      let '(rest', removed) := remove_last t rest in
      if removed then (l :: rest', true)
      else if Nat.eqb (waiter l) t then (rest, true)
      else (l :: rest, false)
  end.

(** [diagnosticsEvents.off(uri, handler)], [handler] being the one of
    waiter [t]. *)
Definition off (uri : string) (t : nat) (w : World) : World :=
  match diagnosticsEvents w !! uri with
  | None => w
  | Some ls => set_listeners uri (fst (remove_last t ls)) w
  end.

(** [resolve(v)] of the promise made by [getDiagnostics] for waiter [t];
    resolving a settled promise does nothing. *)
Definition resolve (t : nat) (v : Value) (w : World) : World :=
  match tasks w !! t with
  | Some {| operation := op; pc := AwaitDiagnostics |} => set_pc t op (Returned v) w
  | _ => w
  end.

(** The body of [handler]. *)
Definition handler (l : Listener) (params : PublishDiagnosticsParams)
    (w : World) : World :=
  let w := set_invoked (invoked w ++ [waiter l]) w in
  let w := clearTimeout (timer l) w in
  resolve (waiter l) (VDiagnostics params) w.

(** [diagnosticsEvents.emit(uri, params)]: every listener was added with
    [once], so each is removed and then called, in the order of addition. *)
Definition emit (uri : string) (params : PublishDiagnosticsParams)
    (w : World) : World :=
  let ls := listeners w uri in
  let w := set_listeners uri [] w in
  foldl (fun w l => handler l params w) w ls.

Definition handleDiagnostics (params : PublishDiagnosticsParams) (w : World) : World :=
  let w := set_diagnostics (<[diag_uri params := params]> (diagnostics w)) w in
  emit (diag_uri params) params w.

(** *** initialize and start *)

(** [start], up to its first [await]. *)
Definition start (w : World) : nat * World :=
  let command := default "tsgo" (tsgoPath (options w)) in
  let args := ["--lsp"; "--stdio"] ++ default [] (tsgoArgs (options w)) in
  let w := log LogInfo "Starting tsgo language server" w in
  let '(k, w) := fresh w in
  let w := set_spawned
             (spawned w ++ [{| command := command; args := args;
                               spawn_cwd := workspaceRoot w |}]) w in
  let w := set_child (Some k) w in
  let '(c, w) := fresh w in
  let w := set_connection (Some c) w in
  let w := send (InitializeRequest (pid w) (toFileUri (workspaceRoot w))
                   (workspaceRoot w)) w in
  let '(p, w) := fresh w in
  let '(timeoutHandle, w) :=
    setTimeout (InitializationTimeout p) (initializationTimeout w) w in
  (p, set_handshakes
        (<[p := {| hs_child := k; hs_connection := c;
                   timeoutHandle := timeoutHandle; errorListener := true;
                   state := Racing |}]> (handshakes w)) w).

Definition initialize (w : World) : nat * World :=
  match initializePromise w with
  | Some p => (p, w)
  | None =>
      let '(p, w) := start w in
      (p, set_initializePromise (Some p) w)
  end.

Definition timeout_message (ms : Z) : string :=
  "Timed out after " +:+ show_Z ms +:+ "ms waiting for LSP initialize response".

(** The answer to the initialize request arrives: [Promise.race] settles
    with it unless it has settled, and [start] goes on to its next [await]. *)
Definition initializeResponse (p : nat) (r : result Js.value) (w : World) : World :=
  match handshakes w !! p with
  | Some h =>
      match state h, r with
      | Racing, Ok result =>
          let w := clearTimeout (timeoutHandle h) w in
          let w := send InitializedNotification w in
          set_state p h (Acknowledging result) w
      | Racing, Throw e => set_state p h (Rejected e) w
      | _, _ => w
      end
  | None => w
  end.

(** The initialized notification has been written, or could not be. *)
Definition initializedWritten (p : nat) (r : result unit) (w : World) : World :=
  match handshakes w !! p with
  | Some h =>
      match state h, r with
      | Acknowledging result, Ok _ =>
          let w := log LogInfo "tsgo language server initialized" w in
          set_state p h (Fulfilled result) w
      | Acknowledging _, Throw e => set_state p h (Rejected e) w
      | _, _ => w
      end
  | None => w
  end.

(** The child emits "error": the listener added with [once] logs and
    rejects [spawnErrorPromise]. *)
Definition childError (p : nat) (message : string) (w : World) : World :=
  match handshakes w !! p with
  | Some h =>
      if errorListener h then
        let w := log LogError "Failed to start tsgo process" w in
        set_handshakes
          (<[p := {| hs_child := hs_child h; hs_connection := hs_connection h;
                     timeoutHandle := timeoutHandle h; errorListener := false;
                     state := match state h with
                              | Racing => Rejected message
                              | s => s
                              end |}]> (handshakes w)) w
      else w
  | None => w
  end.

(** The child emits "exit". *)
Definition childExit (p : nat) (w : World) : World :=
  match handshakes w !! p with
  | Some _ =>
      if shuttingDown w then w
      else log LogError "tsgo process exited unexpectedly" w
  | None => w
  end.

(** *** Document synchronisation *)

Definition assertConnection (w : World) : result nat :=
  match connection w with
  | Some c => Ok c
  | None => Throw "LSP connection has not been initialized"
  end.

Definition resolveLanguageId (absolutePath : string) : string :=
  if endsWith absolutePath ".tsx" then "typescriptreact"
  else if endsWith absolutePath ".jsx" then "javascriptreact"
  else if endsWith absolutePath ".js" || endsWith absolutePath ".cjs"
          || endsWith absolutePath ".mjs" then "javascript"
  else if endsWith absolutePath ".cts" || endsWith absolutePath ".mts"
          || endsWith absolutePath ".d.cts" || endsWith absolutePath ".d.mts"
       then "typescript"
  else "typescript".

(** [ensureDocument] up to [await fs.readFile]: the absolute path and the
    uri, unless the path guard throws. *)
Definition ensureDocument_begin (w : World) (filePath : string)
  : result (string * string) :=
  match toAbsolutePath (cwd w) (workspaceRoot w) filePath with
  | Ok absolutePath => Ok (absolutePath, toFileUri absolutePath)
  | Throw e => Throw e
  end.

(** [ensureDocument] from the content read to its [return]. *)
Definition ensureDocument_resume (absolutePath uri text : string) (w : World)
  : result (DocumentState * string) * World :=
  match openDocuments w !! uri with
  | None =>
      match assertConnection w with
      | Throw e => (Throw e, w)
      | Ok _ =>
          let w := send (DidOpenTextDocumentNotification uri
                           (resolveLanguageId absolutePath) 1 text) w in
          let state := {| doc_uri := uri; doc_path := absolutePath;
                          doc_version := 1; doc_text := text |} in
          (Ok (state, uri),
           set_openDocuments (<[uri := state]> (openDocuments w)) w)
      end
  | Some existing =>
      if negb (String.eqb (doc_text existing) text) then
        let nextVersion := doc_version existing + 1 in
        match assertConnection w with
        | Throw e => (Throw e, w)
        | Ok _ =>
            let w := send (DidChangeTextDocumentNotification uri nextVersion
                             text) w in
            let existing' := {| doc_uri := doc_uri existing;
                                doc_path := doc_path existing;
                                doc_version := nextVersion;
                                doc_text := text |} in
            (Ok (existing', uri),
             set_openDocuments (<[uri := existing']> (openDocuments w)) w)
        end
      else (Ok (existing, uri), w)
  end.

(** *** The analysis operations *)

Definition filePath_of (op : Operation) : option string :=
  match op with
  | GetHover f _ | GetDefinition f _ | FindReferences f _ _
  | DocumentSymbols f | GetDiagnostics f => Some f
  | Initialize | Shutdown => None
  end.

(** The request an operation sends for the document [uri]. *)
Definition request_of (op : Operation) (uri : string) : option Outgoing :=
  match op with
  | GetHover _ position => Some (HoverRequest uri position)
  | GetDefinition _ position => Some (DefinitionRequest uri position)
  | FindReferences _ position context =>
      Some (ReferencesRequest uri position context)
  | DocumentSymbols _ => Some (DocumentSymbolRequest uri)
  | GetDiagnostics _ | Initialize | Shutdown => None
  end.

(** What an operation makes of the answer to its request. *)
Definition answer_of (op : Operation) (response : Js.value) : Value :=
  match op with
  | GetHover _ _ => VJs (Js.nullish response Js.Null)
  | GetDefinition _ _ => VLocations (Locations.normalizeLocations response)
  | FindReferences _ _ _ => VJs (Js.nullish response (Js.Arr []))
  | DocumentSymbols _ => VJs (Js.nullish response (Js.Arr []))
  | GetDiagnostics _ | Initialize | Shutdown => VJs response
  end.

(** After [await this.initialize()] has given [result]. *)
Definition after_initialize (t : nat) (op : Operation) (result : Js.value)
    (w : World) : World :=
  match filePath_of op with
  | Some filePath =>
      match ensureDocument_begin w filePath with
      | Ok (absolutePath, uri) => set_pc t op (AwaitReadFile absolutePath uri) w
      | Throw e => set_pc t op (Thrown e) w
      end
  | None =>
      match op with
      | Initialize => set_pc t op (Returned (VJs result)) w
      | _ => w
      end
  end.

(** After [await this.ensureDocument(filePath)] has given the identifier. *)
Definition after_ensureDocument (t : nat) (op : Operation) (uri : string)
    (w : World) : World :=
  match op with
  | GetDiagnostics _ =>
      match diagnostics w !! uri with
      | Some cached => set_pc t op (Returned (VDiagnostics cached)) w
      | None =>
          let '(tm, w) :=
            setTimeout (DiagnosticsTimeout uri t) (diagnosticsTimeout w) w in
          let w := once uri {| waiter := t; timer := tm |} w in
          set_pc t op AwaitDiagnostics w
      end
  | _ =>
      match request_of op uri with
      | Some m =>
          match assertConnection w with
          | Ok _ => set_pc t op AwaitResponse (send m w)
          | Throw e => set_pc t op (Thrown e) w
          end
      | None => w
      end
  end.

(** *** shutdown *)

Definition null_dispose : string :=
  "Cannot read properties of null (reading 'dispose')".
Definition null_kill : string :=
  "Cannot read properties of null (reading 'kill')".

(** [shutdown] after its [try] block. *)
Definition shutdown_finish (t : nat) (w : World) : World :=
  match connection w with
  | None => set_pc t Shutdown (Thrown null_dispose) w
  | Some c =>
      let w := set_disposed (disposed w ++ [c]) w in
      let w := set_connection None w in
      match child w with
      | None => set_pc t Shutdown (Thrown null_kill) w
      | Some k =>
          let w := set_killed (killed w ++ [k]) w in
          let w := set_child None w in
          set_pc t Shutdown (Returned VVoid) w
      end
  end.

(** [shutdown], up to its first [await] or its early [return]. *)
Definition shutdown_begin (t : nat) (w : World) : World :=
  match connection w, child w with
  | Some _, Some _ =>
      let w := set_shuttingDown true w in
      let w := send ShutdownRequest w in
      set_pc t Shutdown AwaitShutdownRequest w
  | _, _ => set_pc t Shutdown (Returned VVoid) w
  end.

Definition shutdown_caught (w : World) : World :=
  log LogWarn "Failed to send shutdown request" w.

(** *** The event loop *)

Inductive Event :=
| Call (op : Operation)
| Tick (t : nat)
| ReadFile (t : nat) (r : result string)
| Response (t : nat) (r : result Js.value)
| Written (t : nat) (r : result unit)
| InitializeResponse (p : nat) (r : result Js.value)
| InitializedWritten (p : nat) (r : result unit)
| ChildError (p : nat) (message : string)
| ChildExit (p : nat)
| Fire (id : nat)
| PublishDiagnostics (params : PublishDiagnosticsParams).

(** A caller invokes a public method: the method runs to its first [await]. *)
Definition call (op : Operation) (w : World) : World :=
  let '(t, w) := fresh w in
  match op with
  | Shutdown => shutdown_begin t w
  | _ =>
      let '(p, w) := initialize w in
      set_pc t op (AwaitInitialize p) w
  end.

(** The continuation of a call whose awaited promise has settled inside the
    client. *)
Definition tick (t : nat) (w : World) : World :=
  match tasks w !! t with
  | Some {| operation := op; pc := AwaitInitialize p |} =>
      match state <$> handshakes w !! p with
      | Some (Fulfilled result) => after_initialize t op result w
      | Some (Rejected e) => set_pc t op (Thrown e) w
      | _ => w
      end
  | Some {| operation := op; pc := AwaitEnsureDocument uri |} =>
      after_ensureDocument t op uri w
  | _ => w
  end.

(** [fs.readFile] settles for call [t]. *)
Definition readFile (t : nat) (r : result string) (w : World) : World :=
  match tasks w !! t with
  | Some {| operation := op; pc := AwaitReadFile absolutePath uri |} =>
      match r with
      | Throw e => set_pc t op (Thrown e) w
      | Ok text =>
          match ensureDocument_resume absolutePath uri text w with
          | (Ok (_, identifier), w) => set_pc t op (AwaitEnsureDocument identifier) w
          | (Throw e, w) => set_pc t op (Thrown e) w
          end
      end
  | _ => w
  end.

(** The request call [t] awaits is answered, or fails. *)
Definition response (t : nat) (r : result Js.value) (w : World) : World :=
  match tasks w !! t with
  | Some {| operation := op; pc := AwaitResponse |} =>
      match r with
      | Ok v => set_pc t op (Returned (answer_of op v)) w
      | Throw e => set_pc t op (Thrown e) w
      end
  | Some {| operation := Shutdown; pc := AwaitShutdownRequest |} =>
      match r with
      | Ok _ =>
          match connection w with
          | Some _ => set_pc t Shutdown AwaitExitNotification (send ExitNotification w)
          | None => shutdown_finish t (shutdown_caught w)
          end
      | Throw _ => shutdown_finish t (shutdown_caught w)
      end
  | _ => w
  end.

(** The exit notification of call [t] has been written, or could not be. *)
Definition written (t : nat) (r : result unit) (w : World) : World :=
  match tasks w !! t with
  | Some {| operation := Shutdown; pc := AwaitExitNotification |} =>
      match r with
      | Ok _ => shutdown_finish t w
      | Throw _ => shutdown_finish t (shutdown_caught w)
      end
  | _ => w
  end.

(** A timer that is still set fires. *)
Definition timeout (id : nat) (w : World) : World :=
  match timers w !! id with
  | None => w
  | Some tm =>
      let w := set_timers (delete id (timers w)) w in
      match callback tm with
      | InitializationTimeout p =>
          match handshakes w !! p with
          | Some h =>
              match state h with
              | Racing =>
                  set_state p h
                    (Rejected (timeout_message (initializationTimeout w))) w
              | _ => w
              end
          | None => w
          end
      | DiagnosticsTimeout uri t =>
          let w := off uri t w in
          resolve t (VDiagnostics {| diag_uri := uri; diag_diagnostics := [] |}) w
      end
  end.

(** The server publishes diagnostics: the handler registered on the
    connection runs as long as the connection has not been disposed. *)
Definition publishDiagnostics (params : PublishDiagnosticsParams) (w : World) : World :=
  match connection w with
  | Some _ => handleDiagnostics params w
  | None => w
  end.

Definition step (w : World) (e : Event) : World :=
  match e with
  | Call op => call op w
  | Tick t => tick t w
  | ReadFile t r => readFile t r w
  | Response t r => response t r w
  | Written t r => written t r w
  | InitializeResponse p r => initializeResponse p r w
  | InitializedWritten p r => initializedWritten p r w
  | ChildError p message => childError p message w
  | ChildExit p => childExit p w
  | Fire id => timeout id w
  | PublishDiagnostics params => publishDiagnostics params w
  end.

Definition run (w : World) (es : list Event) : World := foldl step w es.

(** *** Outcomes *)

(** A call has returned or thrown. *)
Definition settled (pc : Pc) : Prop :=
  match pc with
  | Returned _ | Thrown _ => True
  | _ => False
  end.

(** A run of [start] has returned or thrown. *)
Definition settled_state (s : StartState) : Prop :=
  match s with
  | Fulfilled _ | Rejected _ => True
  | _ => False
  end.

(** What [await this.initializePromise] gives for a settled run of [start]. *)
Definition outcome_of (s : StartState) : option Pc :=
  match s with
  | Fulfilled result => Some (Returned (VJs result))
  | Rejected e => Some (Thrown e)
  | _ => None
  end.

(** *** The memo of [initialize]

    A call is consistent with the memo [po] and the handshakes [hs] when
    the promise it awaits is the memoised one and, for a caller of
    [initialize] itself, its outcome is the outcome of that promise. *)
Definition task_ok_at (po : option nat) (hs : gmap nat Handshake) (task : Task) : Prop :=
  match pc task with
  | AwaitInitialize q => po = Some q
  | Returned _ | Thrown _ =>
      operation task = Initialize →
      ∃ p h, po = Some p ∧ hs !! p = Some h
             ∧ outcome_of (state h) = Some (pc task)
  | _ => operation task ≠ Initialize
  end.

(** From [w0] to [w] the memo is kept, and so is every settled run of
    [start] as soon as there is a memo. *)
Definition keeps (w0 w : World) : Prop :=
  (∀ p, initializePromise w0 = Some p → initializePromise w = Some p)
  ∧ (initializePromise w0 ≠ None →
     ∀ p h, handshakes w0 !! p = Some h →
            ∃ h', handshakes w !! p = Some h'
                  ∧ (settled_state (state h) → state h' = state h)).

Definition memo_inv (w : World) : Prop :=
  match initializePromise w with
  | None => spawned w = [] ∧ handshakes w = ∅
  | Some p => length (spawned w) = 1%nat ∧ ∃ h, handshakes w = {[p := h]}
  end
  ∧ ∀ t task, tasks w !! t = Some task →
              task_ok_at (initializePromise w) (handshakes w) task.

(** *** The diagnostics waiters

    A listener waits when its call is suspended in [getDiagnostics] and its
    timer is set and will fire for that call. *)
Definition waits (w : World) (uri : string) (l : Listener) : Prop :=
  (∃ f, tasks w !! waiter l
        = Some {| operation := GetDiagnostics f; pc := AwaitDiagnostics |})
  ∧ ∃ d, timers w !! timer l
         = Some {| delay := d; callback := DiagnosticsTimeout uri (waiter l) |}.

Definition waiters_inv (w : World) : Prop :=
  (∀ t task, tasks w !! t = Some task → (t < next w)%nat)
  ∧ (∀ id tm, timers w !! id = Some tm → (id < next w)%nat)
  ∧ (∀ p h, handshakes w !! p = Some h →
            (timeoutHandle h < next w)%nat
            ∧ ∀ tm, timers w !! timeoutHandle h = Some tm →
                    ∃ q, callback tm = InitializationTimeout q)
  ∧ (∀ uri l, l ∈ listeners w uri → waits w uri l)
  ∧ (∀ id d uri t,
       timers w !! id
       = Some {| delay := d; callback := DiagnosticsTimeout uri t |} →
       {| waiter := t; timer := id |} ∈ listeners w uri)
  ∧ (∀ uri, NoDup (waiter <$> listeners w uri))
  ∧ (∀ uri uri' l l', l ∈ listeners w uri → l' ∈ listeners w uri' →
                      waiter l = waiter l' → uri = uri').

(** *** The documents and their notifications *)

(** The document a notification synchronises. *)
Definition document_of (m : Outgoing) : option string :=
  match m with
  | DidOpenTextDocumentNotification uri _ _ _
  | DidChangeTextDocumentNotification uri _ _ => Some uri
  | _ => None
  end.

Definition is_open (m : Outgoing) : bool :=
  match m with
  | DidOpenTextDocumentNotification _ _ _ _ => true
  | _ => false
  end.

Definition version_of (m : Outgoing) : option Z :=
  match m with
  | DidOpenTextDocumentNotification _ _ version _
  | DidChangeTextDocumentNotification _ version _ => Some version
  | _ => None
  end.

Definition text_of (m : Outgoing) : option string :=
  match m with
  | DidOpenTextDocumentNotification _ _ _ text
  | DidChangeTextDocumentNotification _ _ text => Some text
  | _ => None
  end.

(** The notifications written for [uri], in the order written. *)
Definition notifications_of (uri : string) (ms : list Outgoing) : list Outgoing :=
  filter (λ m, document_of m = Some uri) ms.

(** The state kept of [uri] mirrors the messages written: there is none
    as long as nothing was written for [uri]; an open notification with
    version 1 creates it; each change notification carries a text other
    than the one kept and the next version, and updates the state. *)
Inductive mirrors (uri : string) : list Outgoing → option DocumentState → Prop :=
| mirrors_nil : mirrors uri [] None
| mirrors_open ms languageId path text :
    mirrors uri ms None →
    mirrors uri (ms ++ [DidOpenTextDocumentNotification uri languageId 1 text])
      (Some {| doc_uri := uri; doc_path := path; doc_version := 1;
               doc_text := text |})
| mirrors_change ms existing text :
    mirrors uri ms (Some existing) →
    doc_text existing ≠ text →
    mirrors uri
      (ms ++ [DidChangeTextDocumentNotification uri (doc_version existing + 1) text])
      (Some {| doc_uri := doc_uri existing; doc_path := doc_path existing;
               doc_version := doc_version existing + 1; doc_text := text |})
| mirrors_other ms m state :
    mirrors uri ms state →
    document_of m ≠ Some uri →
    mirrors uri (ms ++ [m]) state.

End Lsp.

(** ** The segments of resolved paths *)
Module Segment.
Import NodePath.

Fixpoint no_slash (s : string) : bool :=
  match s with
  | EmptyString => true
  | String c s' => negb (Ascii.eqb c slash) && no_slash s'
  end.

(** A segment as [path.resolve] leaves it: a name without separator that is
    neither empty nor "." nor "..". *)
Definition clean (seg : string) : Prop :=
  no_slash seg = true ∧ seg ≠ "" ∧ seg ≠ "." ∧ seg ≠ "..".
End Segment.

(** ** util/formatter.ts *)
Module Formatter.
Import NodePath Protocol.

Section DisplayPath.
(** [fileURLToPath] of [node:url]. *)
Variable fileURLToPath : string → result string.

Definition toDisplayPath (cwd : string) (workspaceRoot uri : string) : string :=
  let filePath :=
    if startsWith uri "file://" then
      match fileURLToPath uri with
      | Ok p => p
      | Throw _ => uri
      end
    else uri in
  let relative := relative cwd workspaceRoot filePath in
  if String.eqb relative "" then "."
  else if startsWith relative ".." then filePath
  else relative.
End DisplayPath.

(** *** The outline of a document *)

Definition SYMBOL_KIND_LABELS (kind : Z) : option string :=
  match kind with
  | 1 => Some "File" | 2 => Some "Module" | 3 => Some "Namespace"
  | 4 => Some "Package" | 5 => Some "Class" | 6 => Some "Method"
  | 7 => Some "Property" | 8 => Some "Field" | 9 => Some "Constructor"
  | 10 => Some "Enum" | 11 => Some "Interface" | 12 => Some "Function"
  | 13 => Some "Variable" | 14 => Some "Constant" | 15 => Some "String"
  | 16 => Some "Number" | 17 => Some "Boolean" | 18 => Some "Array"
  | 19 => Some "Object" | 20 => Some "Key" | 21 => Some "Null"
  | 22 => Some "Enum Member" | 23 => Some "Struct" | 24 => Some "Event"
  | 25 => Some "Operator" | 26 => Some "Type Parameter"
  | _ => None
  end.

Definition formatPosition (position : Position) : string :=
  show_Z (line position + 1) +:+ ":" +:+ show_Z (character position + 1).

Definition formatRange (range : Range) : string :=
  formatPosition (range_start range) +:+ "-" +:+ formatPosition (range_end range).

(** A [DocumentSymbol]; the members the formatter tests for are optional. *)
#[warnings="-register-all"]
Inductive DocumentSymbol : Type :=
  mkDocumentSymbol {
    sym_name : string;
    sym_detail : option string;
    sym_kind : option Z;
    sym_range : option Range;
    sym_selectionRange : option Range;
    sym_children : option (list DocumentSymbol);
  }.

(** ["  ".repeat(depth)]. *)
Fixpoint spaces (depth : nat) : string :=
  match depth with
  | O => ""
  | S d => "  " +:+ spaces d
  end.

Definition kind_label (kind : option Z) : string :=
  match kind with
  | Some k =>
      match SYMBOL_KIND_LABELS k with
      | Some label => label
      | None => "Symbol kind " +:+ show_Z k
      end
  | None => "Symbol kind ?"
  end.

(** The line of one symbol. *)
Definition symbol_line (symbol : DocumentSymbol) (depth : nat) : string :=
  let indent := if (0 <? depth)%nat then spaces depth +:+ "- " else "- " in
  let detail :=
    match sym_detail symbol with
    | Some d => if String.eqb d "" then "" else " — " +:+ d
    | None => ""
    end in
  let kind := kind_label (sym_kind symbol) in
  let rangeLabel :=
    match sym_selectionRange symbol with
    | Some r => formatRange r
    | None =>
        match sym_range symbol with
        | Some r => formatRange r
        | None => "range unknown"
        end
    end in
  indent +:+ kind +:+ " " +:+ sym_name symbol +:+ detail
  +:+ " (" +:+ rangeLabel +:+ ")".

Fixpoint formatDocumentSymbol (symbol : DocumentSymbol) (workspaceRoot : string)
    (depth : nat) : list string :=
  let childLines :=
    match sym_children symbol with
    | Some children =>
        flat_map (fun child => formatDocumentSymbol child workspaceRoot (S depth))
          children
    | None => []
    end in
  symbol_line symbol depth :: childLines.

(** The symbols of a tree, the root included. *)
Fixpoint symbols (symbol : DocumentSymbol) : nat :=
  S (match sym_children symbol with
     | Some children => list_sum (map symbols children)
     | None => 0
     end).

End Formatter.

(** ** logger.ts *)
Module Logger.
Import Lsp.

Definition priority (level : LogLevel) : Z :=
  match level with
  | LogDebug => 10
  | LogInfo => 20
  | LogWarn => 30
  | LogError => 40
  end.

(** [level.toUpperCase()]. *)
Definition toUpperCase (level : LogLevel) : string :=
  match level with
  | LogDebug => "DEBUG"
  | LogInfo => "INFO"
  | LogWarn => "WARN"
  | LogError => "ERROR"
  end.

Record ConsoleLoggerOptions := { minimumLevel : option LogLevel }.

(** The details of a message: the entries of a record. *)
Definition Details := list (string * Js.value).

(** [parts.filter(Boolean)]: [undefined] and the empty string go. *)
Definition Boolean (part : option string) : option string :=
  match part with
  | Some s => if String.eqb s "" then None else Some s
  | None => None
  end.

Section Console.
(** [JSON.stringify] on a record of details. *)
Variable stringify : Details → string.

(** [write]: the line that goes to the standard error stream, for the
    time stamp [new Date().toISOString()] gave. *)
Definition write (timestamp : string) (level : LogLevel) (message : string)
    (details : option Details) : string :=
  let parts := omap Boolean [Some timestamp; Some (toUpperCase level);
                             Some message; stringify <$> details] in
  String.concat " " parts +:+ String (ascii_of_nat 10) "".

(** [createConsoleLogger(options).log]: what is written, if anything. *)
Definition log (options : ConsoleLoggerOptions) (timestamp : string)
    (level : LogLevel) (message : string) (details : option Details)
  : option string :=
  let minLevel := default LogInfo (minimumLevel options) in
  if priority level <? priority minLevel then None
  else
    let payload :=
      match details with
      | Some d => if (0 <? length d)%nat then Some d else None
      | None => None
      end in
    Some (write timestamp level message payload).
End Console.

End Logger.

(** ** What the client writes, and its states *)
Module Wire.
Import Protocol PathUtil Lsp.

(** The document a request asks about. *)
Definition request_uri (m : Outgoing) : option string :=
  match m with
  | HoverRequest uri _ | DefinitionRequest uri _
  | ReferencesRequest uri _ _ | DocumentSymbolRequest uri => Some uri
  | _ => None
  end.

Definition is_initialize (m : Outgoing) : bool :=
  match m with
  | InitializeRequest _ _ _ => true
  | _ => false
  end.

(** An open notification for [uri], with version 1, is among [ms]. *)
Definition opened (uri : string) (ms : list Outgoing) : Prop :=
  ∃ languageId text,
    DidOpenTextDocumentNotification uri languageId 1 text ∈ ms.

(** Every request of [ms] comes after an open notification for its
    document. *)
Definition requests_follow_open (ms : list Outgoing) : Prop :=
  ∀ before m after uri,
    ms = before ++ m :: after → request_uri m = Some uri → opened uri before.

(** The calls that have synchronised their document wait on an opened
    one. *)
Definition synchronised (w : World) : Prop :=
  ∀ t op uri,
    tasks w !! t = Some {| operation := op; pc := AwaitEnsureDocument uri |} →
    opened uri (sent w).

(** The handshake has settled and the connection has been cleared. *)
Definition closed (w : World) : Prop :=
  connection w = None
  ∧ ∃ p h, initializePromise w = Some p ∧ handshakes w = {[p := h]}
           ∧ settled_state (state h).

(** The three states of a client: not started, running, shut down. *)
Definition lifecycle (w : World) : Prop :=
  (initializePromise w = None ∧ connection w = None ∧ child w = None
   ∧ disposed w = [] ∧ killed w = [] ∧ handshakes w = ∅)
  ∨ ∃ p h, initializePromise w = Some p ∧ handshakes w = {[p := h]}
           ∧ ((connection w = Some (hs_connection h)
               ∧ child w = Some (hs_child h)
               ∧ killed w = [] ∧ disposed w = [])
              ∨ (connection w = None ∧ child w = None
                 ∧ killed w = [hs_child h]
                 ∧ disposed w = [hs_connection h])).

(** Every timer that is set has the delay of its kind. *)
Definition configured_delays (w : World) : Prop :=
  ∀ id tm, timers w !! id = Some tm →
           delay tm = match callback tm with
                      | InitializationTimeout _ => initializationTimeout w
                      | DiagnosticsTimeout _ _ => diagnosticsTimeout w
                      end.
End Wire.

(** ** server.ts *)
Module Server.
Import NodePath Protocol PathUtil Lsp.

(** The path shown by the hover tool. *)
Definition toDisplayFile (cwd : string) (workspaceRoot absoluteFilePath : string)
  : string :=
  let relative := NodePath.relative cwd workspaceRoot absoluteFilePath in
  if String.eqb relative "" || startsWith relative ".." then absoluteFilePath
  else if String.eqb relative "" then "." else relative.

(** *** The tools *)

(** The validated input of a tool call. *)
Inductive ToolCall :=
| HoverTool (filePath : string) (line character : Z)
| DefinitionTool (filePath : string) (line character : Z)
| ReferencesTool (filePath : string) (line character : Z)
    (includeDeclaration : option bool)
| DocumentSymbolsTool (filePath : string)
| DiagnosticsTool (filePath : string).

Definition TOOL_NAMES (call : ToolCall) : string :=
  match call with
  | HoverTool _ _ _ => "typescript-hover"
  | DefinitionTool _ _ _ => "typescript-definition"
  | ReferencesTool _ _ _ _ => "typescript-references"
  | DocumentSymbolsTool _ => "typescript-document-symbols"
  | DiagnosticsTool _ => "typescript-diagnostics"
  end.

(** The method of the client a tool calls. *)
Definition operation_of (call : ToolCall) : Operation :=
  match call with
  | HoverTool filePath line character =>
      GetHover filePath {| line := line; character := character |}
  | DefinitionTool filePath line character =>
      GetDefinition filePath {| line := line; character := character |}
  | ReferencesTool filePath line character includeDeclaration =>
      FindReferences filePath {| line := line; character := character |}
        (Js.Obj [("includeDeclaration",
                  Js.Bool (default false includeDeclaration))])
  | DocumentSymbolsTool filePath => DocumentSymbols filePath
  | DiagnosticsTool filePath => GetDiagnostics filePath
  end.

(** A tool handler up to its first [await]: the hover tool resolves the
    path against [root], the resolved workspace path of the server, before
    it calls the client; the other tools call the client at once. *)
Definition handle (root : string) (call : ToolCall) (w : World) : result World :=
  match call with
  | HoverTool filePath _ _ =>
      match toAbsolutePath (cwd w) root filePath with
      | Ok _ => Ok (Lsp.call (operation_of call) w)
      | Throw e => Throw e
      end
  | _ => Ok (Lsp.call (operation_of call) w)
  end.

Definition filePath_of_call (call : ToolCall) : string :=
  match call with
  | HoverTool f _ _ | DefinitionTool f _ _ | ReferencesTool f _ _ _
  | DocumentSymbolsTool f | DiagnosticsTool f => f
  end.

Definition is_hover (call : ToolCall) : bool :=
  match call with
  | HoverTool _ _ _ => true
  | _ => false
  end.

End Server.
(** ** util/formatter.ts: hover contents *)
Module Hover.
Import Protocol.

(** A segment of hover contents: a plain string, a marked string with its
    language, or markup content with its kind. *)
Inductive Segment :=
| Plain (text : string)
| Marked (language value : string)
| Markup (kind value : string).

(** [hover.contents]: one segment or an array of segments. *)
Inductive Contents :=
| One (segment : Segment)
| Many (segments : list Segment).

Definition fence : string := "```".
Definition newline : string := String (ascii_of_nat 10) "".

Section Flatten.
(** [String.prototype.trim]. *)
Variable trim : string → string.

Definition flattenHoverSegment (segment : Segment) : string :=
  match segment with
  | Plain text => trim text
  | Marked language value =>
      let value := trim value in
      if String.eqb language "" then
        fence +:+ newline +:+ value +:+ newline +:+ fence
      else
        fence +:+ language +:+ newline +:+ value +:+ newline +:+ fence
  | Markup kind value =>
      if String.eqb kind "markdown" then trim value
      else fence +:+ newline +:+ trim value +:+ newline +:+ fence
  end.

(** [!hover.contents]: of the contents only the empty string is falsy. *)
Definition falsy (contents : Contents) : bool :=
  match contents with
  | One (Plain text) => String.eqb text ""
  | _ => false
  end.

Definition flattenHoverContents (contents : Contents) : list string :=
  match contents with
  | Many segments =>
      filter (λ text, (0 < String.length text)%nat)
        (map flattenHoverSegment segments)
  | One segment =>
      if falsy contents then [] else [flattenHoverSegment segment]
  end.
End Flatten.

End Hover.
(** ** Concrete runs *)
Module Scenario.
Import Protocol Lsp.

Definition options : TypeScriptLspClientOptions :=
  {| workspacePath := "/ws"; tsgoPath := None; tsgoArgs := None;
     initializationTimeoutMs := None; diagnosticsTimeoutMs := None |}.

Definition fresh_client : World := new_client "/" 4242 options.

Definition position : Position := {| line := 0; character := 9 |}.

Definition capabilities : Js.value := Js.Obj [("capabilities", Js.Obj [])].

Definition report : PublishDiagnosticsParams :=
  {| diag_uri := "file:///ws/a.ts";
     diag_diagnostics := [Js.Obj [("message", Js.Str "unused")]] |}.

(** A hover on [a.ts] starts the handshake (call 0, child 1, connection 2,
    promise 3, timer 4), which succeeds. *)
Definition handshake : list Event :=
  [Call (GetHover "a.ts" position);
   InitializeResponse 3 (Ok capabilities);
   InitializedWritten 3 (Ok ())].

(** The hover opens the document, whose content is ["x"], and is answered. *)
Definition hover : list Event :=
  [Tick 0; ReadFile 0 (Ok "x"); Tick 0; Response 0 (Ok Js.Null)].

(** The server reports on the document and the client is shut down
    (call 5). *)
Definition closing : list Event :=
  [PublishDiagnostics report;
   Call Shutdown; Response 5 (Ok Js.Null); Written 5 (Ok ())].

(** Diagnostics are asked for [b.ts] (call 5), of which the server has
    reported nothing. *)
Definition asking : list Event :=
  [Call (GetDiagnostics "b.ts"); Tick 5; ReadFile 5 (Ok "y")].

Definition hovered : World := run fresh_client (handshake ++ hover).
Definition shut_down : World := run fresh_client (handshake ++ hover ++ closing).
Definition asked : World := run fresh_client (handshake ++ hover ++ asking).

(** The call for [b.ts] waits (timer 6). *)
Definition waiting : World :=
  run fresh_client (handshake ++ hover ++ asking ++ [Tick 5]).


(** The handshake, fulfilled. *)
Definition fulfilled : Handshake :=
  {| hs_child := 1; hs_connection := 2; timeoutHandle := 4;
     errorListener := true; state := Fulfilled capabilities |}.


Definition silence : PublishDiagnosticsParams :=
  {| diag_uri := "file:///ws/b.ts"; diag_diagnostics := [] |}.

End Scenario.

(** ** More concrete runs *)
Module Runs.
Import Protocol Lsp Scenario.

(** A hover on a path outside the workspace (call 5) has been called. *)
Definition escaping : World :=
  run fresh_client (handshake ++ hover ++ [Call (GetHover "../x.ts" position)]).

(** The handshake times out (timer 4). *)
Definition timed_out : World :=
  run fresh_client [Call (GetHover "a.ts" position); Fire 4].

Definition rejected : Handshake :=
  {| hs_child := 1; hs_connection := 2; timeoutHandle := 4;
     errorListener := true;
     state := Rejected "Timed out after 10000ms waiting for LSP initialize response" |}.

(** The handshake is under way. *)
Definition racing_world : World :=
  run fresh_client [Call (GetHover "a.ts" position)].

Definition racing : Handshake :=
  {| hs_child := 1; hs_connection := 2; timeoutHandle := 4;
     errorListener := true; state := Racing |}.


(** Two shutdowns (calls 5 and 6) have sent their request. *)
Definition shutting_down_twice : World :=
  run hovered [Call Shutdown; Call Shutdown].

(** A conversion of file uris that drops the scheme. *)
Definition drop_scheme (uri : string) : result string :=
  Ok (String.substring 7 (String.length uri - 7) uri).

End Runs.

(** ** Simplification of worlds *)

(** Reduces the projections of a world under its setters, and nothing of the
  finite maps. *)
Ltac wsimpl :=
  cbn [Lsp.cwd Lsp.pid Lsp.options Lsp.workspaceRoot Lsp.initializationTimeout
       Lsp.diagnosticsTimeout Lsp.child Lsp.connection Lsp.initializePromise
       Lsp.shuttingDown Lsp.openDocuments Lsp.diagnostics Lsp.diagnosticsEvents
       Lsp.handshakes Lsp.tasks Lsp.timers Lsp.spawned Lsp.sent Lsp.disposed
       Lsp.killed Lsp.logged Lsp.invoked Lsp.next Lsp.set_child Lsp.set_connection
       Lsp.set_initializePromise Lsp.set_shuttingDown Lsp.set_openDocuments
       Lsp.set_diagnostics Lsp.set_diagnosticsEvents Lsp.set_handshakes Lsp.set_tasks
       Lsp.set_timers Lsp.set_spawned Lsp.set_sent Lsp.set_disposed Lsp.set_killed
       Lsp.set_logged Lsp.set_invoked Lsp.set_next Lsp.fresh Lsp.log Lsp.send
       Lsp.setTimeout Lsp.clearTimeout Lsp.set_pc Lsp.set_state Lsp.shutdown_caught
       Lsp.operation Lsp.pc Lsp.state Lsp.hs_child Lsp.hs_connection
       Lsp.timeoutHandle Lsp.errorListener Lsp.waiter Lsp.timer Lsp.delay
       Lsp.callback Lsp.doc_uri Lsp.doc_path Lsp.doc_version Lsp.doc_text
       Lsp.diag_uri Lsp.diag_diagnostics fst snd is_ok andb orb negb fmap option_fmap option_map from_option].

Ltac wsimpl_in H :=
  cbn [Lsp.cwd Lsp.pid Lsp.options Lsp.workspaceRoot Lsp.initializationTimeout
       Lsp.diagnosticsTimeout Lsp.child Lsp.connection Lsp.initializePromise
       Lsp.shuttingDown Lsp.openDocuments Lsp.diagnostics Lsp.diagnosticsEvents
       Lsp.handshakes Lsp.tasks Lsp.timers Lsp.spawned Lsp.sent Lsp.disposed
       Lsp.killed Lsp.logged Lsp.invoked Lsp.next Lsp.set_child Lsp.set_connection
       Lsp.set_initializePromise Lsp.set_shuttingDown Lsp.set_openDocuments
       Lsp.set_diagnostics Lsp.set_diagnosticsEvents Lsp.set_handshakes Lsp.set_tasks
       Lsp.set_timers Lsp.set_spawned Lsp.set_sent Lsp.set_disposed Lsp.set_killed
       Lsp.set_logged Lsp.set_invoked Lsp.set_next Lsp.fresh Lsp.log Lsp.send
       Lsp.setTimeout Lsp.clearTimeout Lsp.set_pc Lsp.set_state Lsp.shutdown_caught
       Lsp.operation Lsp.pc Lsp.state Lsp.hs_child Lsp.hs_connection
       Lsp.timeoutHandle Lsp.errorListener Lsp.waiter Lsp.timer Lsp.delay
       Lsp.callback Lsp.doc_uri Lsp.doc_path Lsp.doc_version Lsp.doc_text
       Lsp.diag_uri Lsp.diag_diagnostics fst snd is_ok andb orb negb fmap option_fmap option_map from_option] in H.

(** * Properties *)

(** ** The path guard *)
Section PathGuard.
Import NodePath PathUtil.

Example resolve_dots :
  resolve "/home/u" ["/ws/./a//b/../c/"] = "/ws/a/c".
Proof. vm_compute. reflexivity. Qed.

Example resolve_relative_root :
  resolve "/home/u" ["ws"] = "/home/u/ws".
Proof. vm_compute. reflexivity. Qed.

Example resolve_above_root :
  resolve "/" ["/../../a"] = "/a".
Proof. vm_compute. reflexivity. Qed.

Example relative_sibling :
  relative "/" "/ws/a" "/ws/b/c" = "../b/c".
Proof. vm_compute. reflexivity. Qed.

Example relative_same : relative "/" "/ws" "/ws" = "".
Proof. vm_compute. reflexivity. Qed.

Example toAbsolutePath_inside :
  toAbsolutePath "/" "/ws" "src/a.ts" = Ok "/ws/src/a.ts".
Proof. vm_compute. reflexivity. Qed.

Example toAbsolutePath_outside :
  toAbsolutePath "/" "/ws" "../etc/passwd"
  = Throw "Resolved path /etc/passwd escapes workspace root /ws".
Proof. vm_compute. reflexivity. Qed.

Example toAbsolutePath_absolute_outside :
  is_ok (toAbsolutePath "/" "/ws" "/wsx/a.ts") = false.
Proof. vm_compute. reflexivity. Qed.

Lemma join_up_startsWith (up : list string) (down : list string) (s : string) :
  startsWith (join (map (fun _ => "..") (s :: up) ++ down)) ".." = true.
Proof.
  cbn [map app join].
  destruct (map (fun _ : string => "..") up ++ down); reflexivity.
Qed.

Lemma strip_common_below (from to down : list string) :
  strip_common from to = ([], down) → segments_below from to = true.
Proof.
  revert to. induction from as [|f from IH]; intros to H; [reflexivity|].
  destruct to as [|t to]; cbn in H; [discriminate|].
  cbn. destruct (String.eqb f t); [|discriminate].
  cbn. apply IH, H.
Qed.

(** X1. What the guard lets through lies within the resolved root. *)
Lemma toAbsolutePath_ok_within (cwd workspaceRoot inputPath candidate : string) :
  toAbsolutePath cwd workspaceRoot inputPath = Ok candidate →
  within cwd (resolve cwd [workspaceRoot]) candidate = true.
Proof.
  unfold toAbsolutePath, within, relative.
  set (root := resolve cwd [workspaceRoot]).
  set (cand := if isAbsolute inputPath then _ else _).
  destruct (strip_common _ _) as [up down] eqn:Hs.
  destruct up as [|s up].
  - intros H.
    destruct (_ || _); [discriminate|].
    injection H as <-. eapply strip_common_below, Hs.
  - rewrite join_up_startsWith. cbn. discriminate.
Qed.

End PathGuard.

(** ** Normalisation of definition results *)
Section Normalisation.
Import Protocol Locations.

Lemma of_location_not_link (l : Location) :
  isLocationLink (of_location l) = false.
Proof. reflexivity. Qed.

Lemma normalizeEntry_location (l : Location) :
  normalizeEntry (of_location l) = of_location l.
Proof. reflexivity. Qed.

Lemma nullish_range (r : Range) (v : Js.value) :
  Js.nullish (of_range r) v = of_range r.
Proof. reflexivity. Qed.

Lemma normalizeEntry_link (k : LocationLink) :
  normalizeEntry (of_location_link k) = of_location (link_location k).
Proof.
  destruct k as [origin target full selection].
  destruct origin, selection; reflexivity.
Qed.

Lemma normalizeEntry_entry (e : Location + LocationLink) :
  normalizeEntry (of_entry e) = of_location (entry_location e).
Proof.
  destruct e as [l|k]; [apply normalizeEntry_location | apply normalizeEntry_link].
Qed.

Lemma normalizeLocations_answer (a : DefinitionAnswer) :
  normalizeLocations (of_answer a) = map of_location (answer_locations a).
Proof.
  destruct a as [[]|l|es]; try reflexivity.
  cbn. rewrite !map_map. apply map_ext, normalizeEntry_entry.
Qed.

End Normalisation.

(** ** The path guard, exactly *)
Section PathGuardExact.
Import NodePath PathUtil.

Lemma startsWith_join_dots (s : string) (rest : list string) :
  startsWith (join (s :: rest)) ".." = startsWith s "..".
Proof.
  destruct rest as [|r rest]; [reflexivity|].
  change (join (s :: r :: rest)) with (s +:+ "/" +:+ join (r :: rest)).
  destruct s as [|a [|b s]].
  - reflexivity.
  - change (Ascii.eqb "." a && false = Ascii.eqb "." a && false). reflexivity.
  - change (Ascii.eqb "." a
            && (Ascii.eqb "." b && startsWith (s +:+ "/" +:+ join (r :: rest)) "")
            = Ascii.eqb "." a && (Ascii.eqb "." b && startsWith s "")).
    do 2 f_equal. destruct s; reflexivity.
Qed.

Lemma split_not_absolute (s : string) :
  Forall (λ seg, isAbsolute seg = false) (split s).
Proof.
  induction s as [|c s IH]; cbn [split].
  - constructor; [reflexivity|constructor].
  - destruct (Ascii.eqb c slash) eqn:Hc.
    + constructor; [reflexivity|exact IH].
    + destruct (split s) as [|seg rest]; constructor; try constructor.
      * cbn. exact Hc.
      * cbn. exact Hc.
      * inversion IH; assumption.
Qed.

Lemma normalize_onto_Forall (P : string → Prop) (stack segs : list string) :
  Forall P stack → Forall P segs → Forall P (normalize_onto stack segs).
Proof.
  revert stack. induction segs as [|seg segs IH]; intros stack Hst Hsegs.
  - cbn. apply Forall_rev, Hst.
  - inversion Hsegs as [|? ? Hseg Hrest]; subst. cbn [normalize_onto].
    repeat case_match; apply IH; try assumption.
    + destruct stack; [constructor|]. inversion Hst; assumption.
    + constructor; assumption.
Qed.

Lemma resolve_segments_not_absolute (cwd : string) (args : list string) :
  Forall (λ seg, isAbsolute seg = false) (resolve_segments cwd args).
Proof.
  unfold resolve_segments. apply normalize_onto_Forall; [constructor|].
  apply split_not_absolute.
Qed.

Lemma normalize_onto_nonempty (stack segs : list string) :
  Forall (λ seg, seg ≠ "") stack →
  Forall (λ seg, seg ≠ "") (normalize_onto stack segs).
Proof.
  revert stack. induction segs as [|seg segs IH]; intros stack Hst.
  - cbn. apply Forall_rev, Hst.
  - cbn [normalize_onto]. destruct (String.eqb_spec seg "") as [->|Hne];
      [apply IH, Hst|].
    repeat case_match; apply IH; try assumption.
    + destruct stack; [constructor|]. inversion Hst; assumption.
    + constructor; assumption.
Qed.

Lemma isAbsolute_join (segs : list string) :
  Forall (λ seg, isAbsolute seg = false) segs →
  Forall (λ seg, seg ≠ "") segs →
  isAbsolute (join segs) = false.
Proof.
  intros Habs Hne. destruct segs as [|s rest]; [reflexivity|].
  inversion Habs as [|? ? Hs _]; inversion Hne as [|? ? Hs' _]; subst.
  destruct rest as [|r rest]; [exact Hs|].
  change (join (s :: r :: rest)) with (s +:+ "/" +:+ join (r :: rest)).
  destruct s as [|a s]; [done|exact Hs].
Qed.

Lemma strip_common_spec (from to : list string) :
  let '(up, down) := strip_common from to in
  (up = [] ↔ segments_below from to = true)
  ∧ (up = [] → down = drop (length from) to)
  ∧ (∃ pre, to = pre ++ down).
Proof.
  revert to. induction from as [|f from IH]; intros to.
  - cbn. repeat split; try done. exists []. reflexivity.
  - destruct to as [|t to]; cbn [strip_common segments_below].
    + repeat split; try done. exists []. reflexivity.
    + destruct (String.eqb_spec f t) as [->|Hne].
      * specialize (IH to). destruct (strip_common from to) as [up down].
        destruct IH as (H1 & H2 & [pre H3]). cbn [andb length drop].
        split; [exact H1|]. split; [exact H2|].
        exists (t :: pre). rewrite H3 at 1. reflexivity.
      * cbn [andb]. repeat split; try done. exists []. reflexivity.
Qed.

(** X2. The guard lets a path through exactly when the path lies within the
    resolved root and the name of its first segment below the root does not
    start with two dots. *)
Lemma toAbsolutePath_ok_iff (cwd workspaceRoot inputPath : string) :
  let normalizedRoot := resolve cwd [workspaceRoot] in
  let candidate :=
    if isAbsolute inputPath then resolve cwd [inputPath]
    else resolve cwd [normalizedRoot; inputPath] in
  let below := drop (length (resolve_segments cwd [normalizedRoot]))
                 (resolve_segments cwd [candidate]) in
  toAbsolutePath cwd workspaceRoot inputPath
  = if within cwd normalizedRoot candidate
       && negb (match below with s :: _ => startsWith s ".." | [] => false end)
    then Ok candidate
    else Throw ("Resolved path " +:+ candidate +:+ " escapes workspace root "
                +:+ normalizedRoot).
Proof.
  intros normalizedRoot candidate below.
  unfold toAbsolutePath, within, relative. fold normalizedRoot. fold candidate.
  pose proof (strip_common_spec (resolve_segments cwd [normalizedRoot])
                (resolve_segments cwd [candidate])) as Hspec.
  destruct (strip_common _ _) as [up down].
  destruct Hspec as (Hup & Hdown & [pre Hpre]).
  destruct up as [|u up].
  - rewrite (proj1 Hup eq_refl). cbn [map app andb].
    specialize (Hdown eq_refl). fold below in Hdown. subst down.
    assert (Habs : isAbsolute (join below) = false).
    { apply isAbsolute_join.
      - pose proof (resolve_segments_not_absolute cwd [candidate]) as H.
        rewrite Hpre in H. apply Forall_app in H as [_ H]. exact H.
      - pose proof (normalize_onto_nonempty []
                      (split (resolve_join (rev [candidate] ++ [cwd]) ""))
                      (Forall_nil_2 _)) as H.
        fold (resolve_segments cwd [candidate]) in H.
        rewrite Hpre in H. apply Forall_app in H as [_ H]. exact H. }
    rewrite Habs, orb_false_r.
    destruct below as [|s rest]; [reflexivity|].
    rewrite startsWith_join_dots. destruct (startsWith s ".."); reflexivity.
  - rewrite join_up_startsWith.
    destruct (segments_below _ _); [|reflexivity].
    destruct Hup as [_ Hup]. discriminate (Hup eq_refl).
Qed.
End PathGuardExact.

(** ** Document synchronisation *)
Section Synchronisation.
Import Protocol PathUtil Lsp.


Lemma tick_after_initialize (w : World) (t p : nat) (op : Operation)
    (h : Handshake) (result : Js.value) :
  tasks w !! t = Some {| operation := op; pc := AwaitInitialize p |} →
  handshakes w !! p = Some h →
  state h = Fulfilled result →
  tick t w = after_initialize t op result w.
Proof.
  intros Ht Hp Hs. unfold tick. rewrite Ht, Hp. wsimpl. rewrite Hs. reflexivity.
Qed.

Lemma after_initialize_reads (w : World) (t : nat) (op : Operation)
    (result : Js.value) (filePath absolutePath : string) :
  filePath_of op = Some filePath →
  toAbsolutePath (cwd w) (workspaceRoot w) filePath = Ok absolutePath →
  after_initialize t op result w
  = set_pc t op (AwaitReadFile absolutePath (toFileUri absolutePath)) w.
Proof.
  intros Hf Hp. unfold after_initialize, ensureDocument_begin.
  rewrite Hf, Hp. reflexivity.
Qed.

Lemma tasks_set_pc (w : World) (t : nat) (op : Operation) (pc : Pc) :
  tasks (set_pc t op pc w) !! t = Some {| operation := op; pc := pc |}.
Proof. wsimpl. apply lookup_insert_eq. Qed.

End Synchronisation.
Section Resynchronisation.
Import Protocol PathUtil Lsp.



End Resynchronisation.

(** ** The initialization race *)
Section Race.
Import Protocol PathUtil Lsp.

(** The settled states of [start]. *)
Lemma race_success_clears_timer (w : World) (p : nat) (h : Handshake)
    (result : Js.value) :
  handshakes w !! p = Some h →
  state h = Racing →
  let w' := step w (InitializeResponse p (Ok result)) in
  timers w' !! timeoutHandle h = None
  ∧ state <$> handshakes w' !! p = Some (Acknowledging result)
  ∧ sent w' = sent w ++ [InitializedNotification].
Proof.
  intros Hp Hs w'. subst w'. cbn [step]. unfold initializeResponse.
  rewrite Hp, Hs. wsimpl. rewrite lookup_delete_eq, lookup_insert_eq. done.
Qed.

Lemma race_spawn_failure_keeps_timer (w : World) (p : nat) (h : Handshake)
    (message : string) (tm : Timer) :
  handshakes w !! p = Some h →
  state h = Racing →
  errorListener h = true →
  timers w !! timeoutHandle h = Some tm →
  let w' := step w (ChildError p message) in
  state <$> handshakes w' !! p = Some (Rejected message)
  ∧ timers w' !! timeoutHandle h = Some tm.
Proof.
  intros Hp Hs He Htm w'. subst w'. cbn [step]. unfold childError.
  rewrite Hp, He, Hs. wsimpl. rewrite lookup_insert_eq. done.
Qed.

Lemma race_timeout (w : World) (p : nat) (h : Handshake) (tm : Timer) :
  handshakes w !! p = Some h →
  state h = Racing →
  timers w !! timeoutHandle h = Some tm →
  callback tm = InitializationTimeout p →
  let w' := step w (Fire (timeoutHandle h)) in
  state <$> handshakes w' !! p
  = Some (Rejected (timeout_message (initializationTimeout w)))
  ∧ timers w' !! timeoutHandle h = None.
Proof.
  intros Hp Hs Htm Hcb w'. subst w'. cbn [step]. unfold timeout.
  rewrite Htm, Hcb. wsimpl. rewrite Hp, Hs. wsimpl.
  rewrite lookup_insert_eq, lookup_delete_eq. done.
Qed.

(** C6, at the failing input. The child fails to spawn while the race is
    open: the handshake is rejected with the spawn error and the timeout
    timer is still set. *)
Theorem spawn_failure_leaves_timer (cwd : string) (pid : Z)
    (options : TypeScriptLspClientOptions) (message : string) :
  let w := run (new_client cwd pid options)
             [Call Initialize; ChildError 3 message] in
  initializePromise w = Some 3%nat
  ∧ state <$> handshakes w !! 3%nat = Some (Rejected message)
  ∧ (timeoutHandle <$> handshakes w !! 3%nat) = Some 4%nat
  ∧ timers w !! 4%nat
    = Some {| delay := default DEFAULT_INITIALIZATION_TIMEOUT_MS
                         (initializationTimeoutMs options);
              callback := InitializationTimeout 3 |}.
Proof. vm_compute. repeat split. Qed.
End Race.

(** ** Shutdown *)
Section ShutdownProps.
Import Protocol PathUtil Lsp.

Lemma shutdown_noop (w : World) :
  connection w = None ∨ child w = None →
  step w (Call Shutdown)
  = set_pc (next w) Shutdown (Returned VVoid) (set_next (S (next w)) w).
Proof.
  intros H. cbn [step]. unfold call, fresh, shutdown_begin. wsimpl.
  destruct H as [H|H]; rewrite H; [reflexivity|].
  destruct (connection w); reflexivity.
Qed.

(** C8. Shutdown without a connection or a subprocess returns having done
    nothing. With both, it sends the shutdown request, then the exit
    notification unless the request failed, logs a failure of either
    without throwing, disposes the connection, kills the subprocess and
    leaves both fields null; a shutdown after that returns having done
    nothing. *)
Theorem shutdown_idempotent (w0 w : World) (c k : nat)
    (r1 : result Js.value) (r2 : result unit) :
  connection w0 = None ∨ child w0 = None →
  connection w = Some c →
  child w = Some k →
  let w0' := step w0 (Call Shutdown) in
  let t := next w in
  let w1 := run w [Call Shutdown; Response t r1; Written t r2] in
  let w2 := step w1 (Call Shutdown) in
  (tasks w0' !! next w0 = Some {| operation := Shutdown; pc := Returned VVoid |}
   ∧ sent w0' = sent w0 ∧ logged w0' = logged w0
   ∧ disposed w0' = disposed w0 ∧ killed w0' = killed w0
   ∧ connection w0' = connection w0 ∧ child w0' = child w0
   ∧ shuttingDown w0' = shuttingDown w0)
  ∧ (tasks w1 !! t = Some {| operation := Shutdown; pc := Returned VVoid |}
     ∧ sent w1 = sent w ++ ShutdownRequest
                   :: (if is_ok r1 then [ExitNotification] else [])
     ∧ logged w1 = logged w
                   ++ (if is_ok r1 && is_ok r2 then []
                       else [(LogWarn, "Failed to send shutdown request")])
     ∧ disposed w1 = disposed w ++ [c] ∧ killed w1 = killed w ++ [k]
     ∧ connection w1 = None ∧ child w1 = None)
  ∧ (tasks w2 !! next w1 = Some {| operation := Shutdown; pc := Returned VVoid |}
     ∧ sent w2 = sent w1 ∧ logged w2 = logged w1
     ∧ disposed w2 = disposed w1 ∧ killed w2 = killed w1
     ∧ connection w2 = None ∧ child w2 = None).
Proof.
  intros H0 Hc Hk w0' t w1 w2.
  assert (H1 : connection w1 = None ∧ child w1 = None
               ∧ tasks w1 !! t = Some {| operation := Shutdown; pc := Returned VVoid |}
               ∧ sent w1 = sent w ++ ShutdownRequest
                             :: (if is_ok r1 then [ExitNotification] else [])
               ∧ logged w1 = logged w
                             ++ (if is_ok r1 && is_ok r2 then []
                                 else [(LogWarn, "Failed to send shutdown request")])
               ∧ disposed w1 = disposed w ++ [c] ∧ killed w1 = killed w ++ [k]).
  { subst w1 t. cbn [run foldl step]. unfold call, fresh, shutdown_begin. wsimpl.
    rewrite Hc, Hk. wsimpl. unfold response. wsimpl. rewrite lookup_insert_eq. wsimpl.
    destruct r1 as [v|e]; wsimpl.
    - rewrite Hc. unfold written. wsimpl. rewrite lookup_insert_eq. wsimpl.
      destruct r2 as [[]|e]; wsimpl; unfold shutdown_finish; wsimpl; rewrite Hc; wsimpl;
        rewrite Hk; wsimpl; rewrite ?lookup_insert_eq, ?app_nil_r, <- ?app_assoc; done.
    - unfold shutdown_finish. wsimpl. rewrite Hc. wsimpl. rewrite Hk. wsimpl.
      unfold written. wsimpl. rewrite lookup_insert_eq. wsimpl.
      rewrite ?lookup_insert_eq, <- ?app_assoc. done. }
  destruct H1 as (Hc1 & Hk1 & Ht1 & Hs1 & Hl1 & Hd1 & Hkl1).
  split; [|split].
  - subst w0'. rewrite (shutdown_noop w0 H0). wsimpl. rewrite lookup_insert_eq. done.
  - done.
  - subst w2. rewrite (shutdown_noop w1 (or_introl Hc1)). wsimpl.
    rewrite lookup_insert_eq. done.
Qed.
End ShutdownProps.

(** ** Operations after a shutdown *)
Section AfterShutdown.
Import Protocol PathUtil Lsp.

Lemma initialize_memoized (w : World) (p : nat) :
  initializePromise w = Some p → initialize w = (p, w).
Proof. intros H. unfold initialize. rewrite H. reflexivity. Qed.

Lemma call_operation (w : World) (p : nat) (op : Operation) :
  initializePromise w = Some p →
  op ≠ Shutdown →
  step w (Call op)
  = set_pc (next w) op (AwaitInitialize p) (set_next (S (next w)) w).
Proof.
  intros Hp Hop. cbn [step]. unfold call, fresh.
  rewrite (initialize_memoized _ p) by exact Hp.
  destruct op; try reflexivity. contradiction.
Qed.

Lemma filePath_of_not_shutdown (op : Operation) (filePath : string) :
  filePath_of op = Some filePath → op ≠ Shutdown.
Proof. intros H ->. discriminate. Qed.

Lemma readFile_resume (w : World) (t : nat) (op : Operation)
    (absolutePath uri text : string) :
  tasks w !! t = Some {| operation := op; pc := AwaitReadFile absolutePath uri |} →
  readFile t (Ok text) w
  = match ensureDocument_resume absolutePath uri text w with
    | (Ok (_, identifier), w) => set_pc t op (AwaitEnsureDocument identifier) w
    | (Throw e, w) => set_pc t op (Thrown e) w
    end.
Proof. intros Ht. unfold readFile. rewrite Ht. reflexivity. Qed.

Lemma tick_after_ensureDocument (w : World) (t : nat) (op : Operation)
    (uri : string) :
  tasks w !! t = Some {| operation := op; pc := AwaitEnsureDocument uri |} →
  tick t w = after_ensureDocument t op uri w.
Proof. intros Ht. unfold tick. rewrite Ht. reflexivity. Qed.

Lemma tick_settled (w : World) (t : nat) (op : Operation) (e : string) :
  tasks w !! t = Some {| operation := op; pc := Thrown e |} →
  tick t w = w.
Proof. intros Ht. unfold tick. rewrite Ht. reflexivity. Qed.

(** Without a connection, synchronisation succeeds only when there is
    nothing to send. *)
Lemma ensureDocument_resume_closed (w : World) (absolutePath uri text : string) :
  connection w = None →
  ensureDocument_resume absolutePath uri text w
  = match openDocuments w !! uri with
    | Some existing =>
        if String.eqb (doc_text existing) text then (Ok (existing, uri), w)
        else (Throw "LSP connection has not been initialized", w)
    | None => (Throw "LSP connection has not been initialized", w)
    end.
Proof.
  intros Hc. unfold ensureDocument_resume, assertConnection. rewrite Hc.
  destruct (openDocuments w !! uri) as [existing|]; [|reflexivity].
  destruct (String.eqb (doc_text existing) text); reflexivity.
Qed.

Lemma set_listeners_eq (uri : string) (ls : list Listener) (w : World) :
  set_listeners uri ls w
  = set_diagnosticsEvents
      (match ls with
       | [] => delete uri (diagnosticsEvents w)
       | _ => <[uri := ls]> (diagnosticsEvents w)
       end) w.
Proof. destruct ls; reflexivity. Qed.

Lemma after_ensureDocument_closed (w : World) (t : nat) (op : Operation)
    (filePath uri : string) :
  filePath_of op = Some filePath →
  op ≠ GetDiagnostics filePath →
  connection w = None →
  after_ensureDocument t op uri w
  = set_pc t op (Thrown "LSP connection has not been initialized") w.
Proof.
  intros Hf Hop Hc. unfold after_ensureDocument, assertConnection. rewrite Hc.
  destruct op; cbn in Hf; try discriminate; try reflexivity.
  injection Hf as ->. contradiction.
Qed.

Lemma after_ensureDocument_diagnostics (w : World) (t : nat) (filePath uri : string) :
  after_ensureDocument t (GetDiagnostics filePath) uri w
  = match diagnostics w !! uri with
    | Some cached =>
        set_pc t (GetDiagnostics filePath) (Returned (VDiagnostics cached)) w
    | None =>
        let tm := next w in
        set_pc t (GetDiagnostics filePath) AwaitDiagnostics
          (once uri {| waiter := t; timer := tm |}
             (set_timers
                (<[tm := {| delay := diagnosticsTimeout w;
                            callback := DiagnosticsTimeout uri t |}]> (timers w))
                (set_next (S tm) w)))
    end.
Proof. reflexivity. Qed.

Lemma diagnostics_or_request (op : Operation) (filePath : string) :
  filePath_of op = Some filePath →
  op = GetDiagnostics filePath ∨ op ≠ GetDiagnostics filePath.
Proof.
  destruct op; cbn; intros H; try (right; discriminate).
  left. congruence.
Qed.

(** C10, amended. After a shutdown of an initialized client, an operation on
    a readable path inside the workspace finds the memoised handshake
    fulfilled, starts none and sends nothing. Hover, definition, references
    and document symbols throw "LSP connection has not been initialized",
    and so does any operation on a document that is not open or whose
    content has changed. Diagnostics on an open, unchanged document do not
    throw: they return the cached report, or wait when there is none. *)
Theorem after_shutdown_operations (w : World) (p : nat) (h : Handshake)
    (result : Js.value) (op : Operation) (filePath absolutePath text : string) :
  initializePromise w = Some p →
  handshakes w !! p = Some h →
  state h = Fulfilled result →
  connection w = None →
  filePath_of op = Some filePath →
  toAbsolutePath (cwd w) (workspaceRoot w) filePath = Ok absolutePath →
  let t := next w in
  let uri := toFileUri absolutePath in
  let w' := run w [Call op; Tick t; ReadFile t (Ok text); Tick t] in
  let rejected :=
    tasks w' !! t
    = Some {| operation := op;
              pc := Thrown "LSP connection has not been initialized" |} in
  (sent w' = sent w ∧ spawned w' = spawned w ∧ handshakes w' = handshakes w
   ∧ initializePromise w' = Some p)
  ∧ (op ≠ GetDiagnostics filePath → rejected)
  ∧ (doc_text <$> openDocuments w !! uri ≠ Some text → rejected)
  ∧ (op = GetDiagnostics filePath →
     doc_text <$> openDocuments w !! uri = Some text →
     tasks w' !! t
     = Some {| operation := op;
               pc := match diagnostics w !! uri with
                     | Some cached => Returned (VDiagnostics cached)
                     | None => AwaitDiagnostics
                     end |}).
Proof.
  intros Hp Hh Hs Hc Hf Habs t uri w' rejected. subst rejected w'.
  cbn [run foldl].
  rewrite (call_operation w p op Hp (filePath_of_not_shutdown _ _ Hf)).
  fold t. set (w1 := set_pc t op (AwaitInitialize p) (set_next (S t) w)).
  cbn [step].
  rewrite (tick_after_initialize w1 t p op h result (tasks_set_pc _ _ _ _) Hh Hs).
  rewrite (after_initialize_reads w1 t op result filePath absolutePath Hf Habs).
  fold uri. subst w1.
  rewrite (readFile_resume _ t op absolutePath uri text (tasks_set_pc _ _ _ _)).
  rewrite ensureDocument_resume_closed by exact Hc.
  change (openDocuments (set_pc _ _ _ _)) with (openDocuments w).
  destruct (openDocuments w !! uri) as [existing|] eqn:Hdoc;
    cbn [fmap option_fmap option_map].
  2:{ rewrite (tick_settled _ t op _ (tasks_set_pc _ _ _ _)).
      rewrite tasks_set_pc. repeat split; try congruence. exact Hp. }
  destruct (String.eqb_spec (doc_text existing) text) as [Heq|Hne].
  2:{ rewrite (tick_settled _ t op _ (tasks_set_pc _ _ _ _)).
      rewrite tasks_set_pc. repeat split; try congruence. exact Hp. }
  rewrite (tick_after_ensureDocument _ t op uri (tasks_set_pc _ _ _ _)).
  destruct (diagnostics_or_request op filePath Hf) as [->|Hop].
  - rewrite after_ensureDocument_diagnostics.
    change (diagnostics (set_pc _ _ _ _)) with (diagnostics w).
    destruct (diagnostics w !! uri) as [cached|].
    + rewrite tasks_set_pc. repeat split; try congruence. exact Hp.
    + cbv zeta. rewrite tasks_set_pc. unfold once. rewrite set_listeners_eq.
      repeat split; try congruence. exact Hp.
  - rewrite (after_ensureDocument_closed _ t op filePath uri Hf Hop) by exact Hc.
    rewrite tasks_set_pc. repeat split; try congruence. exact Hp.
Qed.
End AfterShutdown.

(** ** The memo of initialize *)
Section Memo.
Import Protocol PathUtil Lsp.

Lemma memo_inv_frame (w w' : World) :
  initializePromise w' = initializePromise w →
  handshakes w' = handshakes w →
  spawned w' = spawned w →
  tasks w' = tasks w →
  memo_inv w → memo_inv w'.
Proof.
  unfold memo_inv. intros -> -> -> ->. done.
Qed.

Lemma task_ok_at_handshakes (po : option nat) (hs hs' : gmap nat Handshake)
    (task : Task) :
  (∀ p h, hs !! p = Some h → settled_state (state h) →
          ∃ h', hs' !! p = Some h' ∧ state h' = state h) →
  task_ok_at po hs task → task_ok_at po hs' task.
Proof.
  intros Hmono. unfold task_ok_at.
  destruct (pc task) eqn:Hpc; try done.
  - intros H Hop. destruct (H Hop) as (p & h & Hpo & Hh & Hout).
    destruct (Hmono p h Hh) as (h' & Hh' & Hst).
    { destruct (state h); try done. }
    exists p, h'. rewrite Hst. done.
  - intros H Hop. destruct (H Hop) as (p & h & Hpo & Hh & Hout).
    destruct (Hmono p h Hh) as (h' & Hh' & Hst).
    { destruct (state h); try done. }
    exists p, h'. rewrite Hst. done.
Qed.

Lemma memo_inv_set_pc (w : World) (t : nat) (op : Operation) (pc : Pc) :
  memo_inv w →
  task_ok_at (initializePromise w) (handshakes w) {| operation := op; pc := pc |} →
  memo_inv (set_pc t op pc w).
Proof.
  intros [H1 H2] Hok. split; [exact H1|].
  intros t' task. wsimpl. rewrite lookup_insert.
  case_decide as Ht.
  - intros [= <-]. exact Hok.
  - apply H2.
Qed.

Lemma memo_inv_set_handshake (w : World) (p : nat) (h h' : Handshake) :
  memo_inv w →
  handshakes w !! p = Some h →
  (settled_state (state h) → state h' = state h) →
  memo_inv (set_handshakes (<[p := h']> (handshakes w)) w).
Proof.
  intros [H1 H2] Hh Hst. split.
  - wsimpl. destruct (initializePromise w) as [q|].
    + destruct H1 as [Hlen [h0 Hhs]]. split; [exact Hlen|].
      rewrite Hhs in Hh. apply lookup_singleton_Some in Hh as [-> ->].
      exists h'. rewrite Hhs. apply insert_singleton_eq.
    + destruct H1 as [_ Hhs]. rewrite Hhs in Hh. rewrite lookup_empty in Hh. done.
  - intros t task Ht. wsimpl.
    eapply task_ok_at_handshakes; [|exact (H2 t task Ht)].
    intros q h0 Hq Hset. destruct (decide (p = q)) as [->|Hne].
    + rewrite Hh in Hq. injection Hq as <-. exists h'.
      rewrite lookup_insert_eq. split; [done|]. apply Hst, Hset.
    + exists h0. rewrite lookup_insert_ne by done. done.
Qed.

(** Calls that are not callers of [initialize] are consistent in any state
    but the wait for the memo. *)
Lemma task_ok_at_other (po : option nat) (hs : gmap nat Handshake)
    (op : Operation) (pc : Pc) :
  op ≠ Initialize →
  (∀ q, pc ≠ AwaitInitialize q) →
  task_ok_at po hs {| operation := op; pc := pc |}.
Proof.
  intros Hop Hpc. unfold task_ok_at. wsimpl. destruct pc; try done.
  exfalso. eapply Hpc. reflexivity.
Qed.

Lemma memo_inv_new (cwd : string) (pid : Z) (options : TypeScriptLspClientOptions) :
  memo_inv (new_client cwd pid options).
Proof.
  split; [done|]. intros t task. cbn [tasks new_client].
  rewrite lookup_empty. done.
Qed.

Lemma memo_inv_start (w : World) :
  initializePromise w = None →
  memo_inv w →
  memo_inv (set_initializePromise (Some (fst (start w))) (snd (start w))).
Proof.
  intros Hnone [H1 H2]. rewrite Hnone in H1. destruct H1 as [Hsp Hhs].
  split.
  - unfold start. wsimpl. rewrite Hsp, Hhs. split; [reflexivity|].
    eexists. reflexivity.
  - intros t task Ht. unfold start in Ht. wsimpl_in Ht.
    specialize (H2 t task Ht). rewrite Hnone, Hhs in H2.
    unfold task_ok_at in *. destruct (pc task); try done.
    + intros Hop. destruct (H2 Hop) as (p & h & Hpo & _). done.
    + intros Hop. destruct (H2 Hop) as (p & h & Hpo & _). done.
Qed.

Lemma memo_inv_initialize (w : World) :
  memo_inv w →
  memo_inv (snd (initialize w))
  ∧ initializePromise (snd (initialize w)) = Some (fst (initialize w)).
Proof.
  intros Hinv. unfold initialize.
  destruct (initializePromise w) as [p|] eqn:Hp; [done|].
  destruct (start w) as [p w1] eqn:Hstart. wsimpl.
  split; [|reflexivity].
  pose proof (memo_inv_start w Hp Hinv) as H. rewrite Hstart in H. exact H.
Qed.
End Memo.

Section MemoFrames.
Import Protocol PathUtil Lsp.

Lemma memo_inv_set_child v (w : World) : memo_inv w → memo_inv (set_child v w).
Proof. apply memo_inv_frame; reflexivity. Qed.
Lemma memo_inv_set_connection v (w : World) : memo_inv w → memo_inv (set_connection v w).
Proof. apply memo_inv_frame; reflexivity. Qed.
Lemma memo_inv_set_shuttingDown v (w : World) : memo_inv w → memo_inv (set_shuttingDown v w).
Proof. apply memo_inv_frame; reflexivity. Qed.
Lemma memo_inv_set_openDocuments v (w : World) : memo_inv w → memo_inv (set_openDocuments v w).
Proof. apply memo_inv_frame; reflexivity. Qed.
Lemma memo_inv_set_diagnostics v (w : World) : memo_inv w → memo_inv (set_diagnostics v w).
Proof. apply memo_inv_frame; reflexivity. Qed.
Lemma memo_inv_set_diagnosticsEvents v (w : World) : memo_inv w → memo_inv (set_diagnosticsEvents v w).
Proof. apply memo_inv_frame; reflexivity. Qed.
Lemma memo_inv_set_timers v (w : World) : memo_inv w → memo_inv (set_timers v w).
Proof. apply memo_inv_frame; reflexivity. Qed.
Lemma memo_inv_set_sent v (w : World) : memo_inv w → memo_inv (set_sent v w).
Proof. apply memo_inv_frame; reflexivity. Qed.
Lemma memo_inv_set_disposed v (w : World) : memo_inv w → memo_inv (set_disposed v w).
Proof. apply memo_inv_frame; reflexivity. Qed.
Lemma memo_inv_set_killed v (w : World) : memo_inv w → memo_inv (set_killed v w).
Proof. apply memo_inv_frame; reflexivity. Qed.
Lemma memo_inv_set_logged v (w : World) : memo_inv w → memo_inv (set_logged v w).
Proof. apply memo_inv_frame; reflexivity. Qed.
Lemma memo_inv_set_invoked v (w : World) : memo_inv w → memo_inv (set_invoked v w).
Proof. apply memo_inv_frame; reflexivity. Qed.
Lemma memo_inv_set_next v (w : World) : memo_inv w → memo_inv (set_next v w).
Proof. apply memo_inv_frame; reflexivity. Qed.

Lemma memo_inv_send (m : Outgoing) (w : World) : memo_inv w → memo_inv (send m w).
Proof. apply memo_inv_frame; reflexivity. Qed.
Lemma memo_inv_log (l : LogLevel) (s : string) (w : World) :
  memo_inv w → memo_inv (log l s w).
Proof. apply memo_inv_frame; reflexivity. Qed.
Lemma memo_inv_clearTimeout (id : nat) (w : World) :
  memo_inv w → memo_inv (clearTimeout id w).
Proof. apply memo_inv_frame; reflexivity. Qed.
Lemma memo_inv_set_listeners (uri : string) (ls : list Listener) (w : World) :
  memo_inv w → memo_inv (set_listeners uri ls w).
Proof. rewrite set_listeners_eq. apply memo_inv_frame; reflexivity. Qed.
Lemma memo_inv_once (uri : string) (l : Listener) (w : World) :
  memo_inv w → memo_inv (once uri l w).
Proof. apply memo_inv_set_listeners. Qed.
Lemma memo_inv_off (uri : string) (t : nat) (w : World) :
  memo_inv w → memo_inv (off uri t w).
Proof.
  unfold off. destruct (diagnosticsEvents w !! uri); [|done].
  apply memo_inv_set_listeners.
Qed.
End MemoFrames.

Create HintDb memo discriminated.
#[local] Hint Resolve

memo_inv_set_child memo_inv_set_connection memo_inv_set_shuttingDown memo_inv_set_openDocuments memo_inv_set_diagnostics memo_inv_set_diagnosticsEvents
memo_inv_set_timers memo_inv_set_sent memo_inv_set_disposed memo_inv_set_killed memo_inv_set_logged memo_inv_set_invoked
memo_inv_set_next memo_inv_send memo_inv_log memo_inv_clearTimeout memo_inv_set_listeners memo_inv_once memo_inv_off memo_inv_set_pc : memo.

Section MemoSteps.
Import Protocol PathUtil Lsp.

Lemma memo_inv_task (w : World) (t : nat) (task : Task) :
  memo_inv w → tasks w !! t = Some task →
  task_ok_at (initializePromise w) (handshakes w) task.
Proof. intros [_ H]. apply H. Qed.

(** A call that is past the wait for the memo does not belong to a caller
    of [initialize]. *)
Lemma memo_inv_not_initialize (w : World) (t : nat) (op : Operation) (pc : Pc) :
  memo_inv w →
  tasks w !! t = Some {| operation := op; pc := pc |} →
  ¬ settled pc → (∀ q, pc ≠ AwaitInitialize q) →
  op ≠ Initialize.
Proof.
  intros Hinv Ht Hns Hna. pose proof (memo_inv_task w t _ Hinv Ht) as Hok.
  unfold task_ok_at in Hok. wsimpl_in Hok.
  destruct pc; try done. exfalso. eapply Hna. reflexivity.
Qed.

Lemma memo_inv_resolve (w : World) (t : nat) (v : Value) :
  memo_inv w → memo_inv (resolve t v w).
Proof.
  intros Hinv. unfold resolve.
  destruct (tasks w !! t) as [[op []]|] eqn:Ht; try done.
  apply memo_inv_set_pc; [done|].
  apply task_ok_at_other; [|done].
  eapply memo_inv_not_initialize; eauto; done.
Qed.

Lemma memo_inv_handler (l : Listener) (params : PublishDiagnosticsParams)
    (w : World) :
  memo_inv w → memo_inv (handler l params w).
Proof.
  intros Hinv. unfold handler. apply memo_inv_resolve. auto with memo.
Qed.

Lemma memo_inv_emit (uri : string) (params : PublishDiagnosticsParams) (w : World) :
  memo_inv w → memo_inv (emit uri params w).
Proof.
  intros Hinv. unfold emit.
  generalize (listeners w uri). intros ls.
  assert (H : memo_inv (set_listeners uri [] w)) by auto with memo.
  revert H. generalize (set_listeners uri [] w).
  induction ls as [|l ls IH]; intros w0 H0; [exact H0|].
  cbn [foldl]. apply IH, memo_inv_handler, H0.
Qed.

Lemma memo_inv_shutdown_finish (t : nat) (w : World) :
  memo_inv w → memo_inv (shutdown_finish t w).
Proof.
  intros Hinv. unfold shutdown_finish.
  destruct (connection w); [|apply memo_inv_set_pc; [done|by apply task_ok_at_other]].
  wsimpl.
  destruct (child w); apply memo_inv_set_pc; auto with memo;
    by apply task_ok_at_other.
Qed.

Lemma memo_inv_call (op : Operation) (w : World) :
  memo_inv w → memo_inv (call op w).
Proof.
  intros Hinv. unfold call. wsimpl.
  assert (Hn : memo_inv (set_next (S (next w)) w)) by auto with memo.
  revert Hn. generalize (set_next (S (next w)) w). intros w1 H1.
  assert (Hother :
    memo_inv (let '(p, w2) := initialize w1 in
              set_pc (next w) op (AwaitInitialize p) w2)).
  { destruct (memo_inv_initialize w1 H1) as [H2 Hp].
    destruct (initialize w1) as [p w2]. wsimpl_in Hp.
    apply memo_inv_set_pc; [exact H2|]. exact Hp. }
  destruct op; try exact Hother.
  unfold shutdown_begin.
  destruct (connection w1), (child w1);
    apply memo_inv_set_pc; auto with memo; by apply task_ok_at_other.
Qed.

Lemma memo_inv_after_initialize (t p : nat) (op : Operation) (h : Handshake)
    (result : Js.value) (w : World) :
  memo_inv w →
  initializePromise w = Some p →
  handshakes w !! p = Some h →
  state h = Fulfilled result →
  memo_inv (after_initialize t op result w).
Proof.
  intros Hinv Hp Hh Hs. unfold after_initialize.
  destruct (filePath_of op) as [f|] eqn:Hf.
  - assert (Hop : op ≠ Initialize) by (intros ->; discriminate).
    destruct (ensureDocument_begin w f) as [[a u]|e];
      apply memo_inv_set_pc; try done; by apply task_ok_at_other.
  - destruct op; try done.
    apply memo_inv_set_pc; [done|].
    intros _. exists p, h. rewrite Hs. done.
Qed.

Lemma memo_inv_after_ensureDocument (t : nat) (op : Operation) (uri : string)
    (w : World) :
  memo_inv w → op ≠ Initialize →
  memo_inv (after_ensureDocument t op uri w).
Proof.
  intros Hinv Hop. unfold after_ensureDocument.
  assert (Hreq : memo_inv
    match request_of op uri with
    | Some m =>
        match assertConnection w with
        | Ok _ => set_pc t op AwaitResponse (send m w)
        | Throw e => set_pc t op (Thrown e) w
        end
    | None => w
    end).
  { destruct (request_of op uri); [|done].
    destruct (assertConnection w);
      apply memo_inv_set_pc; auto with memo; by apply task_ok_at_other. }
  destruct op; try exact Hreq.
  destruct (diagnostics w !! uri).
  - apply memo_inv_set_pc; [done|]. by apply task_ok_at_other.
  - wsimpl. apply memo_inv_set_pc; [auto with memo|]. by apply task_ok_at_other.
Qed.

Lemma memo_inv_tick (t : nat) (w : World) : memo_inv w → memo_inv (tick t w).
Proof.
  intros Hinv. unfold tick.
  destruct (tasks w !! t) as [[op pc]|] eqn:Ht; [|done].
  pose proof (memo_inv_task w t _ Hinv Ht) as Hok.
  destruct pc as [q|a u|u| | | | |v|e0]; try done.
  - unfold task_ok_at in Hok. wsimpl_in Hok.
    destruct (handshakes w !! q) as [h|] eqn:Hh; [|done]. wsimpl.
    destruct (state h) eqn:Hs; try done.
    + eapply memo_inv_after_initialize; eauto.
    + apply memo_inv_set_pc; [done|].
      intros _. exists q, h. rewrite Hs. done.
  - apply memo_inv_after_ensureDocument; [done|].
    eapply memo_inv_not_initialize; eauto; done.
Qed.

Lemma memo_inv_ensureDocument_resume (absolutePath uri text : string) (w : World) :
  memo_inv w → memo_inv (snd (ensureDocument_resume absolutePath uri text w)).
Proof.
  intros Hinv. unfold ensureDocument_resume.
  destruct (openDocuments w !! uri) as [existing|].
  - destruct (negb _); [|done].
    destruct (assertConnection w); wsimpl; auto with memo.
  - destruct (assertConnection w); wsimpl; auto with memo.
Qed.

Lemma memo_inv_readFile (t : nat) (r : result string) (w : World) :
  memo_inv w → memo_inv (readFile t r w).
Proof.
  intros Hinv. unfold readFile.
  destruct (tasks w !! t) as [[op pc]|] eqn:Ht; [|done].
  destruct pc as [q|a u|u| | | | |v|e0]; try done.
  assert (Hop : op ≠ Initialize).
  { eapply memo_inv_not_initialize; eauto; done. }
  destruct r as [text|e].
  - pose proof (memo_inv_ensureDocument_resume a u text w Hinv) as H.
    destruct (ensureDocument_resume a u text w) as [[[s i]|e] w1];
      wsimpl_in H; apply memo_inv_set_pc; try done; by apply task_ok_at_other.
  - apply memo_inv_set_pc; [done|]. by apply task_ok_at_other.
Qed.

Lemma memo_inv_response (t : nat) (r : result Js.value) (w : World) :
  memo_inv w → memo_inv (response t r w).
Proof.
  intros Hinv. unfold response.
  destruct (tasks w !! t) as [[op pc]|] eqn:Ht; [|done].
  destruct pc; try (destruct op; done).
  - assert (Hop : op ≠ Initialize).
    { eapply memo_inv_not_initialize; eauto; done. }
    destruct r; destruct op; try done;
      apply memo_inv_set_pc; try done; by apply task_ok_at_other.
  - destruct op; try done.
    destruct r; [destruct (connection w)|].
    + apply memo_inv_set_pc; auto with memo. by apply task_ok_at_other.
    + apply memo_inv_shutdown_finish. unfold shutdown_caught. auto with memo.
    + apply memo_inv_shutdown_finish. unfold shutdown_caught. auto with memo.
Qed.

Lemma memo_inv_written (t : nat) (r : result unit) (w : World) :
  memo_inv w → memo_inv (written t r w).
Proof.
  intros Hinv. unfold written.
  destruct (tasks w !! t) as [[op pc]|] eqn:Ht; [|done].
  destruct op; try done. destruct pc; try done.
  destruct r; apply memo_inv_shutdown_finish; unfold shutdown_caught;
    auto with memo.
Qed.

Lemma memo_inv_set_state (p : nat) (h : Handshake) (s : StartState) (w : World) :
  memo_inv w →
  handshakes w !! p = Some h →
  ¬ settled_state (state h) →
  memo_inv (set_state p h s w).
Proof.
  intros Hinv Hh Hns. unfold set_state.
  eapply memo_inv_set_handshake; [done|exact Hh|]. intros Hset. done.
Qed.

Lemma memo_inv_initializeResponse (p : nat) (r : result Js.value) (w : World) :
  memo_inv w → memo_inv (initializeResponse p r w).
Proof.
  intros Hinv. unfold initializeResponse.
  destruct (handshakes w !! p) as [h|] eqn:Hh; [|done].
  destruct (state h) eqn:Hs; try done.
  destruct r.
  - apply memo_inv_set_state; [auto with memo|exact Hh|rewrite Hs; exact (fun F => F)].
  - apply memo_inv_set_state; [auto with memo|exact Hh|rewrite Hs; exact (fun F => F)].
Qed.

Lemma memo_inv_initializedWritten (p : nat) (r : result unit) (w : World) :
  memo_inv w → memo_inv (initializedWritten p r w).
Proof.
  intros Hinv. unfold initializedWritten.
  destruct (handshakes w !! p) as [h|] eqn:Hh; [|done].
  destruct (state h) eqn:Hs; try done.
  destruct r.
  - apply memo_inv_set_state; [auto with memo|exact Hh|rewrite Hs; exact (fun F => F)].
  - apply memo_inv_set_state; [auto with memo|exact Hh|rewrite Hs; exact (fun F => F)].
Qed.

Lemma memo_inv_childError (p : nat) (message : string) (w : World) :
  memo_inv w → memo_inv (childError p message w).
Proof.
  intros Hinv. unfold childError.
  destruct (handshakes w !! p) as [h|] eqn:Hh; [|done].
  destruct (errorListener h); [|done].
  eapply (memo_inv_set_handshake (log _ _ w)); [auto with memo|exact Hh|].
  wsimpl. destruct (state h); done.
Qed.

Lemma memo_inv_childExit (p : nat) (w : World) :
  memo_inv w → memo_inv (childExit p w).
Proof.
  intros Hinv. unfold childExit.
  destruct (handshakes w !! p); [|done].
  destruct (shuttingDown w); auto with memo.
Qed.

Lemma memo_inv_timeout (id : nat) (w : World) :
  memo_inv w → memo_inv (timeout id w).
Proof.
  intros Hinv. unfold timeout.
  destruct (timers w !! id) as [tm|]; [|done].
  destruct (callback tm) as [p|uri t].
  - wsimpl. destruct (handshakes w !! p) as [h|] eqn:Hh; [|auto with memo].
    destruct (state h) eqn:Hs; auto with memo.
    apply memo_inv_set_state; [auto with memo|exact Hh|rewrite Hs; exact (fun F => F)].
  - apply memo_inv_resolve. auto with memo.
Qed.

Lemma memo_inv_publishDiagnostics (params : PublishDiagnosticsParams) (w : World) :
  memo_inv w → memo_inv (publishDiagnostics params w).
Proof.
  intros Hinv. unfold publishDiagnostics, handleDiagnostics.
  destruct (connection w); [|done].
  apply memo_inv_emit. auto with memo.
Qed.

Lemma memo_inv_step (w : World) (e : Event) : memo_inv w → memo_inv (step w e).
Proof.
  intros Hinv. destruct e; cbn [step].
  - by apply memo_inv_call.
  - by apply memo_inv_tick.
  - by apply memo_inv_readFile.
  - by apply memo_inv_response.
  - by apply memo_inv_written.
  - by apply memo_inv_initializeResponse.
  - by apply memo_inv_initializedWritten.
  - by apply memo_inv_childError.
  - by apply memo_inv_childExit.
  - by apply memo_inv_timeout.
  - by apply memo_inv_publishDiagnostics.
Qed.

Lemma run_snoc (w : World) (es : list Event) (e : Event) :
  run w (es ++ [e]) = step (run w es) e.
Proof. unfold run. rewrite foldl_app. reflexivity. Qed.

Lemma run_app (w : World) (es es' : list Event) :
  run w (es ++ es') = run (run w es) es'.
Proof. unfold run. apply foldl_app. Qed.

Lemma memo_inv_run (w : World) (es : list Event) : memo_inv w → memo_inv (run w es).
Proof.
  revert w. induction es as [|e es IH]; intros w Hinv; [exact Hinv|].
  cbn [run foldl]. apply IH, memo_inv_step, Hinv.
Qed.
End MemoSteps.

(** ** The memo and the settled handshakes are kept *)
Section Keeps.
Import Protocol PathUtil Lsp.

Lemma keeps_refl (w : World) : keeps w w.
Proof. split; [done|]. intros _ p h Hh. exists h. done. Qed.

Lemma keeps_frame (w0 w w' : World) :
  initializePromise w' = initializePromise w →
  handshakes w' = handshakes w →
  keeps w0 w → keeps w0 w'.
Proof. unfold keeps. intros -> ->. done. Qed.

Lemma keeps_set_handshake (w0 w : World) (p : nat) (h h' : Handshake) :
  handshakes w !! p = Some h →
  (settled_state (state h) → state h' = state h) →
  keeps w0 w →
  keeps w0 (set_handshakes (<[p := h']> (handshakes w)) w).
Proof.
  intros Hh Hst [K1 K2]. split; [exact K1|].
  intros Hsome q h0 Hq. destruct (K2 Hsome q h0 Hq) as (h1 & Hh1 & Hs1).
  wsimpl. destruct (decide (p = q)) as [->|Hne].
  - exists h'. rewrite lookup_insert_eq. split; [done|].
    intros Hset. rewrite Hh in Hh1. injection Hh1 as <-.
    rewrite <- (Hs1 Hset). apply Hst. rewrite (Hs1 Hset). exact Hset.
  - exists h1. rewrite lookup_insert_ne by done. done.
Qed.

Lemma keeps_set_state (w0 w : World) (p : nat) (h : Handshake) (s : StartState) :
  handshakes w !! p = Some h →
  ¬ settled_state (state h) →
  keeps w0 w → keeps w0 (set_state p h s w).
Proof.
  intros Hh Hns. unfold set_state. apply keeps_set_handshake with h; [exact Hh|].
  intros Hset. contradiction.
Qed.

Lemma keeps_set_child v (w0 w : World) : keeps w0 w → keeps w0 (set_child v w).
Proof. apply keeps_frame; reflexivity. Qed.
Lemma keeps_set_connection v (w0 w : World) : keeps w0 w → keeps w0 (set_connection v w).
Proof. apply keeps_frame; reflexivity. Qed.
Lemma keeps_set_shuttingDown v (w0 w : World) : keeps w0 w → keeps w0 (set_shuttingDown v w).
Proof. apply keeps_frame; reflexivity. Qed.
Lemma keeps_set_openDocuments v (w0 w : World) : keeps w0 w → keeps w0 (set_openDocuments v w).
Proof. apply keeps_frame; reflexivity. Qed.
Lemma keeps_set_diagnostics v (w0 w : World) : keeps w0 w → keeps w0 (set_diagnostics v w).
Proof. apply keeps_frame; reflexivity. Qed.
Lemma keeps_set_diagnosticsEvents v (w0 w : World) : keeps w0 w → keeps w0 (set_diagnosticsEvents v w).
Proof. apply keeps_frame; reflexivity. Qed.
Lemma keeps_set_tasks v (w0 w : World) : keeps w0 w → keeps w0 (set_tasks v w).
Proof. apply keeps_frame; reflexivity. Qed.
Lemma keeps_set_timers v (w0 w : World) : keeps w0 w → keeps w0 (set_timers v w).
Proof. apply keeps_frame; reflexivity. Qed.
Lemma keeps_set_spawned v (w0 w : World) : keeps w0 w → keeps w0 (set_spawned v w).
Proof. apply keeps_frame; reflexivity. Qed.
Lemma keeps_set_sent v (w0 w : World) : keeps w0 w → keeps w0 (set_sent v w).
Proof. apply keeps_frame; reflexivity. Qed.
Lemma keeps_set_disposed v (w0 w : World) : keeps w0 w → keeps w0 (set_disposed v w).
Proof. apply keeps_frame; reflexivity. Qed.
Lemma keeps_set_killed v (w0 w : World) : keeps w0 w → keeps w0 (set_killed v w).
Proof. apply keeps_frame; reflexivity. Qed.
Lemma keeps_set_logged v (w0 w : World) : keeps w0 w → keeps w0 (set_logged v w).
Proof. apply keeps_frame; reflexivity. Qed.
Lemma keeps_set_invoked v (w0 w : World) : keeps w0 w → keeps w0 (set_invoked v w).
Proof. apply keeps_frame; reflexivity. Qed.
Lemma keeps_set_next v (w0 w : World) : keeps w0 w → keeps w0 (set_next v w).
Proof. apply keeps_frame; reflexivity. Qed.
Lemma keeps_send (m : Outgoing) (w0 w : World) : keeps w0 w → keeps w0 (send m w).
Proof. apply keeps_frame; reflexivity. Qed.
Lemma keeps_log (l : LogLevel) (s : string) (w0 w : World) : keeps w0 w → keeps w0 (log l s w).
Proof. apply keeps_frame; reflexivity. Qed.
Lemma keeps_clearTimeout (id : nat) (w0 w : World) : keeps w0 w → keeps w0 (clearTimeout id w).
Proof. apply keeps_frame; reflexivity. Qed.
Lemma keeps_set_pc (t : nat) (op : Operation) (pc : Pc) (w0 w : World) :
  keeps w0 w → keeps w0 (set_pc t op pc w).
Proof. apply keeps_frame; reflexivity. Qed.
Lemma keeps_resolve (t : nat) (v : Value) (w0 w : World) :
  keeps w0 w → keeps w0 (resolve t v w).
Proof.
  unfold resolve. destruct (tasks w !! t) as [[op []]|];
    first [done | apply keeps_set_pc].
Qed.
Lemma keeps_set_listeners (uri : string) (ls : list Listener) (w0 w : World) :
  keeps w0 w → keeps w0 (set_listeners uri ls w).
Proof. rewrite set_listeners_eq. apply keeps_frame; reflexivity. Qed.
Lemma keeps_once (uri : string) (l : Listener) (w0 w : World) :
  keeps w0 w → keeps w0 (once uri l w).
Proof. apply keeps_set_listeners. Qed.
Lemma keeps_off (uri : string) (t : nat) (w0 w : World) :
  keeps w0 w → keeps w0 (off uri t w).
Proof.
  unfold off. destruct (diagnosticsEvents w !! uri); [|done].
  apply keeps_set_listeners.
Qed.
End Keeps.

Create HintDb keeps discriminated.
#[local] Hint Resolve keeps_refl
keeps_set_child keeps_set_connection keeps_set_shuttingDown keeps_set_openDocuments
keeps_set_diagnostics keeps_set_diagnosticsEvents keeps_set_tasks keeps_set_timers
keeps_set_spawned keeps_set_sent keeps_set_disposed keeps_set_killed
keeps_set_logged keeps_set_invoked keeps_set_next keeps_send keeps_log
keeps_clearTimeout keeps_set_pc keeps_resolve keeps_set_listeners keeps_once
keeps_off : keeps.

Section KeepsSteps.
Import Protocol PathUtil Lsp.

Lemma keeps_handler (l : Listener) (params : PublishDiagnosticsParams) (w0 w : World) :
  keeps w0 w → keeps w0 (handler l params w).
Proof. intros H. unfold handler. auto with keeps. Qed.

Lemma keeps_emit (uri : string) (params : PublishDiagnosticsParams) (w0 w : World) :
  keeps w0 w → keeps w0 (emit uri params w).
Proof.
  intros H. unfold emit. generalize (listeners w uri). intros ls.
  assert (H1 : keeps w0 (set_listeners uri [] w)) by auto with keeps.
  revert H1. generalize (set_listeners uri [] w).
  induction ls as [|l ls IH]; intros w1 H1; [exact H1|].
  cbn [foldl]. apply IH, keeps_handler, H1.
Qed.

Lemma keeps_shutdown_finish (t : nat) (w0 w : World) :
  keeps w0 w → keeps w0 (shutdown_finish t w).
Proof.
  intros H. unfold shutdown_finish. destruct (connection w); [|auto with keeps].
  wsimpl. destruct (child w); auto 10 with keeps.
Qed.

Lemma keeps_start (w : World) :
  initializePromise w = None →
  keeps w (set_initializePromise (Some (fst (start w))) (snd (start w))).
Proof. intros Hnone. split; [intros p; congruence|]. intros H. contradiction. Qed.

Lemma keeps_call (op : Operation) (w : World) : keeps w (call op w).
Proof.
  unfold call. wsimpl.
  assert (Hother :
    keeps w (let '(p, w2) := initialize (set_next (S (next w)) w) in
             set_pc (next w) op (AwaitInitialize p) w2)).
  { unfold initialize.
    destruct (initializePromise (set_next (S (next w)) w)) as [p|] eqn:Hp.
    - auto with keeps.
    - pose proof (keeps_start (set_next (S (next w)) w) Hp) as H.
      destruct (start (set_next (S (next w)) w)) as [p w1].
      apply keeps_set_pc. exact H. }
  destruct op; try exact Hother.
  unfold shutdown_begin. wsimpl.
  destruct (connection w), (child w); auto 10 with keeps.
Qed.

Lemma keeps_tick (t : nat) (w : World) : keeps w (tick t w).
Proof.
  unfold tick, after_initialize, after_ensureDocument. wsimpl.
  repeat case_match; auto 10 with keeps.
Qed.

Lemma keeps_readFile (t : nat) (r : result string) (w : World) :
  keeps w (readFile t r w).
Proof.
  unfold readFile. destruct (tasks w !! t) as [[op pc]|]; [|auto with keeps].
  destruct pc as [q|a u|u| | | | |v|e0]; auto with keeps.
  destruct r as [text|e]; [|auto with keeps].
  assert (H : keeps w (snd (ensureDocument_resume a u text w))).
  { unfold ensureDocument_resume. repeat case_match; wsimpl; auto 10 with keeps. }
  destruct (ensureDocument_resume a u text w) as [[[s i]|e] w1];
    wsimpl_in H; auto with keeps.
Qed.

Lemma keeps_response (t : nat) (r : result Js.value) (w : World) :
  keeps w (response t r w).
Proof.
  unfold response. repeat case_match; unfold shutdown_caught;
    auto using keeps_shutdown_finish with keeps.
Qed.

Lemma keeps_written (t : nat) (r : result unit) (w : World) :
  keeps w (written t r w).
Proof.
  unfold written. repeat case_match; unfold shutdown_caught;
    auto using keeps_shutdown_finish with keeps.
Qed.

Lemma keeps_initializeResponse (p : nat) (r : result Js.value) (w : World) :
  keeps w (initializeResponse p r w).
Proof.
  unfold initializeResponse.
  destruct (handshakes w !! p) as [h|] eqn:Hh; [|auto with keeps].
  destruct (state h) eqn:Hs; auto with keeps.
  destruct r; (apply keeps_set_state;
               [exact Hh|rewrite Hs; exact (fun F => F)|auto with keeps]).
Qed.

Lemma keeps_initializedWritten (p : nat) (r : result unit) (w : World) :
  keeps w (initializedWritten p r w).
Proof.
  unfold initializedWritten.
  destruct (handshakes w !! p) as [h|] eqn:Hh; [|auto with keeps].
  destruct (state h) eqn:Hs; auto with keeps.
  destruct r; (apply keeps_set_state;
               [exact Hh|rewrite Hs; exact (fun F => F)|auto with keeps]).
Qed.

Lemma keeps_childError (p : nat) (message : string) (w : World) :
  keeps w (childError p message w).
Proof.
  unfold childError.
  destruct (handshakes w !! p) as [h|] eqn:Hh; [|auto with keeps].
  destruct (errorListener h); [|auto with keeps].
  apply (keeps_set_handshake w (log _ _ w) p h); [exact Hh| |auto with keeps].
  wsimpl. destruct (state h); done.
Qed.

Lemma keeps_childExit (p : nat) (w : World) : keeps w (childExit p w).
Proof. unfold childExit. repeat case_match; auto with keeps. Qed.

Lemma keeps_timeout (id : nat) (w : World) : keeps w (timeout id w).
Proof.
  unfold timeout. destruct (timers w !! id) as [tm|]; [|auto with keeps].
  destruct (callback tm) as [p|uri t]; [|auto with keeps].
  wsimpl. destruct (handshakes w !! p) as [h|] eqn:Hh; [|auto with keeps].
  destruct (state h) eqn:Hs; auto with keeps.
  apply keeps_set_state; [exact Hh|rewrite Hs; exact (fun F => F)|auto with keeps].
Qed.

Lemma keeps_publishDiagnostics (params : PublishDiagnosticsParams) (w : World) :
  keeps w (publishDiagnostics params w).
Proof.
  unfold publishDiagnostics, handleDiagnostics.
  destruct (connection w); [|auto with keeps].
  apply keeps_emit. auto with keeps.
Qed.

Lemma keeps_step (w : World) (e : Event) : keeps w (step w e).
Proof.
  destruct e; cbn [step].
  - apply keeps_call.
  - apply keeps_tick.
  - apply keeps_readFile.
  - apply keeps_response.
  - apply keeps_written.
  - apply keeps_initializeResponse.
  - apply keeps_initializedWritten.
  - apply keeps_childError.
  - apply keeps_childExit.
  - apply keeps_timeout.
  - apply keeps_publishDiagnostics.
Qed.

Lemma keeps_trans (w0 w1 w2 : World) : keeps w0 w1 → keeps w1 w2 → keeps w0 w2.
Proof.
  intros [A1 A2] [B1 B2]. split.
  - intros p Hp. apply B1, A1, Hp.
  - intros Hsome p h Hh.
    destruct (A2 Hsome p h Hh) as (h1 & Hh1 & Hs1).
    assert (Hsome1 : initializePromise w1 ≠ None).
    { destruct (initializePromise w0) as [q|] eqn:Hq; [|done].
      rewrite (A1 q eq_refl). done. }
    destruct (B2 Hsome1 p h1 Hh1) as (h2 & Hh2 & Hs2).
    exists h2. split; [exact Hh2|]. intros Hset.
    rewrite <- (Hs1 Hset). apply Hs2. rewrite (Hs1 Hset). exact Hset.
Qed.

Lemma keeps_run (w : World) (es : list Event) : keeps w (run w es).
Proof.
  revert w. induction es as [|e es IH]; intros w; [apply keeps_refl|].
  cbn [run foldl]. eapply keeps_trans; [apply keeps_step|apply IH].
Qed.
End KeepsSteps.

(** ** At most one handshake *)
Section Once.
Import Protocol PathUtil Lsp.








End Once.

(** ** The diagnostics waiters *)
Section Listeners.
Import Protocol PathUtil Lsp.

Lemma listeners_set_listeners (u u' : string) (ls : list Listener) (w : World) :
  listeners (set_listeners u ls w) u' = if decide (u = u') then ls else listeners w u'.
Proof.
  rewrite set_listeners_eq. unfold listeners. wsimpl.
  destruct ls as [|l ls].
  - rewrite lookup_delete. case_decide; reflexivity.
  - rewrite lookup_insert. case_decide; reflexivity.
Qed.

Lemma listeners_once (u u' : string) (l : Listener) (w : World) :
  listeners (once u l w) u'
  = if decide (u = u') then listeners w u ++ [l] else listeners w u'.
Proof. unfold once. apply listeners_set_listeners. Qed.

Lemma remove_last_removed (t : nat) (ls : list Listener) :
  snd (remove_last t ls) = true ↔ t ∈ waiter <$> ls.
Proof.
  induction ls as [|l ls IH]; cbn [remove_last fmap list_fmap].
  - split; [discriminate|]. intros H. apply elem_of_nil in H. done.
  - destruct (remove_last t ls) as [rest removed]. cbn [snd] in IH.
    rewrite elem_of_cons. destruct removed; cbn [snd].
    + split; [|done]. intros _. right. apply IH. reflexivity.
    + destruct (Nat.eqb_spec (waiter l) t) as [Heq|Hne]; cbn [snd].
      * split; [|done]. intros _. left. done.
      * split; [discriminate|]. intros [Heq|Hin]; [done|].
        apply IH in Hin. discriminate.
Qed.

Lemma remove_last_filter (t : nat) (ls : list Listener) :
  NoDup (waiter <$> ls) →
  fst (remove_last t ls) = filter (λ l, waiter l ≠ t) ls.
Proof.
  induction ls as [|l ls IH]; [reflexivity|].
  cbn [fmap list_fmap remove_last]. intros Hnd.
  apply NoDup_cons in Hnd as [Hnotin Hnd]. specialize (IH Hnd).
  pose proof (remove_last_removed t ls) as Hrem.
  destruct (remove_last t ls) as [rest removed]. cbn [fst snd] in *.
  destruct removed; cbn [fst].
  - assert (Hin : t ∈ waiter <$> ls) by (apply Hrem; reflexivity).
    rewrite filter_cons_True; [rewrite IH; reflexivity|].
    intros Heq. apply Hnotin. rewrite Heq. exact Hin.
  - assert (Hnin : t ∉ waiter <$> ls).
    { intros Hin. apply Hrem in Hin. discriminate. }
    assert (Hid : filter (λ l, waiter l ≠ t) ls = ls).
    { clear -Hnin. induction ls as [|l' ls IH]; [reflexivity|].
      cbn [fmap list_fmap] in Hnin. apply not_elem_of_cons in Hnin as [Hne Hnin].
      rewrite filter_cons_True by done. rewrite IH by done. reflexivity. }
    destruct (Nat.eqb_spec (waiter l) t) as [Heq|Hne]; cbn [fst].
    + rewrite filter_cons_False by (intros H; apply H, Heq). rewrite Hid. reflexivity.
    + rewrite filter_cons_True by done. rewrite Hid. reflexivity.
Qed.

Lemma listeners_off (u u' : string) (t : nat) (w : World) :
  NoDup (waiter <$> listeners w u) →
  listeners (off u t w) u'
  = if decide (u = u') then filter (λ l, waiter l ≠ t) (listeners w u)
    else listeners w u'.
Proof.
  intros Hnd. unfold off.
  destruct (diagnosticsEvents w !! u) as [ls|] eqn:Hu.
  - rewrite listeners_set_listeners.
    case_decide; [|reflexivity].
    unfold listeners in *. rewrite Hu in *. cbn [from_option] in *.
    apply remove_last_filter, Hnd.
  - case_decide as Heq; [|reflexivity]. subst u'.
    unfold listeners. rewrite Hu. reflexivity.
Qed.

(** The world after the handlers of [ls] have run. *)
Lemma handlers_run (params : PublishDiagnosticsParams) (ls : list Listener)
    (w : World) :
  ∃ ts, foldl (fun w l => handler l params w) w ls
        = set_tasks ts
            (set_timers (foldl (fun m l => delete (timer l) m) (timers w) ls)
               (set_invoked (invoked w ++ (waiter <$> ls)) w)).
Proof.
  revert w. induction ls as [|l ls IH]; intros w.
  - exists (tasks w). cbn [foldl fmap list_fmap]. rewrite app_nil_r.
    destruct w; reflexivity.
  - cbn [foldl]. destruct (IH (handler l params w)) as [ts ->].
    exists ts. unfold handler, resolve. wsimpl.
    destruct (tasks w !! waiter l) as [[op []]|]; wsimpl;
      cbn [fmap list_fmap]; rewrite <- app_assoc; reflexivity.
Qed.

Lemma handlers_tasks_other (params : PublishDiagnosticsParams)
    (ls : list Listener) (w : World) (t : nat) :
  t ∉ waiter <$> ls →
  tasks (foldl (fun w l => handler l params w) w ls) !! t = tasks w !! t.
Proof.
  revert w. induction ls as [|l ls IH]; intros w Hnin; [reflexivity|].
  cbn [fmap list_fmap] in Hnin. apply not_elem_of_cons in Hnin as [Hne Hnin].
  cbn [foldl]. rewrite IH by exact Hnin.
  unfold handler, resolve. wsimpl.
  destruct (tasks w !! waiter l) as [[op []]|]; wsimpl; try reflexivity.
  apply lookup_insert_ne. done.
Qed.

Lemma handlers_tasks_settled (params : PublishDiagnosticsParams)
    (ls : list Listener) (w : World) (t : nat) (task : Task) :
  tasks w !! t = Some task → pc task ≠ AwaitDiagnostics →
  tasks (foldl (fun w l => handler l params w) w ls) !! t = Some task.
Proof.
  revert w. induction ls as [|l ls IH]; intros w Ht Hpc; [exact Ht|].
  cbn [foldl]. apply IH; [|exact Hpc].
  unfold handler, resolve. wsimpl.
  destruct (tasks w !! waiter l) as [[op pc0]|] eqn:Hl; [|exact Ht].
  destruct pc0; try exact Ht.
  wsimpl. rewrite lookup_insert_ne; [exact Ht|].
  intros Heq. rewrite Heq, Ht in Hl. injection Hl as ->. done.
Qed.

Lemma handlers_tasks_resolved (params : PublishDiagnosticsParams)
    (ls : list Listener) (w : World) (t : nat) (op : Operation) :
  t ∈ waiter <$> ls →
  tasks w !! t = Some {| operation := op; pc := AwaitDiagnostics |} →
  tasks (foldl (fun w l => handler l params w) w ls) !! t
  = Some {| operation := op; pc := Returned (VDiagnostics params) |}.
Proof.
  revert w. induction ls as [|l ls IH]; intros w Hin Ht.
  - apply elem_of_nil in Hin. done.
  - cbn [foldl]. cbn [fmap list_fmap] in Hin.
    destruct (decide (waiter l = t)) as [Heq|Hne].
    + apply handlers_tasks_settled; [|done].
      unfold handler, resolve. wsimpl. rewrite Heq, Ht. wsimpl.
      apply lookup_insert_eq.
    + apply elem_of_cons in Hin as [Heq|Hin]; [done|].
      apply IH; [exact Hin|].
      unfold handler, resolve. wsimpl.
      destruct (tasks w !! waiter l) as [[op0 []]|]; wsimpl; try exact Ht.
      rewrite lookup_insert_ne by done. exact Ht.
Qed.

Lemma deleted_timers_lookup (ls : list Listener) (m : gmap nat Timer) (id : nat) :
  foldl (fun m l => delete (timer l) m) m ls !! id
  = if decide (id ∈ timer <$> ls) then None else m !! id.
Proof.
  revert m. induction ls as [|l ls IH]; intros m; cbn [foldl fmap list_fmap].
  - rewrite decide_False; [reflexivity|]. apply not_elem_of_nil.
  - rewrite IH. destruct (decide (id ∈ timer <$> ls)) as [Hin|Hnin].
    + rewrite decide_True; [reflexivity|]. apply elem_of_cons. right. exact Hin.
    + rewrite lookup_delete. destruct (decide (timer l = id)) as [Heq|Hne].
      * rewrite decide_True; [reflexivity|]. apply elem_of_cons. left. done.
      * rewrite decide_False; [reflexivity|].
        intros [Heq|Hin]%elem_of_cons; [congruence|done].
Qed.
End Listeners.

Section WaitersFrames.
Import Protocol PathUtil Lsp.

Lemma waiters_inv_frame (w w' : World) :
  tasks w' = tasks w →
  timers w' = timers w →
  handshakes w' = handshakes w →
  diagnosticsEvents w' = diagnosticsEvents w →
  next w' = next w →
  waiters_inv w → waiters_inv w'.
Proof.
  unfold waiters_inv, waits, listeners. intros -> -> -> -> ->. done.
Qed.

Lemma waiters_inv_set_child v (w : World) : waiters_inv w → waiters_inv (set_child v w).
Proof. apply waiters_inv_frame; reflexivity. Qed.
Lemma waiters_inv_set_connection v (w : World) : waiters_inv w → waiters_inv (set_connection v w).
Proof. apply waiters_inv_frame; reflexivity. Qed.
Lemma waiters_inv_set_initializePromise v (w : World) : waiters_inv w → waiters_inv (set_initializePromise v w).
Proof. apply waiters_inv_frame; reflexivity. Qed.
Lemma waiters_inv_set_shuttingDown v (w : World) : waiters_inv w → waiters_inv (set_shuttingDown v w).
Proof. apply waiters_inv_frame; reflexivity. Qed.
Lemma waiters_inv_set_openDocuments v (w : World) : waiters_inv w → waiters_inv (set_openDocuments v w).
Proof. apply waiters_inv_frame; reflexivity. Qed.
Lemma waiters_inv_set_diagnostics v (w : World) : waiters_inv w → waiters_inv (set_diagnostics v w).
Proof. apply waiters_inv_frame; reflexivity. Qed.
Lemma waiters_inv_set_spawned v (w : World) : waiters_inv w → waiters_inv (set_spawned v w).
Proof. apply waiters_inv_frame; reflexivity. Qed.
Lemma waiters_inv_set_sent v (w : World) : waiters_inv w → waiters_inv (set_sent v w).
Proof. apply waiters_inv_frame; reflexivity. Qed.
Lemma waiters_inv_set_disposed v (w : World) : waiters_inv w → waiters_inv (set_disposed v w).
Proof. apply waiters_inv_frame; reflexivity. Qed.
Lemma waiters_inv_set_killed v (w : World) : waiters_inv w → waiters_inv (set_killed v w).
Proof. apply waiters_inv_frame; reflexivity. Qed.
Lemma waiters_inv_set_logged v (w : World) : waiters_inv w → waiters_inv (set_logged v w).
Proof. apply waiters_inv_frame; reflexivity. Qed.
Lemma waiters_inv_set_invoked v (w : World) : waiters_inv w → waiters_inv (set_invoked v w).
Proof. apply waiters_inv_frame; reflexivity. Qed.
Lemma waiters_inv_send (m : Outgoing) (w : World) : waiters_inv w → waiters_inv (send m w).
Proof. apply waiters_inv_frame; reflexivity. Qed.
Lemma waiters_inv_log (l : LogLevel) (s : string) (w : World) : waiters_inv w → waiters_inv (log l s w).
Proof. apply waiters_inv_frame; reflexivity. Qed.
End WaitersFrames.

Create HintDb waiters discriminated.
#[local] Hint Resolve
waiters_inv_set_child waiters_inv_set_connection waiters_inv_set_initializePromise
waiters_inv_set_shuttingDown waiters_inv_set_openDocuments
waiters_inv_set_diagnostics waiters_inv_set_spawned waiters_inv_set_sent
waiters_inv_set_disposed waiters_inv_set_killed waiters_inv_set_logged
waiters_inv_set_invoked waiters_inv_send waiters_inv_log : waiters.

Section WaitersPrimitives.
Import Protocol PathUtil Lsp.

Lemma listeners_new (cwd : string) (pid : Z) (options : TypeScriptLspClientOptions)
    (uri : string) :
  listeners (new_client cwd pid options) uri = [].
Proof. unfold listeners. cbn [new_client diagnosticsEvents]. rewrite lookup_empty. done. Qed.

Lemma waiters_inv_new (cwd : string) (pid : Z) (options : TypeScriptLspClientOptions) :
  waiters_inv (new_client cwd pid options).
Proof.
  split; [|split; [|split; [|split; [|split; [|split]]]]].
  - intros t task. cbn [new_client tasks]. rewrite lookup_empty. done.
  - intros id tm. cbn [new_client timers]. rewrite lookup_empty. done.
  - intros p h. cbn [new_client handshakes]. rewrite lookup_empty. done.
  - intros uri l. rewrite listeners_new. intros H. apply elem_of_nil in H. done.
  - intros id d uri t. cbn [new_client timers]. rewrite lookup_empty. done.
  - intros uri. rewrite listeners_new. constructor.
  - intros uri uri' l l'. rewrite listeners_new. intros H.
    apply elem_of_nil in H. done.
Qed.

Lemma waiter_is_waiting (w : World) (uri : string) (l : Listener) :
  waiters_inv w → l ∈ listeners w uri →
  ∃ f, tasks w !! waiter l
       = Some {| operation := GetDiagnostics f; pc := AwaitDiagnostics |}.
Proof. intros (_ & _ & _ & D & _) Hl. apply (D uri l Hl). Qed.

Lemma waiter_timer (w : World) (uri : string) (l : Listener) :
  waiters_inv w → l ∈ listeners w uri →
  ∃ d, timers w !! timer l
       = Some {| delay := d; callback := DiagnosticsTimeout uri (waiter l) |}.
Proof. intros (_ & _ & _ & D & _) Hl. apply (D uri l Hl). Qed.

(** A call that is not suspended in [getDiagnostics] is no waiter. *)
Lemma not_waiter_task (w : World) (t : nat) (task : Task) :
  waiters_inv w → tasks w !! t = Some task → pc task ≠ AwaitDiagnostics →
  ∀ uri l, l ∈ listeners w uri → waiter l ≠ t.
Proof.
  intros Hinv Ht Hpc uri l Hl Heq.
  destruct (waiter_is_waiting w uri l Hinv Hl) as [f Hw].
  rewrite Heq, Ht in Hw. injection Hw as ->. done.
Qed.

Lemma not_waiter_fresh (w : World) (t : nat) :
  waiters_inv w → (next w ≤ t)%nat →
  ∀ uri l, l ∈ listeners w uri → waiter l ≠ t.
Proof.
  intros Hinv Hle uri l Hl Heq.
  destruct (waiter_is_waiting w uri l Hinv Hl) as [f Hw].
  destruct Hinv as (A & _). specialize (A _ _ Hw). lia.
Qed.

Lemma not_timer_fresh (w : World) (id : nat) :
  waiters_inv w → (next w ≤ id)%nat →
  ∀ uri l, l ∈ listeners w uri → timer l ≠ id.
Proof.
  intros Hinv Hle uri l Hl Heq.
  destruct (waiter_timer w uri l Hinv Hl) as [d Hw].
  destruct Hinv as (_ & B & _). specialize (B _ _ Hw). lia.
Qed.

Lemma waiters_inv_set_next (w : World) (n : nat) :
  waiters_inv w → (next w ≤ n)%nat → waiters_inv (set_next n w).
Proof.
  intros (A & B & C & D & E & F & G) Hle.
  split; [|split; [|split; [|split; [|split; [|split]]]]].
  - intros t task Ht. specialize (A t task Ht). wsimpl. lia.
  - intros id tm Hid. specialize (B id tm Hid). wsimpl. lia.
  - intros p h Hh. destruct (C p h Hh) as [C1 C2]. split; [wsimpl; lia|exact C2].
  - exact D.
  - exact E.
  - exact F.
  - exact G.
Qed.

Lemma waiters_inv_set_pc (w : World) (t : nat) (op : Operation) (pc : Pc) :
  waiters_inv w →
  (t < next w)%nat →
  (∀ uri l, l ∈ listeners w uri → waiter l ≠ t) →
  waiters_inv (set_pc t op pc w).
Proof.
  intros (A & B & C & D & E & F & G) Hlt Hnw.
  split; [|split; [|split; [|split; [|split; [|split]]]]].
  - intros t' task. wsimpl. rewrite lookup_insert. case_decide.
    + intros _. subst. exact Hlt.
    + apply A.
  - exact B.
  - exact C.
  - intros uri l Hl. destruct (D uri l Hl) as [[f Hw] Htm].
    split; [|exact Htm]. exists f. wsimpl.
    rewrite lookup_insert_ne; [exact Hw|]. intros Heq. exact (Hnw uri l Hl (eq_sym Heq)).
  - exact E.
  - exact F.
  - exact G.
Qed.

Lemma waiters_inv_set_pc_task (w : World) (t : nat) (task : Task)
    (op : Operation) (pc' : Pc) :
  waiters_inv w → tasks w !! t = Some task → pc task ≠ AwaitDiagnostics →
  waiters_inv (set_pc t op pc' w).
Proof.
  intros Hinv Ht Hpc. apply waiters_inv_set_pc; [exact Hinv| |].
  - destruct Hinv as (A & _). exact (A t task Ht).
  - eapply not_waiter_task; eauto.
Qed.

Lemma waiters_inv_clearTimeout (w : World) (id : nat) :
  waiters_inv w →
  (∀ tm, timers w !! id = Some tm → ∃ q, callback tm = InitializationTimeout q) →
  waiters_inv (clearTimeout id w).
Proof.
  intros (A & B & C & D & E & F & G) Hinit.
  split; [|split; [|split; [|split; [|split; [|split]]]]].
  - exact A.
  - intros id' tm. wsimpl. rewrite lookup_delete_Some. intros [_ H]. exact (B _ _ H).
  - intros p h Hh. destruct (C p h Hh) as [C1 C2]. split; [exact C1|].
    intros tm. wsimpl. rewrite lookup_delete_Some. intros [_ H]. exact (C2 _ H).
  - intros uri l Hl. destruct (D uri l Hl) as [Hw [d Htm]].
    split; [exact Hw|]. exists d. wsimpl.
    rewrite lookup_delete_ne; [exact Htm|].
    intros Heq. rewrite <- Heq in Htm. destruct (Hinit _ Htm) as [q Hq]. done.
  - intros id' d uri t. wsimpl. rewrite lookup_delete_Some. intros [_ H].
    exact (E _ _ _ _ H).
  - exact F.
  - exact G.
Qed.

Lemma waiters_inv_set_handshake (w : World) (p : nat) (h' : Handshake) :
  waiters_inv w →
  (timeoutHandle h' < next w)%nat →
  (∀ tm, timers w !! timeoutHandle h' = Some tm →
         ∃ q, callback tm = InitializationTimeout q) →
  waiters_inv (set_handshakes (<[p := h']> (handshakes w)) w).
Proof.
  intros (A & B & C & D & E & F & G) Hlt Hinit.
  split; [|split; [|split; [|split; [|split; [|split]]]]]; try done.
  intros q h. wsimpl. rewrite lookup_insert. case_decide.
  - intros [= <-]. done.
  - apply C.
Qed.

Lemma waiters_inv_set_state (w : World) (p : nat) (h : Handshake) (s : StartState) :
  waiters_inv w → handshakes w !! p = Some h → waiters_inv (set_state p h s w).
Proof.
  intros Hinv Hh. unfold set_state.
  destruct Hinv as (A & B & C & D & E & F & G). destruct (C p h Hh) as [C1 C2].
  apply waiters_inv_set_handshake; done.
Qed.

Lemma waiters_inv_setTimeout_init (w : World) (d : Z) (p : nat) :
  waiters_inv w →
  waiters_inv
    (set_timers (<[next w := {| delay := d; callback := InitializationTimeout p |}]>
                   (timers w))
       (set_next (S (next w)) w)).
Proof.
  intros Hinv. pose proof Hinv as (A & B & C & D & E & F & G).
  split; [|split; [|split; [|split; [|split; [|split]]]]].
  - intros t task Ht. specialize (A t task Ht). wsimpl. lia.
  - intros id tm. wsimpl. rewrite lookup_insert_Some.
    intros [[<- _]|[_ H]]; [lia|]. specialize (B _ _ H). lia.
  - intros q h Hh. destruct (C q h Hh) as [C1 C2]. split; [wsimpl; lia|].
    intros tm. wsimpl. rewrite lookup_insert_ne by lia. apply C2.
  - intros uri l Hl. destruct (D uri l Hl) as [Hw [d' Htm]].
    split; [exact Hw|]. exists d'. wsimpl.
    rewrite lookup_insert_ne; [exact Htm|]. specialize (B _ _ Htm). lia.
  - intros id d' uri t. wsimpl. rewrite lookup_insert_Some.
    intros [[_ [=]]|[_ H]]. exact (E _ _ _ _ H).
  - exact F.
  - exact G.
Qed.
End WaitersPrimitives.

Section WaitersMoves.
Import Protocol PathUtil Lsp.

Lemma same_waiter_same_listener (ls : list Listener) (l l' : Listener) :
  NoDup (waiter <$> ls) → l ∈ ls → l' ∈ ls → waiter l = waiter l' → l = l'.
Proof.
  induction ls as [|l0 ls IH]; intros Hnd Hl Hl' Heq.
  - apply elem_of_nil in Hl. done.
  - cbn [fmap list_fmap] in Hnd. apply NoDup_cons in Hnd as [Hnin Hnd].
    apply elem_of_cons in Hl as [->|Hl]; apply elem_of_cons in Hl' as [->|Hl'].
    + reflexivity.
    + exfalso. apply Hnin. rewrite Heq. apply list_elem_of_fmap_2, Hl'.
    + exfalso. apply Hnin. rewrite <- Heq. apply list_elem_of_fmap_2, Hl.
    + apply IH; done.
Qed.

(** [getDiagnostics] registers its handler under a new timer. *)
Lemma waiters_inv_register (w : World) (t : nat) (f uri : string) (d : Z) :
  waiters_inv w →
  (t < next w)%nat →
  (∀ u l, l ∈ listeners w u → waiter l ≠ t) →
  waiters_inv
    (set_pc t (GetDiagnostics f) AwaitDiagnostics
       (once uri {| waiter := t; timer := next w |}
          (set_timers
             (<[next w := {| delay := d; callback := DiagnosticsTimeout uri t |}]>
                (timers w))
             (set_next (S (next w)) w)))).
Proof.
  intros Hinv Hlt Hnw. pose proof Hinv as (A & B & C & D & E & F & G).
  set (l0 := {| waiter := t; timer := next w |}).
  set (tm0 := {| delay := d; callback := DiagnosticsTimeout uri t |}).
  set (w1 := set_timers _ _).
  assert (Hls : ∀ u, listeners (once uri l0 w1) u
                     = if decide (uri = u) then listeners w uri ++ [l0]
                       else listeners w u).
  { intros u. exact (listeners_once uri u l0 w1). }
  assert (Hin : ∀ u l, l ∈ listeners (once uri l0 w1) u →
                       l ∈ listeners w u ∨ (u = uri ∧ l = l0)).
  { intros u l. rewrite Hls. case_decide as Hu; [|auto].
    subst u. rewrite elem_of_app, list_elem_of_singleton. intros [H|H]; auto. }
  assert (Htasks : tasks (once uri l0 w1) = tasks w).
  { unfold once. rewrite set_listeners_eq. reflexivity. }
  assert (Htimers : timers (once uri l0 w1) = <[next w := tm0]> (timers w)).
  { unfold once. rewrite set_listeners_eq. reflexivity. }
  assert (Hhs : handshakes (once uri l0 w1) = handshakes w).
  { unfold once. rewrite set_listeners_eq. reflexivity. }
  assert (Hnext : next (once uri l0 w1) = S (next w)).
  { unfold once. rewrite set_listeners_eq. reflexivity. }
  generalize dependent (once uri l0 w1). intros w2 Hls Hin Htasks Htimers Hhs Hnext.
  split; [|split; [|split; [|split; [|split; [|split]]]]].
  - intros t' task. wsimpl. rewrite Hnext, Htasks, lookup_insert. case_decide.
    + intros _. subst. lia.
    + intros H'. specialize (A _ _ H'). lia.
  - intros id tm. wsimpl. rewrite Hnext, Htimers, lookup_insert_Some.
    intros [[<- _]|[_ H]]; [lia|]. specialize (B _ _ H). lia.
  - intros q h. wsimpl. rewrite Hhs, Hnext, Htimers. intros Hh.
    destruct (C q h Hh) as [C1 C2]. split; [lia|].
    intros tm. rewrite lookup_insert_ne by lia. apply C2.
  - intros u l Hl. destruct (Hin u l Hl) as [Hold|[-> ->]].
    + destruct (D u l Hold) as [[f' Hw] [d' Htm]]. split.
      * exists f'. wsimpl. rewrite Htasks, lookup_insert_ne; [exact Hw|].
        intros Heq. exact (Hnw u l Hold (eq_sym Heq)).
      * exists d'. wsimpl. rewrite Htimers, lookup_insert_ne; [exact Htm|].
        specialize (B _ _ Htm). lia.
    + split.
      * exists f. wsimpl. apply lookup_insert_eq.
      * exists d. wsimpl. rewrite Htimers. apply lookup_insert_eq.
  - intros id d' u t'. wsimpl. rewrite Htimers, lookup_insert_Some.
    change (listeners (set_pc t (GetDiagnostics f) AwaitDiagnostics w2) u)
      with (listeners w2 u).
    rewrite Hls.
    intros [[<- [= <- <- <-]]|[_ H]].
    + rewrite decide_True by done. apply elem_of_app. right.
      apply list_elem_of_singleton. reflexivity.
    + specialize (E _ _ _ _ H). case_decide as Hu; [|exact E].
      subst u. apply elem_of_app. left. exact E.
  - intros u.
    change (listeners (set_pc t (GetDiagnostics f) AwaitDiagnostics w2) u)
      with (listeners w2 u).
    rewrite Hls. case_decide as Hu; [|apply F].
    rewrite fmap_app. apply NoDup_app. split; [apply F|]. split.
    + intros x Hx [= ->]%list_elem_of_singleton.
      apply list_elem_of_fmap in Hx as (l & Hwl & Hl).
      exact (Hnw uri l Hl (eq_sym Hwl)).
    + apply NoDup_singleton.
  - intros u u' l l' Hl Hl' Heq.
    destruct (Hin u l Hl) as [Hold|[-> ->]];
      destruct (Hin u' l' Hl') as [Hold'|[-> ->]].
    + exact (G u u' l l' Hold Hold' Heq).
    + exfalso. exact (Hnw u l Hold Heq).
    + exfalso. exact (Hnw u' l' Hold' (eq_sym Heq)).
    + reflexivity.
Qed.

(** The timer of a waiter fires: the handler is removed and the promise
    resolved. *)
Lemma waiters_inv_expire (w : World) (id : nat) (d : Z) (uri : string)
    (t : nat) (v : Value) :
  waiters_inv w →
  timers w !! id = Some {| delay := d; callback := DiagnosticsTimeout uri t |} →
  waiters_inv (resolve t v (off uri t (set_timers (delete id (timers w)) w))).
Proof.
  intros Hinv Hid. pose proof Hinv as (A & B & C & D & E & F & G).
  pose proof (E _ _ _ _ Hid) as Hl0.
  destruct (D _ _ Hl0) as [[f Hw] _]. cbn [waiter] in Hw.
  set (w1 := set_timers _ w).
  assert (Hls : ∀ u, listeners (off uri t w1) u
                     = if decide (uri = u)
                       then filter (λ l, waiter l ≠ t) (listeners w uri)
                       else listeners w u).
  { intros u. apply (listeners_off uri u t w1). apply F. }
  assert (Hin : ∀ u l, l ∈ listeners (off uri t w1) u →
                       l ∈ listeners w u ∧ waiter l ≠ t).
  { intros u l. rewrite Hls. case_decide as Hu.
    - subst u. rewrite list_elem_of_filter. tauto.
    - intros Hl. split; [exact Hl|]. intros Heq.
      apply Hu. symmetry. exact (G u uri l _ Hl Hl0 Heq). }
  assert (Hres : resolve t v (off uri t w1)
                 = set_pc t (GetDiagnostics f) (Returned v) (off uri t w1)).
  { unfold resolve.
    replace (tasks (off uri t w1)) with (tasks w); [rewrite Hw; reflexivity|].
    unfold off. destruct (diagnosticsEvents w1 !! uri); [|reflexivity].
    rewrite set_listeners_eq. reflexivity. }
  rewrite Hres.
  assert (Htasks : tasks (off uri t w1) = tasks w).
  { unfold off. destruct (diagnosticsEvents w1 !! uri); [|reflexivity].
    rewrite set_listeners_eq. reflexivity. }
  assert (Htimers : timers (off uri t w1) = delete id (timers w)).
  { unfold off. destruct (diagnosticsEvents w1 !! uri); [|reflexivity].
    rewrite set_listeners_eq. reflexivity. }
  assert (Hhs : handshakes (off uri t w1) = handshakes w).
  { unfold off. destruct (diagnosticsEvents w1 !! uri); [|reflexivity].
    rewrite set_listeners_eq. reflexivity. }
  assert (Hnext : next (off uri t w1) = next w).
  { unfold off. destruct (diagnosticsEvents w1 !! uri); [|reflexivity].
    rewrite set_listeners_eq. reflexivity. }
  generalize dependent (off uri t w1). intros w2 Hls Hin _ Htasks Htimers Hhs Hnext.
  split; [|split; [|split; [|split; [|split; [|split]]]]].
  - intros t' task. wsimpl. rewrite Hnext, Htasks, lookup_insert. case_decide.
    + intros _. subst. exact (A _ _ Hw).
    + apply A.
  - intros id' tm. wsimpl. rewrite Hnext, Htimers, lookup_delete_Some.
    intros [_ H]. exact (B _ _ H).
  - intros q h. wsimpl. rewrite Hhs, Hnext, Htimers. intros Hh.
    destruct (C q h Hh) as [C1 C2]. split; [exact C1|].
    intros tm. rewrite lookup_delete_Some. intros [_ H]. exact (C2 _ H).
  - intros u l Hl. destruct (Hin u l Hl) as [Hold Hne].
    destruct (D u l Hold) as [[f' Hw'] [d' Htm]]. split.
    + exists f'. wsimpl. rewrite Htasks, lookup_insert_ne by done. exact Hw'.
    + exists d'. wsimpl. rewrite Htimers, lookup_delete_ne; [exact Htm|].
      intros Heq. rewrite <- Heq, Hid in Htm. injection Htm as _ _ Ht. done.
  - intros id' d' u t'. wsimpl. rewrite Htimers, lookup_delete_Some.
    intros [Hne H]. pose proof (E _ _ _ _ H) as Hl.
    change (listeners (set_pc t (GetDiagnostics f) (Returned v) w2) u)
      with (listeners w2 u).
    rewrite Hls. case_decide as Hu; [|exact Hl]. subst u.
    apply list_elem_of_filter. split; [|exact Hl]. cbn [waiter]. intros ->.
    pose proof (same_waiter_same_listener _ _ _ (F uri) Hl Hl0 eq_refl) as Hsame.
    injection Hsame as Hsame. done.
  - intros u.
    change (listeners (set_pc t (GetDiagnostics f) (Returned v) w2) u)
      with (listeners w2 u).
    rewrite Hls. case_decide as Hu; [|apply F].
    eapply sublist_NoDup; [apply F|]. apply fmap_sublist, sublist_filter.
  - intros u u' l l' Hl Hl' Heq.
    destruct (Hin u l Hl) as [Hold _]. destruct (Hin u' l' Hl') as [Hold' _].
    exact (G u u' l l' Hold Hold' Heq).
Qed.
End WaitersMoves.

Section WaitersEmit.
Import Protocol PathUtil Lsp.

Lemma waiters_inv_emit (w : World) (uri : string) (params : PublishDiagnosticsParams) :
  waiters_inv w → waiters_inv (emit uri params w).
Proof.
  intros Hinv. pose proof Hinv as (A & B & C & D & E & F & G).
  unfold emit. set (ls := listeners w uri). set (w0 := set_listeners uri [] w).
  assert (Hw0 : tasks w0 = tasks w ∧ timers w0 = timers w
                ∧ handshakes w0 = handshakes w ∧ next w0 = next w).
  { subst w0. rewrite set_listeners_eq. done. }
  destruct Hw0 as (Htasks0 & Htimers0 & Hhs0 & Hnext0).
  assert (Hls0 : ∀ u, listeners w0 u = if decide (uri = u) then [] else listeners w u).
  { intros u. apply listeners_set_listeners. }
  pose proof (handlers_tasks_other params ls w0) as Hother.
  destruct (handlers_run params ls w0) as [ts Hrun].
  rewrite Hrun in *. clear Hrun.
  assert (Hts : ∀ t, t ∉ waiter <$> ls → ts !! t = tasks w !! t).
  { intros t Hnin. rewrite <- Htasks0. exact (Hother t Hnin). }
  clear Hother.
  assert (Hdom : ∀ t task, ts !! t = Some task → is_Some (tasks w !! t)).
  { intros t task Ht. destruct (decide (t ∈ waiter <$> ls)) as [Hin|Hnin].
    - apply list_elem_of_fmap in Hin as (l & -> & Hl).
      destruct (waiter_is_waiting w uri l Hinv Hl) as [f Hw]. rewrite Hw. done.
    - rewrite <- (Hts t Hnin), Ht. done. }
  set (tms := foldl (fun m l => delete (timer l) m) (timers w0) ls).
  assert (Htms : ∀ id, tms !! id
                       = if decide (id ∈ timer <$> ls) then None else timers w !! id).
  { intros id. subst tms. rewrite deleted_timers_lookup, Htimers0. reflexivity. }
  assert (Hsub : ∀ id tm, tms !! id = Some tm →
                          timers w !! id = Some tm ∧ id ∉ timer <$> ls).
  { intros id tm. rewrite Htms. case_decide; [done|]. done. }
  clearbody tms.
  assert (Hin : ∀ u l,
            l ∈ listeners (set_tasks ts (set_timers tms
                             (set_invoked (invoked w0 ++ (waiter <$> ls)) w0))) u →
            l ∈ listeners w u ∧ u ≠ uri).
  { intros u l.
    change (listeners (set_tasks _ _) u) with (listeners w0 u).
    rewrite Hls0. case_decide as Hu.
    - intros H. apply elem_of_nil in H. done.
    - intros H. split; [exact H|]. intros ->. done. }
  split; [|split; [|split; [|split; [|split; [|split]]]]].
  - intros t task. wsimpl. rewrite Hnext0. intros Ht.
    destruct (Hdom t task Ht) as [task' Ht']. exact (A _ _ Ht').
  - intros id tm. wsimpl. rewrite Hnext0. intros H.
    destruct (Hsub _ _ H) as [H' _]. exact (B _ _ H').
  - intros p h. wsimpl. rewrite Hhs0, Hnext0. intros Hh.
    destruct (C p h Hh) as [C1 C2]. split; [exact C1|].
    intros tm H. destruct (Hsub _ _ H) as [H' _]. exact (C2 _ H').
  - intros u l Hl. destruct (Hin u l Hl) as [Hold Hne].
    destruct (D u l Hold) as [[f Hw] [d Htm]]. split.
    + exists f. wsimpl. rewrite Hts; [exact Hw|].
      intros (l' & Heq & Hl')%list_elem_of_fmap.
      apply Hne. exact (G u uri l l' Hold Hl' Heq).
    + exists d. wsimpl. rewrite Htms, decide_False; [exact Htm|].
      intros (l' & Heq & Hl')%list_elem_of_fmap.
      destruct (D uri l' Hl') as [_ [d' Htm']].
      rewrite <- Heq, Htm in Htm'. injection Htm' as _ Hu _. done.
  - intros id d u t. wsimpl. intros H. destruct (Hsub _ _ H) as [H' Hnin].
    pose proof (E _ _ _ _ H') as Hl.
    change (listeners (set_tasks _ _) u) with (listeners w0 u).
    rewrite Hls0. case_decide as Hu; [|exact Hl]. subst u.
    exfalso. apply Hnin. apply list_elem_of_fmap. eexists. split; [|exact Hl]. done.
  - intros u.
    change (listeners (set_tasks _ _) u) with (listeners w0 u).
    rewrite Hls0. case_decide; [constructor|apply F].
  - intros u u' l l' Hl Hl' Heq.
    destruct (Hin u l Hl) as [Hold _]. destruct (Hin u' l' Hl') as [Hold' _].
    exact (G u u' l l' Hold Hold' Heq).
Qed.

Lemma waiters_inv_frame_le (w w' : World) :
  tasks w' = tasks w →
  timers w' = timers w →
  handshakes w' = handshakes w →
  diagnosticsEvents w' = diagnosticsEvents w →
  (next w ≤ next w')%nat →
  waiters_inv w → waiters_inv w'.
Proof.
  intros Ht Htm Hh Hd Hn Hinv.
  apply (waiters_inv_frame (set_next (next w') w)); try done.
  apply waiters_inv_set_next; done.
Qed.

(** A world in which a handshake has been started under a new timer. *)
Lemma waiters_inv_started (w w' : World) (p id n : nat) (h : Handshake)
    (tm : Timer) (hs : gmap nat Handshake) (tms : gmap nat Timer) :
  waiters_inv w →
  tasks w' = tasks w →
  timers w' = timers w →
  handshakes w' = handshakes w →
  diagnosticsEvents w' = diagnosticsEvents w →
  (next w ≤ next w')%nat →
  id = next w' → n = S id →
  timeoutHandle h = id →
  callback tm = InitializationTimeout p →
  hs = <[p := h]> (handshakes w') →
  tms = <[id := tm]> (timers w') →
  waiters_inv (set_handshakes hs (set_timers tms (set_next n w'))).
Proof.
  intros Hinv Ht Htm Hh Hd Hn -> -> Hth Hcb -> ->.
  pose proof (waiters_inv_frame_le w w' Ht Htm Hh Hd Hn Hinv) as Hinv'.
  destruct tm as [d cb]. cbn [callback] in Hcb. subst cb.
  apply (waiters_inv_set_handshake
           (set_timers (<[next w' := {| delay := d;
                                        callback := InitializationTimeout p |}]>
                          (timers w')) (set_next (S (next w')) w'))).
  - apply waiters_inv_setTimeout_init, Hinv'.
  - wsimpl. lia.
  - intros tm'. wsimpl. rewrite Hth, lookup_insert_eq. intros [= <-].
    eexists. reflexivity.
Qed.

Lemma waiters_inv_start (w : World) :
  waiters_inv w → waiters_inv (snd (start w)).
Proof.
  intros Hinv. unfold start. wsimpl.
  eapply (waiters_inv_started w); try reflexivity; try exact Hinv.
  all: wsimpl; first [lia | reflexivity].
Qed.

Lemma waiters_inv_initialize (w : World) :
  waiters_inv w → waiters_inv (snd (initialize w)).
Proof.
  intros Hinv. unfold initialize. destruct (initializePromise w); [exact Hinv|].
  pose proof (waiters_inv_start w Hinv) as H.
  destruct (start w) as [p w1]. cbn [snd] in *.
  apply waiters_inv_set_initializePromise, H.
Qed.
End WaitersEmit.

Section WaitersSteps.
Import Protocol PathUtil Lsp.

Lemma waiters_inv_bound (w : World) (t : nat) (task : Task) :
  waiters_inv w → tasks w !! t = Some task → (t < next w)%nat.
Proof. intros (A & _) Ht. exact (A t task Ht). Qed.

Lemma waiters_inv_shutdown_finish (t : nat) (w : World) :
  waiters_inv w →
  tasks w !! t = Some {| operation := Shutdown; pc := AwaitShutdownRequest |}
  ∨ tasks w !! t = Some {| operation := Shutdown; pc := AwaitExitNotification |} →
  waiters_inv (shutdown_finish t w).
Proof.
  intros Hinv Ht.
  assert (Hlt : (t < next w)%nat).
  { destruct Ht as [Ht|Ht]; exact (waiters_inv_bound _ _ _ Hinv Ht). }
  assert (Hnw : ∀ uri l, l ∈ listeners w uri → waiter l ≠ t).
  { destruct Ht as [Ht|Ht]; eapply not_waiter_task; eauto; done. }
  unfold shutdown_finish.
  destruct (connection w); [|apply waiters_inv_set_pc; done].
  wsimpl. destruct (child w); apply waiters_inv_set_pc; auto 10 with waiters.
Qed.

Lemma waiters_inv_call (op : Operation) (w : World) :
  waiters_inv w → waiters_inv (call op w).
Proof.
  intros Hinv. unfold call. cbn [fresh].
  assert (H1 : waiters_inv (set_next (S (next w)) w)).
  { apply waiters_inv_set_next; [done|lia]. }
  assert (Hnw : ∀ uri l, l ∈ listeners w uri → waiter l ≠ next w).
  { apply not_waiter_fresh; [done|lia]. }
  assert (Hother :
    waiters_inv (let '(p, w2) := initialize (set_next (S (next w)) w) in
                 set_pc (next w) op (AwaitInitialize p) w2)).
  { pose proof (waiters_inv_initialize _ H1) as H2.
    assert (Hn : (next w < next (snd (initialize (set_next (S (next w)) w))))%nat).
    { unfold initialize. wsimpl. destruct (initializePromise w); [wsimpl; lia|].
      unfold start. wsimpl. lia. }
    assert (Hl : ∀ u, listeners (snd (initialize (set_next (S (next w)) w))) u
                      = listeners w u).
    { intros u. unfold initialize. wsimpl. destruct (initializePromise w);
        reflexivity. }
    destruct (initialize (set_next (S (next w)) w)) as [p w2]. cbn [snd] in *.
    apply waiters_inv_set_pc; [exact H2|exact Hn|].
    intros u l. rewrite Hl. apply Hnw. }
  destruct op; try exact Hother.
  unfold shutdown_begin. wsimpl.
  destruct (connection w), (child w);
    apply waiters_inv_set_pc; auto 10 with waiters; wsimpl; lia.
Qed.

Lemma waiters_inv_tick (t : nat) (w : World) :
  waiters_inv w → waiters_inv (tick t w).
Proof.
  intros Hinv. unfold tick.
  destruct (tasks w !! t) as [[op pc]|] eqn:Ht; [|done].
  assert (Hlt : (t < next w)%nat) by exact (waiters_inv_bound _ _ _ Hinv Ht).
  destruct pc as [q|a u|u| | | | |v|e0]; try done.
  - assert (Hnw : ∀ uri l, l ∈ listeners w uri → waiter l ≠ t).
    { eapply not_waiter_task; eauto; done. }
    destruct (handshakes w !! q) as [h|]; [|done]. cbn [fmap option_fmap option_map].
    destruct (state h); try done.
    + unfold after_initialize.
      destruct (filePath_of op).
      * destruct (ensureDocument_begin w s) as [[a u]|e];
          apply waiters_inv_set_pc; done.
      * destruct op; try done. apply waiters_inv_set_pc; done.
    + apply waiters_inv_set_pc; done.
  - assert (Hnw : ∀ uri l, l ∈ listeners w uri → waiter l ≠ t).
    { eapply not_waiter_task; eauto; done. }
    unfold after_ensureDocument.
    assert (Hreq : waiters_inv
      match request_of op u with
      | Some m =>
          match assertConnection w with
          | Ok _ => set_pc t op AwaitResponse (send m w)
          | Throw e => set_pc t op (Thrown e) w
          end
      | None => w
      end).
    { destruct (request_of op u); [|done].
      destruct (assertConnection w); apply waiters_inv_set_pc; auto with waiters. }
    destruct op; try exact Hreq.
    destruct (diagnostics w !! u).
    + apply waiters_inv_set_pc; done.
    + wsimpl. apply waiters_inv_register; done.
Qed.

Lemma waiters_inv_readFile (t : nat) (r : result string) (w : World) :
  waiters_inv w → waiters_inv (readFile t r w).
Proof.
  intros Hinv. unfold readFile.
  destruct (tasks w !! t) as [[op pc]|] eqn:Ht; [|done].
  destruct pc as [q|a u|u| | | | |v|e0]; try done.
  assert (Hlt : (t < next w)%nat) by exact (waiters_inv_bound _ _ _ Hinv Ht).
  assert (Hnw : ∀ uri l, l ∈ listeners w uri → waiter l ≠ t).
  { eapply not_waiter_task; eauto; done. }
  destruct r as [text|e]; [|apply waiters_inv_set_pc; done].
  unfold ensureDocument_resume.
  destruct (openDocuments w !! u) as [existing|].
  - destruct (negb _); [|apply waiters_inv_set_pc; done].
    destruct (assertConnection w); apply waiters_inv_set_pc; auto with waiters.
  - destruct (assertConnection w); apply waiters_inv_set_pc; auto with waiters.
Qed.

Lemma waiters_inv_response (t : nat) (r : result Js.value) (w : World) :
  waiters_inv w → waiters_inv (response t r w).
Proof.
  intros Hinv. unfold response.
  destruct (tasks w !! t) as [[op pc]|] eqn:Ht; [|done].
  assert (Hlt : (t < next w)%nat) by exact (waiters_inv_bound _ _ _ Hinv Ht).
  destruct pc as [q|a u|u| | | | |v|e0]; try (destruct op; done).
  - assert (Hnw : ∀ uri l, l ∈ listeners w uri → waiter l ≠ t).
    { eapply not_waiter_task; eauto; done. }
    destruct r; destruct op; apply waiters_inv_set_pc; done.
  - destruct op; try done.
    assert (Hnw : ∀ uri l, l ∈ listeners w uri → waiter l ≠ t).
    { eapply not_waiter_task; eauto; done. }
    destruct r; [destruct (connection w)|].
    + apply waiters_inv_set_pc; auto with waiters.
    + apply waiters_inv_shutdown_finish; [unfold shutdown_caught; auto with waiters|].
      left. exact Ht.
    + apply waiters_inv_shutdown_finish; [unfold shutdown_caught; auto with waiters|].
      left. exact Ht.
Qed.

Lemma waiters_inv_written (t : nat) (r : result unit) (w : World) :
  waiters_inv w → waiters_inv (written t r w).
Proof.
  intros Hinv. unfold written.
  destruct (tasks w !! t) as [[op pc]|] eqn:Ht; [|done].
  destruct op; try done. destruct pc; try done.
  destruct r; (apply waiters_inv_shutdown_finish;
               [unfold shutdown_caught; auto with waiters|right; exact Ht]).
Qed.

Lemma handshake_timer_init (w : World) (p : nat) (h : Handshake) :
  waiters_inv w → handshakes w !! p = Some h →
  ∀ tm, timers w !! timeoutHandle h = Some tm →
        ∃ q, callback tm = InitializationTimeout q.
Proof. intros (_ & _ & C & _) Hh. apply (C p h Hh). Qed.

Lemma waiters_inv_initializeResponse (p : nat) (r : result Js.value) (w : World) :
  waiters_inv w → waiters_inv (initializeResponse p r w).
Proof.
  intros Hinv. unfold initializeResponse.
  destruct (handshakes w !! p) as [h|] eqn:Hh; [|done].
  destruct (state h); try done.
  destruct r.
  - apply waiters_inv_set_state; [|exact Hh].
    apply waiters_inv_send, waiters_inv_clearTimeout; [done|].
    eapply handshake_timer_init; eauto.
  - apply waiters_inv_set_state; done.
Qed.

Lemma waiters_inv_initializedWritten (p : nat) (r : result unit) (w : World) :
  waiters_inv w → waiters_inv (initializedWritten p r w).
Proof.
  intros Hinv. unfold initializedWritten.
  destruct (handshakes w !! p) as [h|] eqn:Hh; [|done].
  destruct (state h); try done.
  destruct r; apply waiters_inv_set_state; auto with waiters.
Qed.

Lemma waiters_inv_childError (p : nat) (message : string) (w : World) :
  waiters_inv w → waiters_inv (childError p message w).
Proof.
  intros Hinv. unfold childError.
  destruct (handshakes w !! p) as [h|] eqn:Hh; [|done].
  destruct (errorListener h); [|done].
  pose proof Hinv as (_ & _ & C & _). destruct (C p h Hh) as [C1 C2].
  apply (waiters_inv_set_handshake (log _ _ w)); auto with waiters.
Qed.

Lemma waiters_inv_childExit (p : nat) (w : World) :
  waiters_inv w → waiters_inv (childExit p w).
Proof.
  intros Hinv. unfold childExit.
  destruct (handshakes w !! p); [|done].
  destruct (shuttingDown w); auto with waiters.
Qed.

Lemma waiters_inv_timeout (id : nat) (w : World) :
  waiters_inv w → waiters_inv (timeout id w).
Proof.
  intros Hinv. unfold timeout.
  destruct (timers w !! id) as [[d cb]|] eqn:Hid; [|done].
  cbn [callback]. destruct cb as [p|uri t].
  - assert (H1 : waiters_inv (set_timers (delete id (timers w)) w)).
    { apply (waiters_inv_clearTimeout w id); [done|].
      intros tm. rewrite Hid. intros [= <-]. eexists. reflexivity. }
    wsimpl. destruct (handshakes w !! p) as [h|] eqn:Hh; [|done].
    destruct (state h); try done.
    apply waiters_inv_set_state; done.
  - eapply waiters_inv_expire; eauto.
Qed.

Lemma waiters_inv_publishDiagnostics (params : PublishDiagnosticsParams) (w : World) :
  waiters_inv w → waiters_inv (publishDiagnostics params w).
Proof.
  intros Hinv. unfold publishDiagnostics, handleDiagnostics.
  destruct (connection w); [|done].
  apply waiters_inv_emit. auto with waiters.
Qed.

Lemma waiters_inv_step (w : World) (e : Event) :
  waiters_inv w → waiters_inv (step w e).
Proof.
  intros Hinv. destruct e; cbn [step].
  - by apply waiters_inv_call.
  - by apply waiters_inv_tick.
  - by apply waiters_inv_readFile.
  - by apply waiters_inv_response.
  - by apply waiters_inv_written.
  - by apply waiters_inv_initializeResponse.
  - by apply waiters_inv_initializedWritten.
  - by apply waiters_inv_childError.
  - by apply waiters_inv_childExit.
  - by apply waiters_inv_timeout.
  - by apply waiters_inv_publishDiagnostics.
Qed.

Lemma waiters_inv_run (w : World) (es : list Event) :
  waiters_inv w → waiters_inv (run w es).
Proof.
  revert w. induction es as [|e es IH]; intros w Hinv; [exact Hinv|].
  cbn [run foldl]. apply IH, waiters_inv_step, Hinv.
Qed.
End WaitersSteps.

(** ** What one event leaves alone *)

(** Case analysis on an innermost [match] of the goal. *)
Ltac inner_match :=
match goal with
| |- context [match ?x with _ => _ end] =>
    lazymatch x with
    | context [match _ with _ => _ end] => fail
    | _ => destruct x eqn:?
    end
end.

(** Unfolds the handler of an event down to the setters it applies. *)
Ltac explode :=
unfold Lsp.call, Lsp.tick, Lsp.readFile, Lsp.response, Lsp.written,
  Lsp.initializeResponse, Lsp.initializedWritten, Lsp.childError, Lsp.childExit,
  Lsp.timeout, Lsp.after_initialize, Lsp.after_ensureDocument, Lsp.shutdown_begin,
  Lsp.shutdown_finish, Lsp.shutdown_caught, Lsp.initialize, Lsp.start,
  Lsp.ensureDocument_resume, Lsp.assertConnection, Lsp.resolve, Lsp.off, Lsp.once;
wsimpl; repeat (inner_match; rewrite ?set_listeners_eq; wsimpl).

Section StepFrames.
Import Protocol PathUtil Lsp.

Lemma emit_frame (uri : string) (params : PublishDiagnosticsParams) (w : World) :
  invoked (emit uri params w) = invoked w ++ (waiter <$> listeners w uri)
  ∧ next (emit uri params w) = next w
  ∧ ∀ id, timers (emit uri params w) !! id
          = if decide (id ∈ timer <$> listeners w uri) then None
            else timers w !! id.
Proof.
  unfold emit. destruct (handlers_run params (listeners w uri)
                           (set_listeners uri [] w)) as [ts ->].
  rewrite set_listeners_eq. wsimpl. split; [reflexivity|]. split; [reflexivity|].
  intros id. apply deleted_timers_lookup.
Qed.

Lemma tasks_emit_settled (uri : string) (params : PublishDiagnosticsParams)
    (w : World) (t : nat) (task : Task) :
  tasks w !! t = Some task → pc task ≠ AwaitDiagnostics →
  tasks (emit uri params w) !! t = Some task.
Proof.
  intros Ht Hpc. unfold emit. apply handlers_tasks_settled; [|exact Hpc].
  rewrite set_listeners_eq. exact Ht.
Qed.

(** The handlers invoked by one event are those registered for the uri it
    publishes. *)
Lemma invoked_step (w : World) (e : Event) :
  invoked (step w e)
  = invoked w
    ++ match e with
       | PublishDiagnostics params =>
           match connection w with
           | Some _ => waiter <$> listeners w (diag_uri params)
           | None => []
           end
       | _ => []
       end.
Proof.
  destruct e; cbn [step]; try (explode; rewrite app_nil_r; reflexivity).
  unfold publishDiagnostics, handleDiagnostics.
  destruct (connection w); [|rewrite app_nil_r; reflexivity].
  destruct (emit_frame (diag_uri params) params
              (set_diagnostics (<[diag_uri params:=params]> (diagnostics w)) w))
    as (-> & _). reflexivity.
Qed.

Lemma next_step (w : World) (e : Event) : (next w ≤ next (step w e))%nat.
Proof.
  destruct e; cbn [step]; try (explode; lia).
  unfold publishDiagnostics, handleDiagnostics.
  destruct (connection w); [|lia].
  destruct (emit_frame (diag_uri params) params
              (set_diagnostics (<[diag_uri params:=params]> (diagnostics w)) w))
    as (_ & -> & _). wsimpl. lia.
Qed.

(** A timer that is set is cleared or left as it is. *)
Lemma timers_step (w : World) (e : Event) (id : nat) :
  (id < next w)%nat →
  timers (step w e) !! id = timers w !! id ∨ timers (step w e) !! id = None.
Proof.
  intros Hlt. destruct e; cbn [step];
    try (explode;
         rewrite ?lookup_insert_ne by lia;
         rewrite ?lookup_delete; repeat case_decide; auto).
  unfold publishDiagnostics, handleDiagnostics.
  destruct (connection w); [|auto].
  destruct (emit_frame (diag_uri params) params
              (set_diagnostics (<[diag_uri params:=params]> (diagnostics w)) w))
    as (_ & _ & ->). case_decide; auto.
Qed.

(** The outcome of a call does not change. *)
Lemma settled_step (w : World) (e : Event) (t : nat) (task : Task) :
  (t < next w)%nat →
  tasks w !! t = Some task → settled (pc task) →
  tasks (step w e) !! t = Some task.
Proof.
  intros Hlt Ht Hset.
  assert (Hne : ∀ t' op pc', tasks w !! t' = Some {| operation := op; pc := pc' |} →
                             ¬ settled pc' → t' ≠ t).
  { intros t' op pc' Ht' Hns ->. rewrite Ht in Ht'. injection Ht' as ->. done. }
  destruct e; cbn [step];
    try (explode; try exact Ht;
         (rewrite lookup_insert_ne; [exact Ht|]);
         first [lia | eapply Hne; [eassumption|exact (fun F => F)]]).
  unfold publishDiagnostics, handleDiagnostics.
  destruct (connection w); [|exact Ht].
  apply tasks_emit_settled; [exact Ht|]. destruct (pc task); done.
Qed.
End StepFrames.

(** ** Waiting for diagnostics *)
Section Waiting.
Import Protocol PathUtil Lsp.

Lemma listeners_emit (uri u : string) (params : PublishDiagnosticsParams) (w : World) :
  listeners (emit uri params w) u = if decide (uri = u) then [] else listeners w u.
Proof.
  unfold emit. destruct (handlers_run params (listeners w uri)
                           (set_listeners uri [] w)) as [ts ->].
  change (listeners (set_tasks _ _) u) with (listeners (set_listeners uri [] w) u).
  apply listeners_set_listeners.
Qed.

Lemma run_cons (w : World) (e : Event) (es : list Event) :
  run w (e :: es) = run (step w e) es.
Proof. reflexivity. Qed.

(** The readonly fields are never assigned. *)
Lemma readonly_step (w : World) (e : Event) :
  cwd (step w e) = cwd w
  ∧ workspaceRoot (step w e) = workspaceRoot w
  ∧ initializationTimeout (step w e) = initializationTimeout w
  ∧ diagnosticsTimeout (step w e) = diagnosticsTimeout w.
Proof.
  destruct e; cbn [step]; try (explode; done).
  unfold publishDiagnostics, handleDiagnostics, emit.
  destruct (connection w); [|done].
  match goal with
  | |- context [foldl ?f ?w0 ?ls] =>
      destruct (handlers_run params ls w0) as [ts ->]
  end.
  rewrite set_listeners_eq. done.
Qed.

Lemma readonly_run (w : World) (es : list Event) :
  cwd (run w es) = cwd w
  ∧ workspaceRoot (run w es) = workspaceRoot w
  ∧ initializationTimeout (run w es) = initializationTimeout w
  ∧ diagnosticsTimeout (run w es) = diagnosticsTimeout w.
Proof.
  revert w. induction es as [|e es IH]; intros w; [done|].
  rewrite run_cons. destruct (IH (step w e)) as (-> & -> & -> & ->).
  apply readonly_step.
Qed.

Lemma next_run (w : World) (es : list Event) : (next w ≤ next (run w es))%nat.
Proof.
  revert w. induction es as [|e es IH]; intros w; [done|].
  rewrite run_cons. pose proof (next_step w e). specialize (IH (step w e)). lia.
Qed.

Lemma timers_run (w : World) (es : list Event) (id : nat) :
  (id < next w)%nat →
  timers (run w es) !! id = timers w !! id ∨ timers (run w es) !! id = None.
Proof.
  revert w. induction es as [|e es IH]; intros w Hlt; [auto|].
  rewrite run_cons. pose proof (next_step w e) as Hn.
  destruct (IH (step w e) ltac:(lia)) as [H|H]; [|auto].
  rewrite H. apply timers_step, Hlt.
Qed.

(** The waiter of a timer that is set: its call is suspended and its
    handler registered. *)
Lemma timer_waiter (w : World) (tm : nat) (d : Z) (uri : string) (t : nat) :
  waiters_inv w →
  timers w !! tm = Some {| delay := d; callback := DiagnosticsTimeout uri t |} →
  {| waiter := t; timer := tm |} ∈ listeners w uri
  ∧ ∃ f, tasks w !! t
         = Some {| operation := GetDiagnostics f; pc := AwaitDiagnostics |}.
Proof.
  intros Hinv Htm. pose proof Hinv as (_ & _ & _ & _ & E & _).
  pose proof (E _ _ _ _ Htm) as Hl. split; [exact Hl|].
  exact (waiter_is_waiting w uri _ Hinv Hl).
Qed.

Lemma tasks_off (uri : string) (t : nat) (w : World) : tasks (off uri t w) = tasks w.
Proof.
  unfold off. destruct (diagnosticsEvents w !! uri); [|reflexivity].
  rewrite set_listeners_eq. reflexivity.
Qed.

(** The timer fires first. *)
Lemma waiter_times_out (w : World) (tm : nat) (d : Z) (uri : string)
    (t : nat) (f : string) :
  waiters_inv w →
  timers w !! tm = Some {| delay := d; callback := DiagnosticsTimeout uri t |} →
  tasks w !! t = Some {| operation := GetDiagnostics f; pc := AwaitDiagnostics |} →
  let w1 := step w (Fire tm) in
  (∀ u l, l ∈ listeners w1 u → waiter l ≠ t)
  ∧ tasks w1 !! t
    = Some {| operation := GetDiagnostics f;
              pc := Returned (VDiagnostics {| diag_uri := uri;
                                              diag_diagnostics := [] |}) |}
  ∧ timers w1 !! tm = None
  ∧ invoked w1 = invoked w.
Proof.
  intros Hinv Htm Ht w1. pose proof Hinv as (A & B & C & D & E & F & G).
  pose proof (E _ _ _ _ Htm) as Hl0.
  assert (Hw1 : w1 = set_pc t (GetDiagnostics f)
                       (Returned (VDiagnostics {| diag_uri := uri;
                                                  diag_diagnostics := [] |}))
                       (off uri t (set_timers (delete tm (timers w)) w))).
  { subst w1. cbn [step]. unfold timeout. rewrite Htm. cbn [callback].
    unfold resolve. rewrite tasks_off. wsimpl. rewrite Ht. reflexivity. }
  rewrite Hw1. split; [|split; [|split]].
  - intros u l.
    change (listeners (set_pc _ _ _ ?w') u) with (listeners w' u).
    rewrite (listeners_off uri u t) by apply F.
    case_decide as Hu.
    + rewrite list_elem_of_filter. tauto.
    + intros Hl Heq. apply Hu. symmetry. exact (G u uri l _ Hl Hl0 Heq).
  - apply tasks_set_pc.
  - wsimpl. unfold off. wsimpl. destruct (diagnosticsEvents w !! uri);
      rewrite ?set_listeners_eq; wsimpl; apply lookup_delete_eq.
  - wsimpl. unfold off. wsimpl. destruct (diagnosticsEvents w !! uri);
      rewrite ?set_listeners_eq; reflexivity.
Qed.

(** The notification arrives first. *)
Lemma waiter_is_notified (w : World) (tm : nat) (d : Z) (uri : string)
    (t : nat) (f : string) (params : PublishDiagnosticsParams) :
  waiters_inv w →
  timers w !! tm = Some {| delay := d; callback := DiagnosticsTimeout uri t |} →
  tasks w !! t = Some {| operation := GetDiagnostics f; pc := AwaitDiagnostics |} →
  diag_uri params = uri →
  is_Some (connection w) →
  let w2 := step w (PublishDiagnostics params) in
  timers w2 !! tm = None
  ∧ tasks w2 !! t
    = Some {| operation := GetDiagnostics f;
              pc := Returned (VDiagnostics params) |}
  ∧ (∀ u l, l ∈ listeners w2 u → waiter l ≠ t)
  ∧ diagnostics w2 !! uri = Some params.
Proof.
  intros Hinv Htm Ht Huri [c Hc] w2. pose proof Hinv as (A & B & C & D & E & F & G).
  pose proof (E _ _ _ _ Htm) as Hl0.
  subst w2. cbn [step]. unfold publishDiagnostics, handleDiagnostics.
  rewrite Hc, Huri.
  set (w0 := set_diagnostics _ w).
  destruct (emit_frame uri params w0) as (_ & _ & Htimers).
  split; [|split; [|split]].
  - rewrite Htimers, decide_True; [reflexivity|].
    apply list_elem_of_fmap. exists {| waiter := t; timer := tm |}. done.
  - unfold emit. apply handlers_tasks_resolved.
    + apply list_elem_of_fmap. exists {| waiter := t; timer := tm |}. done.
    + rewrite set_listeners_eq. exact Ht.
  - intros u l. rewrite listeners_emit. case_decide as Hu.
    + intros H. apply elem_of_nil in H. done.
    + intros Hl Heq. apply Hu. symmetry. exact (G u uri l _ Hl Hl0 Heq).
  - unfold emit.
    match goal with
    | |- context [foldl ?g ?w1 ?ls] =>
        destruct (handlers_run params ls w1) as [ts ->]
    end.
    rewrite set_listeners_eq. subst w0. wsimpl. apply lookup_insert_eq.
Qed.

(** A call that has its outcome keeps it, and its handler is not invoked. *)
Lemma settled_run (w : World) (es : list Event) (t : nat) (task : Task) :
  waiters_inv w →
  tasks w !! t = Some task → settled (pc task) →
  tasks (run w es) !! t = Some task
  ∧ ∃ new, invoked (run w es) = invoked w ++ new ∧ t ∉ new.
Proof.
  revert w. induction es as [|e es IH]; intros w Hinv Ht Hset.
  - split; [exact Ht|]. exists []. rewrite app_nil_r. split; [done|].
    apply not_elem_of_nil.
  - rewrite run_cons.
    assert (Hlt : (t < next w)%nat) by exact (waiters_inv_bound _ _ _ Hinv Ht).
    pose proof (settled_step w e t task Hlt Ht Hset) as Ht1.
    destruct (IH (step w e) (waiters_inv_step w e Hinv) Ht1 Hset)
      as (Ht2 & new & Hnew & Hnin).
    split; [exact Ht2|].
    rewrite Hnew, invoked_step, <- app_assoc.
    eexists. split; [reflexivity|].
    apply not_elem_of_app. split; [|exact Hnin].
    destruct e; try apply not_elem_of_nil.
    destruct (connection w); [|apply not_elem_of_nil].
    intros (l & Heq & Hl)%list_elem_of_fmap.
    destruct (waiter_is_waiting w _ l Hinv Hl) as [f Hw].
    rewrite <- Heq, Ht in Hw. injection Hw as ->. done.
Qed.
End Waiting.

(** ** The documents mirror the notifications *)
Section Documents.
Import Protocol PathUtil Lsp.

Lemma request_of_document (op : Operation) (uri : string) (m : Outgoing) :
  request_of op uri = Some m → document_of m = None.
Proof. destruct op; cbn; intros H; inversion H; reflexivity. Qed.

Lemma mirrors_emit (uri u : string) (params : PublishDiagnosticsParams) (w : World) :
  sent (emit u params w) = sent w
  ∧ openDocuments (emit u params w) = openDocuments w.
Proof.
  unfold emit. destruct (handlers_run params (listeners w u)
                           (set_listeners u [] w)) as [ts ->].
  rewrite set_listeners_eq. wsimpl. done.
Qed.

Lemma mirrors_step (w : World) (e : Event) (uri : string) :
  mirrors uri (sent w) (openDocuments w !! uri) →
  mirrors uri (sent (step w e)) (openDocuments (step w e) !! uri).
Proof.
  intros H. destruct e; cbn [step].
  all: try (explode; try exact H).
  all: try (apply mirrors_other; [exact H|discriminate]).
  1-4: apply mirrors_other; [exact H|];
       match goal with
       | Hr : request_of _ _ = Some _ |- _ =>
           rewrite (request_of_document _ _ _ Hr); discriminate
       end.
  - match goal with
    | |- context [<[?u := _]> _ !! _] =>
        destruct (decide (u = uri)) as [->|Hne]
    end.
    + rewrite lookup_insert_eq.
      match goal with
      | Ho : openDocuments w !! uri = Some _ |- _ => rewrite Ho in H
      end.
      apply mirrors_change; [exact H|].
      match goal with
      | Hn : negb (String.eqb _ _) = true |- _ =>
          apply negb_true_iff, String.eqb_neq in Hn; exact Hn
      end.
    + rewrite lookup_insert_ne by exact Hne.
      apply mirrors_other; [exact H|]. cbn. congruence.
  - match goal with
    | |- context [<[?u := _]> _ !! _] =>
        destruct (decide (u = uri)) as [->|Hne]
    end.
    + rewrite lookup_insert_eq.
      match goal with
      | Ho : openDocuments w !! uri = None |- _ => rewrite Ho in H
      end.
      apply mirrors_open. exact H.
    + rewrite lookup_insert_ne by exact Hne.
      apply mirrors_other; [exact H|]. cbn. congruence.
  - unfold publishDiagnostics, handleDiagnostics.
    destruct (connection w); [|exact H].
    destruct (mirrors_emit uri (diag_uri params) params
                (set_diagnostics (<[diag_uri params:=params]> (diagnostics w)) w))
      as [-> ->].
    exact H.
Qed.

Lemma mirrors_run (w : World) (es : list Event) (uri : string) :
  mirrors uri (sent w) (openDocuments w !! uri) →
  mirrors uri (sent (run w es)) (openDocuments (run w es) !! uri).
Proof.
  revert w. induction es as [|e es IH]; intros w H; [exact H|].
  rewrite run_cons. apply IH, mirrors_step, H.
Qed.

(** In every state the client reaches, the state kept of a document
    mirrors the notifications written for it. *)
Theorem documents_mirrored (cwd : string) (pid : Z)
    (options : TypeScriptLspClientOptions) (es : list Event) (uri : string) :
  let w := run (new_client cwd pid options) es in
  mirrors uri (sent w) (openDocuments w !! uri).
Proof.
  intros w. subst w. apply mirrors_run. cbn. rewrite lookup_empty. constructor.
Qed.

Lemma notifications_of_app (uri : string) (ms ms' : list Outgoing) :
  notifications_of uri (ms ++ ms')
  = notifications_of uri ms ++ notifications_of uri ms'.
Proof. apply filter_app. Qed.

Lemma notifications_of_other (uri : string) (m : Outgoing) :
  document_of m ≠ Some uri → notifications_of uri [m] = [].
Proof.
  intros Hne. unfold notifications_of. rewrite filter_cons_False by exact Hne.
  reflexivity.
Qed.

Lemma notifications_of_same (uri : string) (m : Outgoing) :
  document_of m = Some uri → notifications_of uri [m] = [m].
Proof.
  intros He. unfold notifications_of. rewrite filter_cons_True by exact He.
  reflexivity.
Qed.

(** What a mirrored state says of the notifications: a document without
    state has none; a document with a state was opened once, its
    notifications carry the versions 1, 2, ... up to the version kept, and
    the last of them carries the text kept. *)
Lemma mirrors_closed (uri : string) (ms : list Outgoing) :
  mirrors uri ms None → notifications_of uri ms = [].
Proof.
  intros H. remember None as st eqn:Hst. induction H; try discriminate.
  - reflexivity.
  - rewrite notifications_of_app, notifications_of_other by assumption.
    rewrite app_nil_r. auto.
Qed.

Lemma mirrors_opened (uri : string) (ms : list Outgoing) (state : DocumentState) :
  mirrors uri ms (Some state) →
  doc_uri state = uri
  ∧ 1 ≤ doc_version state
  ∧ length (filter (λ m, is_open m = true) (notifications_of uri ms)) = 1%nat
  ∧ omap version_of (notifications_of uri ms) = seqZ 1 (doc_version state)
  ∧ text_of <$> last (notifications_of uri ms) = Some (Some (doc_text state)).
Proof.
  intros H. remember (Some state) as st eqn:Hst. revert state Hst.
  induction H as [|ms languageId path text H _|ms existing text H IH Hne
                 |ms m st H IH Hne]; intros state Hst; try discriminate.
  - injection Hst as <-. cbn [doc_uri doc_version doc_text].
    rewrite notifications_of_app, (mirrors_closed _ _ H).
    rewrite notifications_of_same by reflexivity. cbn. done.
  - injection Hst as <-. cbn [doc_uri doc_version doc_text].
    destruct (IH existing eq_refl) as (Huri & Hv & Hopen & Hvs & Hlast).
    rewrite notifications_of_app, notifications_of_same
      by (cbn; congruence).
    split; [exact Huri|]. split; [lia|].
    rewrite filter_app, length_app, Hopen. split; [reflexivity|].
    rewrite omap_app, Hvs. split.
    + rewrite (seqZ_app 1 (doc_version existing) 1) by lia.
      change (seqZ (1 + doc_version existing) 1) with [1 + doc_version existing].
      cbn [omap list_omap version_of]. do 2 f_equal. lia.
    + rewrite last_snoc. reflexivity.
  - subst st. rewrite notifications_of_app, notifications_of_other by exact Hne.
    rewrite app_nil_r. apply IH. reflexivity.
Qed.

(** X14. In every state the client reaches: a document of which no state is
    kept has had no notification; a document of which a state is kept has
    been opened exactly once, its notifications carry the versions from 1
    to the version kept, and the last one carries the text kept. *)
Theorem documents_opened_once (cwd : string) (pid : Z)
    (options : TypeScriptLspClientOptions) (es : list Event) (uri : string) :
  let w := run (new_client cwd pid options) es in
  let written := notifications_of uri (sent w) in
  match openDocuments w !! uri with
  | None => written = []
  | Some state =>
      doc_uri state = uri
      ∧ 1 ≤ doc_version state
      ∧ length (filter (λ m, is_open m = true) written) = 1%nat
      ∧ omap version_of written = seqZ 1 (doc_version state)
      ∧ text_of <$> last written = Some (Some (doc_text state))
  end.
Proof.
  intros w written. subst written.
  pose proof (documents_mirrored cwd pid options es uri) as H.
  cbv zeta in H. fold w in H.
  destruct (openDocuments w !! uri) as [state|].
  - apply mirrors_opened, H.
  - apply mirrors_closed, H.
Qed.
End Documents.

(** * The claims *)

Section Claims.
Import NodePath PathUtil Protocol Locations Lsp.

(** C5. The definition operation returns plain locations: nothing for a null
    or absent answer, the location itself for a single location, and for a
    list every entry in order, a location link becoming the location of its
    target uri with its selection range when present, else its target
    range. *)
Theorem definition_locations (filePath : string) (position : Position)
    (a : DefinitionAnswer) :
  answer_of (GetDefinition filePath position) (of_answer a)
  = VLocations (of_location <$> answer_locations a)
  ∧ normalizeLocations Js.Null = []
  ∧ normalizeLocations Js.Undefined = []
  ∧ (∀ l, normalizeLocations (of_location l) = [of_location l])
  ∧ (∀ k, normalizeEntry (of_location_link k)
          = of_location {| uri := targetUri k;
                           range := match targetSelectionRange k with
                                    | Some r => r
                                    | None => targetRange k
                                    end |}).
Proof.
  split; [|split; [|split; [|split]]]; try reflexivity.
  - cbn [answer_of]. rewrite normalizeLocations_answer. reflexivity.
  - intros k. rewrite normalizeEntry_link. destruct k as [o u r [s|]]; reflexivity.
Qed.

(** C9, at the failing input. A path whose first segment below the root
    merely starts with two dots lies within the root and is rejected as
    escaping it. *)
Theorem toAbsolutePath_rejects_inner_dots :
  toAbsolutePath "/" "/ws" "..cache/a.ts"
  = Throw "Resolved path /ws/..cache/a.ts escapes workspace root /ws"
  ∧ NodePath.resolve "/" ["/ws"; "..cache/a.ts"] = "/ws/..cache/a.ts"
  ∧ within "/" "/ws" "/ws/..cache/a.ts" = true.
Proof. vm_compute. done. Qed.

(** C4. Diagnostics for a document whose report is cached are returned at
    once, no timer set and no handler registered. Otherwise the call sets a
    timer of the diagnostics timeout (1500 ms by default) and waits: as long
    as that timer is set, the next notification for the uri resolves the
    call with its report, and the timer firing resolves it with the empty
    report for the uri. *)
Theorem diagnostics_cached_or_waits (cwd : string) (pid : Z)
    (options : TypeScriptLspClientOptions) (es : list Event)
    (t : nat) (f uri : string) :
  let w := run (new_client cwd pid options) es in
  tasks w !! t
  = Some {| operation := GetDiagnostics f; pc := AwaitEnsureDocument uri |} →
  let w1 := step w (Tick t) in
  let empty := {| diag_uri := uri; diag_diagnostics := [] |} in
  (∀ cached, diagnostics w !! uri = Some cached →
     pc <$> tasks w1 !! t = Some (Returned (VDiagnostics cached))
     ∧ timers w1 = timers w
     ∧ diagnosticsEvents w1 = diagnosticsEvents w)
  ∧ (diagnostics w !! uri = None →
     pc <$> tasks w1 !! t = Some AwaitDiagnostics
     ∧ timers w1 !! next w
       = Some {| delay := default DEFAULT_DIAGNOSTICS_TIMEOUT_MS
                            (diagnosticsTimeoutMs options);
                 callback := DiagnosticsTimeout uri t |}
     ∧ ∀ es', let w2 := run w1 es' in
              is_Some (timers w2 !! next w) →
              pc <$> tasks w2 !! t = Some AwaitDiagnostics
              ∧ (∀ params, diag_uri params = uri → is_Some (connection w2) →
                   pc <$> tasks (step w2 (PublishDiagnostics params)) !! t
                   = Some (Returned (VDiagnostics params)))
              ∧ pc <$> tasks (step w2 (Fire (next w))) !! t
                = Some (Returned (VDiagnostics empty)))
  ∧ DEFAULT_DIAGNOSTICS_TIMEOUT_MS = 1500.
Proof.
  intros w Ht w1 empty.
  assert (Hinv : waiters_inv w) by apply waiters_inv_run, waiters_inv_new.
  assert (Hw1 : w1 = after_ensureDocument t (GetDiagnostics f) uri w).
  { subst w1. cbn [step]. apply tick_after_ensureDocument, Ht. }
  rewrite after_ensureDocument_diagnostics in Hw1.
  split; [|split; [|reflexivity]].
  - intros cached Hc. rewrite Hc in Hw1. rewrite Hw1.
    rewrite tasks_set_pc. done.
  - intros Hnone. rewrite Hnone in Hw1. cbv zeta in Hw1.
    assert (Hdelay : diagnosticsTimeout w
                     = default DEFAULT_DIAGNOSTICS_TIMEOUT_MS
                         (diagnosticsTimeoutMs options)).
    { subst w. destruct (readonly_run (new_client cwd pid options) es)
        as (_ & _ & _ & ->). reflexivity. }
    assert (Htm1 : timers w1 !! next w
                   = Some {| delay := diagnosticsTimeout w;
                             callback := DiagnosticsTimeout uri t |}).
    { rewrite Hw1. unfold once. rewrite set_listeners_eq. wsimpl.
      apply lookup_insert_eq. }
    assert (Hn1 : (next w < next w1)%nat).
    { rewrite Hw1. unfold once. rewrite set_listeners_eq. wsimpl. lia. }
    split; [rewrite Hw1, tasks_set_pc; done|].
    split; [rewrite Htm1, Hdelay; reflexivity|].
    intros es' w2 Hsome.
    assert (Hinv2 : waiters_inv w2).
    { subst w2 w1. apply waiters_inv_run, waiters_inv_step, Hinv. }
    assert (Htm2 : timers w2 !! next w
                   = Some {| delay := diagnosticsTimeout w;
                             callback := DiagnosticsTimeout uri t |}).
    { destruct (timers_run w1 es' (next w) Hn1) as [H|H].
      - fold w2 in H. rewrite H. exact Htm1.
      - fold w2 in H. rewrite H in Hsome. destruct Hsome as [? [=]]. }
    destruct (timer_waiter w2 _ _ _ _ Hinv2 Htm2) as [_ [f' Ht2]].
    split; [rewrite Ht2; done|]. split.
    + intros params Huri Hconn.
      destruct (waiter_is_notified w2 _ _ _ _ f' params Hinv2 Htm2 Ht2 Huri Hconn)
        as (_ & -> & _). done.
    + destruct (waiter_times_out w2 _ _ _ _ f' Hinv2 Htm2 Ht2) as (_ & -> & _).
      done.
Qed.

(** C7. A diagnostics waiter whose timer is set is suspended with its
    handler registered for the uri. When the timer fires the handler is
    removed from every uri and the call resolves with the empty report; no
    later event invokes the handler or changes the outcome. When a
    notification for the uri arrives first, the timer is cleared for good
    and the call resolves with the report of the notification. *)
Theorem waiter_deregisters_or_cancels (cwd : string) (pid : Z)
    (options : TypeScriptLspClientOptions) (es : list Event)
    (tm : nat) (d : Z) (uri : string) (t : nat) :
  let w := run (new_client cwd pid options) es in
  timers w !! tm = Some {| delay := d; callback := DiagnosticsTimeout uri t |} →
  let empty := {| diag_uri := uri; diag_diagnostics := [] |} in
  ({| waiter := t; timer := tm |} ∈ listeners w uri
   ∧ pc <$> tasks w !! t = Some AwaitDiagnostics)
  ∧ (let w1 := step w (Fire tm) in
     (∀ u l, l ∈ listeners w1 u → waiter l ≠ t)
     ∧ pc <$> tasks w1 !! t = Some (Returned (VDiagnostics empty))
     ∧ invoked w1 = invoked w
     ∧ ∀ es', (∃ new, invoked (run w1 es') = invoked w ++ new ∧ t ∉ new)
              ∧ pc <$> tasks (run w1 es') !! t
                = Some (Returned (VDiagnostics empty)))
  ∧ (∀ params, diag_uri params = uri → is_Some (connection w) →
     let w2 := step w (PublishDiagnostics params) in
     timers w2 !! tm = None
     ∧ pc <$> tasks w2 !! t = Some (Returned (VDiagnostics params))
     ∧ ∀ es', timers (run w2 es') !! tm = None
              ∧ pc <$> tasks (run w2 es') !! t
                = Some (Returned (VDiagnostics params))).
Proof.
  intros w Htm empty.
  assert (Hinv : waiters_inv w) by apply waiters_inv_run, waiters_inv_new.
  destruct (timer_waiter w _ _ _ _ Hinv Htm) as [Hl [f Ht]].
  split; [split; [exact Hl|rewrite Ht; done]|]. split.
  - intros w1.
    destruct (waiter_times_out w _ _ _ _ f Hinv Htm Ht) as (Hnl & Ht1 & _ & Hinv1).
    fold w1 in Hnl, Ht1, Hinv1.
    split; [exact Hnl|]. split; [rewrite Ht1; done|]. split; [exact Hinv1|].
    intros es'.
    assert (Hwi1 : waiters_inv w1) by apply waiters_inv_step, Hinv.
    destruct (settled_run w1 es' t _ Hwi1 Ht1 I) as (Ht' & new & Hnew & Hnin).
    split; [|rewrite Ht'; done].
    exists new. rewrite Hnew, Hinv1. done.
  - intros params Huri Hconn w2.
    destruct (waiter_is_notified w _ _ _ _ f params Hinv Htm Ht Huri Hconn)
      as (Htm2 & Ht2 & _). fold w2 in Htm2, Ht2.
    split; [exact Htm2|]. split; [rewrite Ht2; done|].
    intros es'.
    assert (Hwi2 : waiters_inv w2) by apply waiters_inv_step, Hinv.
    destruct (settled_run w2 es' t _ Hwi2 Ht2 I) as (Ht' & _).
    split; [|rewrite Ht'; done].
    assert (Hlt : (tm < next w2)%nat).
    { destruct Hinv as (_ & B & _). specialize (B _ _ Htm).
      pose proof (next_step w (PublishDiagnostics params)). fold w2 in H. lia. }
    destruct (timers_run w2 es' tm Hlt) as [H|H]; [rewrite H; exact Htm2|exact H].
Qed.
End Claims.

(** * The claims on the concrete runs *)
Section Witnesses.
Import NodePath PathUtil Protocol Locations Lsp Scenario.




Lemma diagnostics_cached_or_waits_witness :
  pc <$> tasks (step asked (Tick 5)) !! 5%nat = Some AwaitDiagnostics
  ∧ timers (step asked (Tick 5)) !! 6%nat
    = Some {| delay := 1500;
              callback := DiagnosticsTimeout "file:///ws/b.ts" 5 |}.
Proof.
  destruct (diagnostics_cached_or_waits "/" 4242 options
              (handshake ++ hover ++ asking) 5 "b.ts" "file:///ws/b.ts")
    as (_ & Hwaits & _); [vm_compute; reflexivity|].
  destruct Hwaits as (Hpc & Htm & _); [vm_compute; reflexivity|].
  split; [exact Hpc|exact Htm].
Defined.

Lemma waiter_deregisters_or_cancels_witness :
  pc <$> tasks (step waiting (Fire 6)) !! 5%nat
  = Some (Returned (VDiagnostics silence))
  ∧ (∀ u l, l ∈ listeners (step waiting (Fire 6)) u → waiter l ≠ 5%nat)
  ∧ timers (step waiting (PublishDiagnostics silence)) !! 6%nat = None.
Proof.
  destruct (waiter_deregisters_or_cancels "/" 4242 options
              (handshake ++ hover ++ asking ++ [Tick 5])
              6 1500 "file:///ws/b.ts" 5)
    as (_ & (Hoff & Hpc & _) & Hnotified); [vm_compute; reflexivity|].
  split; [exact Hpc|]. split; [exact Hoff|].
  destruct (Hnotified silence) as (Hclear & _);
    [reflexivity|vm_compute; eexists; reflexivity|exact Hclear].
Defined.

Lemma shutdown_idempotent_witness :
  let w1 := run hovered [Call Shutdown; Response 5 (Ok Js.Null); Written 5 (Ok ())] in
  connection w1 = None ∧ child w1 = None
  ∧ disposed w1 = [2%nat] ∧ killed w1 = [1%nat]
  ∧ sent (step w1 (Call Shutdown)) = sent w1.
Proof.
  intros w1.
  destruct (shutdown_idempotent fresh_client hovered 2 1 (Ok Js.Null) (Ok ()))
    as (_ & (_ & _ & _ & Hd & Hk & Hc & Hch) & (_ & Hs & _));
    [left; vm_compute; reflexivity|vm_compute; reflexivity..|].
  repeat split; assumption.
Defined.

Lemma after_shutdown_operations_witness :
  tasks (run shut_down [Call (GetHover "a.ts" position); Tick 6;
                        ReadFile 6 (Ok "x"); Tick 6]) !! 6%nat
  = Some {| operation := GetHover "a.ts" position;
            pc := Thrown "LSP connection has not been initialized" |}.
Proof.
  destruct (after_shutdown_operations shut_down 3 fulfilled capabilities
              (GetHover "a.ts" position) "a.ts" "/ws/a.ts" "x"
              ltac:(vm_compute; reflexivity) ltac:(vm_compute; reflexivity)
              ltac:(vm_compute; reflexivity) ltac:(vm_compute; reflexivity)
              ltac:(vm_compute; reflexivity) ltac:(vm_compute; reflexivity))
    as (_ & Hrejected & _).
  apply Hrejected. discriminate.
Defined.

(** C10 as it is stated fails: after the shutdown, diagnostics for the open
    and unchanged document [a.ts] return the cached report. *)
Lemma diagnostics_after_shutdown_return :
  let w := run shut_down [Call (GetDiagnostics "a.ts"); Tick 6;
                          ReadFile 6 (Ok "x"); Tick 6] in
  connection shut_down = None
  ∧ state <$> handshakes shut_down !! 3%nat = Some (Fulfilled capabilities)
  ∧ tasks w !! 6%nat
    = Some {| operation := GetDiagnostics "a.ts";
              pc := Returned (VDiagnostics report) |}
  ∧ ¬ (pc <$> tasks w !! 6%nat
       = Some (Thrown "LSP connection has not been initialized")).
Proof. vm_compute. repeat split. discriminate. Qed.

(** A shutdown called while another is in flight throws once the other has
    cleared the connection (calls 5 and 6). *)
Example overlapping_shutdown_throws :
  tasks (run hovered [Call Shutdown; Call Shutdown;
                      Response 5 (Ok Js.Null); Written 5 (Ok ());
                      Response 6 (Ok Js.Null)]) !! 6%nat
  = Some {| operation := Shutdown; pc := Thrown null_dispose |}.
Proof. vm_compute. reflexivity. Qed.

(** The file is edited between two hovers: one open notification, then,
    before the second request, one change notification with version 2. *)
Example edit_between_hovers :
  sent (run hovered [Call (GetHover "a.ts" position); Tick 5;
                     ReadFile 5 (Ok "y"); Tick 5])
  = [InitializeRequest 4242 "file:///ws" "/ws";
     InitializedNotification;
     DidOpenTextDocumentNotification "file:///ws/a.ts" "typescript" 1 "x";
     HoverRequest "file:///ws/a.ts" position;
     DidChangeTextDocumentNotification "file:///ws/a.ts" 2 "y";
     HoverRequest "file:///ws/a.ts" position].
Proof. vm_compute. reflexivity. Qed.

Example language_ids :
  resolveLanguageId "/ws/App.tsx" = "typescriptreact"
  ∧ resolveLanguageId "/ws/App.jsx" = "javascriptreact"
  ∧ resolveLanguageId "/ws/tool.mjs" = "javascript"
  ∧ resolveLanguageId "/ws/types.d.mts" = "typescript"
  ∧ resolveLanguageId "/ws/README.md" = "typescript".
Proof. vm_compute. done. Qed.
End Witnesses.

(** * Further properties of the paths *)

(** ** node:path on resolved paths *)
Section Resolved.
Import NodePath PathUtil Segment.

Lemma split_nonempty (s : string) : split s ≠ [].
Proof.
  induction s as [|c s IH]; cbn [split]; [done|].
  destruct (Ascii.eqb c slash); [done|]. destruct (split s); done.
Qed.

Lemma split_no_slash (s : string) : Forall (λ seg, no_slash seg = true) (split s).
Proof.
  induction s as [|c s IH]; cbn [split].
  - constructor; [reflexivity|constructor].
  - destruct (Ascii.eqb c slash) eqn:Hc.
    + constructor; [reflexivity|exact IH].
    + destruct (split s) as [|seg rest]; [repeat constructor; cbn; rewrite Hc; done|].
      inversion IH as [|? ? Hseg Hrest]; subst.
      constructor; [|exact Hrest]. cbn. rewrite Hc, Hseg. reflexivity.
Qed.

Lemma split_segment (s : string) : no_slash s = true → split s = [s].
Proof.
  induction s as [|c s IH]; [reflexivity|]. cbn [no_slash split].
  intros [Hc Hs]%andb_true_iff. apply negb_true_iff in Hc. rewrite Hc.
  rewrite (IH Hs). reflexivity.
Qed.

Lemma split_app_slash (a b : string) :
  split (a +:+ "/" +:+ b) = split a ++ split b.
Proof.
  induction a as [|c a IH]; [reflexivity|].
  change (String c a +:+ "/" +:+ b) with (String c (a +:+ "/" +:+ b)).
  cbn [split]. rewrite IH. destruct (Ascii.eqb c slash); [reflexivity|].
  pose proof (split_nonempty a). destruct (split a); [done|reflexivity].
Qed.

Lemma split_join (segs : list string) :
  Forall (λ seg, no_slash seg = true) segs → segs ≠ [] →
  split (join segs) = segs.
Proof.
  induction segs as [|s segs IH]; intros Hall Hne; [done|].
  inversion Hall as [|? ? Hs Hrest]; subst.
  destruct segs as [|s' segs]; [apply split_segment, Hs|].
  change (join (s :: s' :: segs)) with (s +:+ "/" +:+ join (s' :: segs)).
  rewrite split_app_slash, (split_segment s Hs), IH by done. reflexivity.
Qed.

Lemma normalize_onto_app (stack a b : list string) :
  normalize_onto stack (a ++ b)
  = normalize_onto (rev (normalize_onto stack a)) b.
Proof.
  revert stack. induction a as [|seg a IH]; intros stack.
  - cbn. rewrite rev_involutive. reflexivity.
  - cbn [app normalize_onto]. repeat case_match; apply IH.
Qed.

Lemma normalize_onto_clean (stack segs : list string) :
  Forall clean segs → normalize_onto stack segs = rev stack ++ segs.
Proof.
  revert stack. induction segs as [|seg segs IH]; intros stack Hall.
  - cbn. rewrite app_nil_r. reflexivity.
  - inversion Hall as [|? ? (_ & H1 & H2 & H3) Hrest]; subst.
    cbn [normalize_onto].
    rewrite (proj2 (String.eqb_neq _ _) H1), (proj2 (String.eqb_neq _ _) H2),
      (proj2 (String.eqb_neq _ _) H3).
    rewrite IH by exact Hrest. cbn [rev]. rewrite <- app_assoc. reflexivity.
Qed.

Lemma normalize_onto_ups (up popped stack rest : list string) :
  length popped = length up →
  normalize_onto (popped ++ stack) (map (fun _ => "..") up ++ rest)
  = normalize_onto stack rest.
Proof.
  revert popped. induction up as [|u up IH]; intros popped Hlen.
  - destruct popped; [reflexivity|discriminate].
  - destruct popped as [|x popped]; [discriminate|].
    cbn [map app normalize_onto String.eqb Ascii.eqb Bool.eqb tail].
    apply IH. cbn in Hlen. lia.
Qed.

Lemma normalize_onto_clean_stack (stack segs : list string) :
  Forall clean stack → Forall (λ seg, no_slash seg = true) segs →
  Forall clean (normalize_onto stack segs).
Proof.
  revert stack. induction segs as [|seg segs IH]; intros stack Hst Hsegs.
  - cbn. apply Forall_rev, Hst.
  - inversion Hsegs as [|? ? Hseg Hrest]; subst. cbn [normalize_onto].
    destruct (String.eqb_spec seg "") as [|H1]; [apply IH; assumption|].
    destruct (String.eqb_spec seg ".") as [|H2]; [apply IH; assumption|].
    destruct (String.eqb_spec seg "..") as [|H3].
    + apply IH; [|assumption]. destruct stack; [constructor|].
      inversion Hst; assumption.
    + apply IH; [|assumption]. constructor; [|assumption]. done.
Qed.

Lemma resolve_segments_clean (cwd : string) (args : list string) :
  Forall clean (resolve_segments cwd args).
Proof.
  unfold resolve_segments. apply normalize_onto_clean_stack; [constructor|].
  apply split_no_slash.
Qed.

Lemma clean_no_slash (segs : list string) :
  Forall clean segs → Forall (λ seg, no_slash seg = true) segs.
Proof. intros H. eapply Forall_impl; [exact H|]. intros seg Hc. apply Hc. Qed.

(** The segments of an absolute path followed by more segments. *)
Lemma normalize_onto_root (segs more : list string) :
  Forall clean segs →
  normalize_onto [] (split ("/" +:+ join segs) ++ more)
  = normalize_onto (rev segs) more.
Proof.
  intros Hall. change (split ("/" +:+ join segs)) with ("" :: split (join segs)).
  cbn [app normalize_onto String.eqb].
  destruct segs as [|s segs].
  - reflexivity.
  - rewrite split_join by (try apply clean_no_slash; done).
    rewrite normalize_onto_app, (normalize_onto_clean [] (s :: segs) Hall).
    reflexivity.
Qed.

(** [path.resolve] leaves a resolved path as it is. *)
Lemma resolve_segments_resolved (cwd : string) (segs : list string) :
  Forall clean segs →
  resolve_segments cwd ["/" +:+ join segs] = segs.
Proof.
  intros Hall. unfold resolve_segments.
  change (resolve_join (rev ["/" +:+ join segs] ++ [cwd]) "")
    with (("/" +:+ join segs) +:+ "/" +:+ "").
  rewrite split_app_slash, normalize_onto_root by exact Hall.
  cbn. apply rev_involutive.
Qed.

Lemma resolve_idempotent (cwd : string) (args : list string) :
  resolve cwd [resolve cwd args] = resolve cwd args.
Proof.
  unfold resolve at 1 3. f_equal. f_equal.
  apply resolve_segments_resolved, resolve_segments_clean.
Qed.
End Resolved.

(** ** Paths given back to the guard *)
Section GuardRoundTrip.
Import NodePath PathUtil Segment.

Lemma strip_common_split (from to : list string) :
  ∃ common, from = common ++ fst (strip_common from to)
            ∧ to = common ++ snd (strip_common from to).
Proof.
  revert to. induction from as [|f from IH]; intros to.
  - exists []. done.
  - destruct to as [|t to]; [exists []; done|]. cbn [strip_common].
    destruct (String.eqb_spec f t) as [->|Hne]; [|exists []; done].
    destruct (IH to) as (common & H1 & H2). exists (t :: common).
    cbn [app]. rewrite <- H1, <- H2. done.
Qed.

Lemma join_nonempty (s : string) (rest : list string) :
  s ≠ "" → join (s :: rest) ≠ "".
Proof.
  intros Hs. destruct rest; [exact Hs|].
  change (join (s :: s0 :: rest)) with (s +:+ "/" +:+ join (s0 :: rest)).
  destruct s; done.
Qed.

Lemma ups_no_slash (up : list string) :
  Forall (λ seg, no_slash seg = true) (map (fun _ : string => "..") up).
Proof. induction up; constructor; done. Qed.

(** The relative path between two resolved paths, as [path.resolve]
    reads it. *)
Lemma relative_spec (cwd from to : string) :
  let '(up, down) := strip_common (resolve_segments cwd [from])
                       (resolve_segments cwd [to]) in
  let rel := relative cwd from to in
  (rel = "" ↔ up = [] ∧ down = [])
  ∧ isAbsolute rel = false
  ∧ (rel ≠ "" → split rel = map (fun _ => "..") up ++ down).
Proof.
  unfold relative.
  destruct (strip_common_split (resolve_segments cwd [from])
              (resolve_segments cwd [to])) as (common & HF & HT).
  destruct (strip_common _ _) as [up down] eqn:Hs. cbn [fst snd] in HF, HT.
  assert (Hdown : Forall clean down).
  { pose proof (resolve_segments_clean cwd [to]) as H. rewrite HT in H.
    apply Forall_app in H as [_ H]. exact H. }
  set (segs := map (fun _ : string => "..") up ++ down).
  assert (Hns : Forall (λ seg, no_slash seg = true) segs).
  { apply Forall_app. split; [apply ups_no_slash|apply clean_no_slash, Hdown]. }
  assert (Hne : Forall (λ seg, seg ≠ "") segs).
  { apply Forall_app. split.
    - clear. induction up; constructor; done.
    - eapply Forall_impl; [exact Hdown|]. intros seg H. apply H. }
  assert (Habs : Forall (λ seg, isAbsolute seg = false) segs).
  { eapply Forall_impl; [exact Hns|]. intros [|c seg]; [done|].
    cbn. intros [H _]%andb_true_iff. apply negb_true_iff in H. exact H. }
  split; [|split].
  - split.
    + intros Hrel. destruct segs as [|s rest] eqn:Hsegs.
      * subst segs. apply app_eq_nil in Hsegs as [Hup ->].
        destruct up; [done|discriminate].
      * inversion Hne; subst. exfalso. eapply join_nonempty; eassumption.
    + intros [-> ->]. reflexivity.
  - apply isAbsolute_join; assumption.
  - intros Hrel. apply split_join; [exact Hns|]. intros Hnil.
    apply Hrel. rewrite Hnil. reflexivity.
Qed.

(** [path.resolve(from, path.relative(from, to))] is [path.resolve(to)]. *)
Lemma resolve_relative (cwd from to : string) :
  resolve cwd [resolve cwd [from]; relative cwd from to] = resolve cwd [to].
Proof.
  unfold resolve at 1 3. f_equal. f_equal.
  pose proof (relative_spec cwd from to) as Hspec.
  destruct (strip_common_split (resolve_segments cwd [from])
              (resolve_segments cwd [to])) as (common & HF & HT).
  destruct (strip_common _ _) as [up down] eqn:Hs. cbn [fst snd] in HF, HT.
  cbv zeta in Hspec. destruct Hspec as (Hempty & Habs & Hsplit).
  set (rel := relative cwd from to) in *.
  set (R := resolve cwd [from]).
  assert (HFc : Forall clean (resolve_segments cwd [from]))
    by apply resolve_segments_clean.
  assert (HTc : Forall clean (resolve_segments cwd [to]))
    by apply resolve_segments_clean.
  unfold resolve_segments at 1.
  destruct (String.eqb_spec rel "") as [Hrel|Hrel].
  - rewrite Hrel.
    change (resolve_join (rev [R; ""] ++ [cwd]) "") with (R +:+ "/" +:+ "").
    rewrite split_app_slash. unfold R, resolve.
    rewrite normalize_onto_root by exact HFc.
    cbn [split normalize_onto String.eqb]. rewrite rev_involutive.
    apply Hempty in Hrel as [-> ->]. rewrite HT, HF. reflexivity.
  - assert (Hjoin : resolve_join (rev [R; rel] ++ [cwd]) ""
                    = R +:+ "/" +:+ (rel +:+ "/" +:+ "")).
    { cbn [rev app resolve_join].
      rewrite (proj2 (String.eqb_neq _ _) Hrel), Habs. reflexivity. }
    rewrite Hjoin, !split_app_slash, (Hsplit Hrel). unfold R, resolve.
    rewrite normalize_onto_root by exact HFc.
    rewrite HF at 1. rewrite rev_app_distr, <- app_assoc.
    rewrite normalize_onto_ups by apply length_rev.
    rewrite normalize_onto_app.
    assert (Hdown : Forall clean down).
    { rewrite HT in HTc. apply Forall_app in HTc as [_ H]. exact H. }
    rewrite (normalize_onto_clean _ down Hdown).
    cbn [split normalize_onto String.eqb].
    rewrite !rev_involutive. symmetry. exact HT.
Qed.
End GuardRoundTrip.

(** ** The guard on its own results and on displayed paths *)
Section Displayed.
Import NodePath PathUtil Segment.

Lemma relative_resolved_to (cwd from to : string) :
  relative cwd from (resolve cwd [to]) = relative cwd from to.
Proof.
  unfold relative, resolve.
  rewrite resolve_segments_resolved by apply resolve_segments_clean.
  reflexivity.
Qed.

Lemma relative_resolved_from (cwd from to : string) :
  relative cwd (resolve cwd [from]) to = relative cwd from to.
Proof.
  unfold relative, resolve.
  rewrite resolve_segments_resolved by apply resolve_segments_clean.
  reflexivity.
Qed.

Lemma strip_common_same (segs : list string) : strip_common segs segs = ([], []).
Proof.
  induction segs as [|s segs IH]; [reflexivity|].
  cbn. rewrite String.eqb_refl. exact IH.
Qed.

Lemma relative_same_segments (cwd from to : string) :
  resolve_segments cwd [from] = resolve_segments cwd [to] →
  relative cwd from to = "".
Proof.
  intros H. unfold relative. rewrite H, strip_common_same. reflexivity.
Qed.

(** The guard in terms of the relative path from the root. *)
Lemma toAbsolutePath_absolute (cwd workspaceRoot inputPath : string) :
  isAbsolute inputPath = true →
  toAbsolutePath cwd workspaceRoot inputPath
  = if startsWith (relative cwd workspaceRoot inputPath) ".."
    then Throw ("Resolved path " +:+ resolve cwd [inputPath]
                +:+ " escapes workspace root " +:+ resolve cwd [workspaceRoot])
    else Ok (resolve cwd [inputPath]).
Proof.
  intros Habs. unfold toAbsolutePath. rewrite Habs.
  rewrite relative_resolved_from, relative_resolved_to.
  pose proof (relative_spec cwd workspaceRoot inputPath) as Hspec.
  destruct (strip_common _ _). destruct Hspec as (_ & -> & _).
  rewrite orb_false_r. reflexivity.
Qed.

Lemma toAbsolutePath_relative (cwd workspaceRoot inputPath : string) :
  isAbsolute inputPath = false →
  let candidate := resolve cwd [resolve cwd [workspaceRoot]; inputPath] in
  toAbsolutePath cwd workspaceRoot inputPath
  = if startsWith (relative cwd workspaceRoot candidate) ".."
    then Throw ("Resolved path " +:+ candidate
                +:+ " escapes workspace root " +:+ resolve cwd [workspaceRoot])
    else Ok candidate.
Proof.
  intros Habs candidate. unfold toAbsolutePath. rewrite Habs. fold candidate.
  rewrite relative_resolved_from.
  pose proof (relative_spec cwd workspaceRoot candidate) as Hspec.
  destruct (strip_common _ _). destruct Hspec as (_ & -> & _).
  rewrite orb_false_r. reflexivity.
Qed.

Lemma resolve_absolute (cwd : string) (args : list string) :
  isAbsolute (resolve cwd args) = true.
Proof. reflexivity. Qed.

(** What the guard returns has been resolved and does not start, from the
    root, with two dots. *)
Lemma toAbsolutePath_result (cwd workspaceRoot inputPath candidate : string) :
  toAbsolutePath cwd workspaceRoot inputPath = Ok candidate →
  ∃ args, candidate = resolve cwd args
          ∧ startsWith (relative cwd workspaceRoot candidate) ".." = false.
Proof.
  intros H. destruct (isAbsolute inputPath) eqn:Habs.
  - rewrite toAbsolutePath_absolute in H by exact Habs.
    destruct (startsWith _ _) eqn:Hs; [discriminate|]. injection H as <-.
    exists [inputPath]. rewrite relative_resolved_to. done.
  - rewrite toAbsolutePath_relative in H by exact Habs. cbv zeta in H.
    destruct (startsWith _ _) eqn:Hs; [discriminate|]. injection H as <-.
    eexists. done.
Qed.

(** X3. What the guard returns is an absolute path that [path.resolve]
    leaves as it is, and the guard returns it unchanged when it is given
    back: a path that has been accepted stays accepted. *)
Theorem toAbsolutePath_stable (cwd workspaceRoot inputPath candidate : string) :
  toAbsolutePath cwd workspaceRoot inputPath = Ok candidate →
  isAbsolute candidate = true
  ∧ resolve cwd [candidate] = candidate
  ∧ toAbsolutePath cwd workspaceRoot candidate = Ok candidate.
Proof.
  intros H. destruct (toAbsolutePath_result _ _ _ _ H) as (args & Hc & Hs).
  rewrite Hc in Hs |- *.
  split; [apply resolve_absolute|]. split; [apply resolve_idempotent|].
  rewrite toAbsolutePath_absolute by apply resolve_absolute.
  rewrite Hs, resolve_idempotent. reflexivity.
Qed.

(** X4. The path the hover tool shows for a file the guard has accepted is
    accepted by the guard and names the same file: it is the path from the
    root, or the absolute path when the file is the root itself. *)
Theorem toDisplayFile_round_trip (cwd workspaceRoot inputPath absolutePath : string) :
  toAbsolutePath cwd workspaceRoot inputPath = Ok absolutePath →
  let shown := Server.toDisplayFile cwd workspaceRoot absolutePath in
  toAbsolutePath cwd workspaceRoot shown = Ok absolutePath
  ∧ shown = (if String.eqb absolutePath (resolve cwd [workspaceRoot])
             then absolutePath
             else relative cwd workspaceRoot absolutePath).
Proof.
  intros H shown.
  destruct (toAbsolutePath_result _ _ _ _ H) as (args & Hargs & Hdots).
  assert (Habs : isAbsolute absolutePath = true)
    by (rewrite Hargs; apply resolve_absolute).
  assert (Hres : resolve cwd [absolutePath] = absolutePath)
    by (rewrite Hargs; apply resolve_idempotent).
  assert (Hagain : toAbsolutePath cwd workspaceRoot absolutePath = Ok absolutePath).
  { rewrite toAbsolutePath_absolute by exact Habs. rewrite Hdots, Hres.
    reflexivity. }
  clear args Hargs.
  subst shown. unfold Server.toDisplayFile. rewrite Hdots, orb_false_r.
  pose proof (relative_spec cwd workspaceRoot absolutePath) as Hspec.
  pose proof (strip_common_split (resolve_segments cwd [workspaceRoot])
                (resolve_segments cwd [absolutePath])) as (common & HF & HT).
  destruct (strip_common _ _) as [up down]. cbn [fst snd] in HF, HT.
  cbv zeta in Hspec. destruct Hspec as (Hempty & Hrel_abs & _).
  set (rel := relative cwd workspaceRoot absolutePath) in *.
  destruct (String.eqb_spec rel "") as [Hrel|Hrel].
  - split; [exact Hagain|].
    apply Hempty in Hrel as [-> ->].
    assert (Heq : absolutePath = resolve cwd [workspaceRoot]).
    { rewrite <- Hres. unfold resolve. rewrite HT, HF. reflexivity. }
    rewrite <- Heq, String.eqb_refl. reflexivity.
  - split.
    + rewrite toAbsolutePath_relative by exact Hrel_abs. cbv zeta.
      unfold rel at 1 2 3. rewrite resolve_relative, Hres.
      fold rel. rewrite Hdots. reflexivity.
    + destruct (String.eqb_spec absolutePath (resolve cwd [workspaceRoot]))
        as [Heq|_]; [|reflexivity].
      exfalso. apply Hrel. apply relative_same_segments.
      rewrite Heq. unfold resolve. symmetry.
      apply resolve_segments_resolved, resolve_segments_clean.
Qed.

Section WithUrl.
Variable fileURLToPath : string → result string.

(** X5. A location whose file the guard accepts is shown by its path from
    the root, "." standing for the root itself, and what is shown is
    accepted by the guard and names the same file; a location whose file
    the guard rejects is shown by its full path. *)
Theorem toDisplayPath_round_trip (cwd workspaceRoot uri filePath : string) :
  (if startsWith uri "file://" then fileURLToPath uri = Ok filePath
   else uri = filePath) →
  isAbsolute filePath = true →
  let shown := Formatter.toDisplayPath fileURLToPath cwd workspaceRoot uri in
  match toAbsolutePath cwd workspaceRoot filePath with
  | Ok absolutePath =>
      toAbsolutePath cwd workspaceRoot shown = Ok absolutePath
      ∧ shown = (if String.eqb absolutePath (resolve cwd [workspaceRoot])
                 then "."
                 else relative cwd workspaceRoot filePath)
  | Throw _ => shown = filePath
  end.
Proof.
  intros Huri Habs shown.
  assert (Hshown : shown
                   = let relative := relative cwd workspaceRoot filePath in
                     if String.eqb relative "" then "."
                     else if startsWith relative ".." then filePath
                     else relative).
  { subst shown. unfold Formatter.toDisplayPath.
    destruct (startsWith uri "file://"); [rewrite Huri|rewrite <- Huri];
      reflexivity. }
  cbv zeta in Hshown. clearbody shown. clear Huri.
  rewrite toAbsolutePath_absolute by exact Habs.
  pose proof (relative_spec cwd workspaceRoot filePath) as Hspec.
  destruct (strip_common _ _) as [up down] eqn:Hstrip.
  cbv zeta in Hspec. destruct Hspec as (Hempty & Hrel_abs & _).
  set (rel := relative cwd workspaceRoot filePath) in *.
  destruct (startsWith rel "..") eqn:Hdots.
  - rewrite Hshown. destruct (String.eqb_spec rel "") as [Hrel|_];
      [|reflexivity].
    rewrite Hrel in Hdots. discriminate.
  - destruct (String.eqb_spec rel "") as [Hrel|Hrel].
    + assert (Hroot : resolve cwd [filePath] = resolve cwd [workspaceRoot]).
      { apply Hempty in Hrel as [-> ->].
        destruct (strip_common_split (resolve_segments cwd [workspaceRoot])
                    (resolve_segments cwd [filePath])) as (common & HF & HT).
        rewrite Hstrip in HF, HT. cbn [fst snd] in HF, HT.
        unfold resolve. rewrite HT, HF. reflexivity. }
      rewrite Hroot, String.eqb_refl. split; [|exact Hshown].
      rewrite Hshown, toAbsolutePath_relative by reflexivity. cbv zeta.
      assert (Hdot : resolve cwd [resolve cwd [workspaceRoot]; "."]
                     = resolve cwd [workspaceRoot]).
      { unfold resolve at 1 3. f_equal. f_equal. unfold resolve_segments at 1.
        change (resolve_join (rev [resolve cwd [workspaceRoot]; "."] ++ [cwd]) "")
          with (resolve cwd [workspaceRoot] +:+ "/" +:+ ("." +:+ "/" +:+ "")).
        rewrite split_app_slash. unfold resolve.
        rewrite normalize_onto_root by apply resolve_segments_clean.
        cbn. apply rev_involutive. }
      rewrite Hdot, relative_resolved_to, relative_same_segments by reflexivity.
      reflexivity.
    + split.
      * rewrite Hshown, toAbsolutePath_relative by exact Hrel_abs. cbv zeta.
        unfold rel at 1 2 3. rewrite resolve_relative, relative_resolved_to.
        fold rel. rewrite Hdots. reflexivity.
      * rewrite Hshown.
        destruct (String.eqb_spec (resolve cwd [filePath])
                    (resolve cwd [workspaceRoot])) as [Heq|_]; [|reflexivity].
        exfalso. apply Hrel. apply relative_same_segments.
        apply (f_equal (λ p, resolve_segments cwd [p])) in Heq.
        unfold resolve in Heq.
        rewrite !resolve_segments_resolved in Heq
          by apply resolve_segments_clean.
        symmetry. exact Heq.
Qed.
End WithUrl.
End Displayed.

(** * Further properties of the formatter, the logger and the tools *)

(** ** The console logger *)
Section ConsoleLogger.
Import Lsp Logger.
Variable stringify : Details → string.

(** X7. The console logger writes a message when its level is at least the
    minimum level, which is info unless given: an error is always written;
    what is written under one minimum is written, and is the same line,
    under every lower minimum; and empty details are written as no
    details. *)
Theorem console_logger_levels (timestamp message : string)
    (level : LogLevel) (details : option Details) :
  (∀ options,
     is_Some (log stringify options timestamp level message details)
     ↔ priority (default LogInfo (minimumLevel options)) ≤ priority level)
  ∧ (∀ options, is_Some (log stringify options timestamp LogError message details))
  ∧ log stringify {| minimumLevel := None |} timestamp LogDebug message details
    = None
  ∧ (∀ min min' line,
       priority min' ≤ priority min →
       log stringify {| minimumLevel := Some min |} timestamp level message details
       = Some line →
       log stringify {| minimumLevel := Some min' |} timestamp level message details
       = Some line)
  ∧ (∀ options,
       log stringify options timestamp level message (Some [])
       = log stringify options timestamp level message None).
Proof.
  split; [|split; [|split; [|split]]].
  - intros options. unfold log. cbv zeta.
    destruct (Z.ltb_spec (priority level)
                (priority (default LogInfo (minimumLevel options)))).
    + split; [intros [? [=]]|lia].
    + split; [lia|eauto].
  - intros [[[]|]]; cbn; eauto.
  - reflexivity.
  - intros min min' line Hle. unfold log. cbv zeta. cbn [from_option minimumLevel id].
    destruct (Z.ltb_spec (priority level) (priority min)); intros Hline;
      [discriminate Hline|].
    destruct (Z.ltb_spec (priority level) (priority min')); [lia|exact Hline].
  - intros options. reflexivity.
Qed.
End ConsoleLogger.

(** ** The outline of a document *)
Section OutlineProps.
Import Protocol Formatter.

Lemma DocumentSymbol_nested_ind (P : DocumentSymbol → Prop) :
  (∀ name detail kind range selectionRange,
     P (mkDocumentSymbol name detail kind range selectionRange None)) →
  (∀ name detail kind range selectionRange children,
     Forall P children →
     P (mkDocumentSymbol name detail kind range selectionRange (Some children))) →
  ∀ symbol, P symbol.
Proof.
  intros Hleaf Hnode. fix IH 1. intros [n d k r s [children|]].
  - apply Hnode. induction children as [|c cs IHcs]; constructor.
    + apply IH.
    + exact IHcs.
  - apply Hleaf.
Qed.

Lemma startsWith_empty (s : string) : startsWith s "" = true.
Proof. destruct s; reflexivity. Qed.

Lemma startsWith_app (p s : string) : startsWith (p +:+ s) p = true.
Proof.
  induction p as [|c p IH]; [apply startsWith_empty|].
  change (String c p +:+ s) with (String c (p +:+ s)).
  cbn [startsWith]. rewrite Ascii.eqb_refl. exact IH.
Qed.

Lemma startsWith_prefix (s p q : string) :
  startsWith s (p +:+ q) = true → startsWith s p = true.
Proof.
  revert s. induction p as [|c p IH]; intros s; [intros _; apply startsWith_empty|].
  change (String c p +:+ q) with (String c (p +:+ q)).
  destruct s as [|b s]; [discriminate|]. cbn [startsWith].
  intros [H1 H2]%andb_true_iff. rewrite H1. cbn. apply IH, H2.
Qed.

Lemma spaces_deeper (depth : nat) : spaces (S depth) = spaces depth +:+ "  ".
Proof.
  induction depth as [|d IH]; [reflexivity|].
  change ("  " +:+ spaces (S d) = "  " +:+ (spaces d +:+ "  ")).
  rewrite <- IH. reflexivity.
Qed.

Lemma symbol_line_indented (symbol : DocumentSymbol) (depth : nat) :
  startsWith (symbol_line symbol depth) (spaces depth +:+ "- ") = true.
Proof.
  unfold symbol_line. destruct depth as [|d].
  - cbn [Nat.ltb Nat.leb spaces]. apply (startsWith_app "- ").
  - change (0 <? S d)%nat with true. cbv iota.
    apply (startsWith_app (spaces (S d) +:+ "- ")).
Qed.

(** X6. The outline of a symbol has one line for every symbol of its tree,
    nested ones included, the line of the symbol itself coming first; the
    line of the symbol starts with two spaces for every level of its
    depth and a dash, and every line of its tree is indented at least as
    much. *)
Theorem outline_lines (symbol : DocumentSymbol) (workspaceRoot : string)
    (depth : nat) :
  let lines := formatDocumentSymbol symbol workspaceRoot depth in
  length lines = symbols symbol
  ∧ head lines = Some (symbol_line symbol depth)
  ∧ startsWith (symbol_line symbol depth) (spaces depth +:+ "- ") = true
  ∧ Forall (λ line, startsWith line (spaces depth) = true) lines.
Proof.
  revert depth. induction symbol as [n d k r s|n d k r s children IH]
    using DocumentSymbol_nested_ind; intros depth lines; subst lines.
  - cbn [formatDocumentSymbol symbols sym_children length head].
    split; [reflexivity|]. split; [reflexivity|].
    split; [apply symbol_line_indented|].
    constructor; [|constructor].
    eapply startsWith_prefix, symbol_line_indented.
  - cbn [formatDocumentSymbol symbols sym_children length head].
    split; [|split; [reflexivity|split; [apply symbol_line_indented|]]].
    + f_equal. induction IH as [|c cs Hc _ IHcs]; [reflexivity|].
      cbn [flat_map map list_sum]. rewrite length_app, IHcs.
      destruct (Hc (S depth)) as [-> _]. reflexivity.
    + constructor; [eapply startsWith_prefix, symbol_line_indented|].
      induction IH as [|c cs Hc _ IHcs]; [constructor|].
      cbn [flat_map]. apply Forall_app. split; [|exact IHcs].
      destruct (Hc (S depth)) as (_ & _ & _ & Hall).
      eapply Forall_impl; [exact Hall|]. intros line Hline.
      rewrite spaces_deeper in Hline. eapply startsWith_prefix, Hline.
Qed.
End OutlineProps.

(** ** The tools and the path guard *)
Section ToolGuard.
Import Protocol PathUtil Lsp Server.

(** X8. Only the hover tool checks the path before it calls the client: for a
    path the guard rejects it throws at once and leaves the client as it
    is, while every other tool calls the client, which starts the language
    server if it has not been started. *)
Theorem only_hover_checks_first (root : string) (call : ToolCall) (w : World)
    (e : string) :
  toAbsolutePath (cwd w) root (filePath_of_call call) = Throw e →
  initializePromise w = None →
  if is_hover call then handle root call w = Throw e
  else ∃ w', handle root call w = Ok w'
             ∧ spawned w'
               = spawned w
                 ++ [{| command := default "tsgo" (tsgoPath (options w));
                        args := ["--lsp"; "--stdio"]
                                ++ default [] (tsgoArgs (options w));
                        spawn_cwd := workspaceRoot w |}]
             ∧ ∃ p, tasks w' !! next w
                    = Some {| operation := operation_of call;
                              pc := AwaitInitialize p |}.
Proof.
  intros Hguard Hmemo.
  destruct call; cbn [is_hover handle filePath_of_call] in *;
    [rewrite Hguard; reflexivity|..];
    (eexists; split; [reflexivity|]);
    unfold Lsp.call, initialize, start; cbn [operation_of]; wsimpl;
    rewrite Hmemo; wsimpl; (split; [reflexivity|]);
    eexists; apply lookup_insert_eq.
Qed.
End ToolGuard.

(** ** Normalisation of arbitrary answers *)
Section AnyAnswer.
Import Protocol Locations.

Lemma normalizeEntry_not_link (entry : Js.value) :
  isLocationLink (normalizeEntry entry) = false.
Proof.
  unfold normalizeEntry. destruct (isLocationLink entry) eqn:H; [reflexivity|].
  exact H.
Qed.

(** X9. Whatever the entries of a list answer are, the result has one entry for
    each, none of them is a location link, an entry that is no link is
    left as it is, and normalising the result again changes nothing. *)
Theorem normalizeLocations_list (items : list Js.value) :
  let result := normalizeLocations (Js.Arr items) in
  length result = length items
  ∧ Forall (λ entry, isLocationLink entry = false) result
  ∧ (∀ i entry, items !! i = Some entry → isLocationLink entry = false →
       result !! i = Some entry)
  ∧ normalizeLocations (Js.Arr result) = result.
Proof.
  intros result. subst result. cbn [normalizeLocations Js.truthy negb].
  split; [apply length_map|]. split; [|split].
  - change (map normalizeEntry items) with (normalizeEntry <$> items).
    apply Forall_fmap, Forall_true. intros e. apply normalizeEntry_not_link.
  - intros i entry Hi Hl.
    change (map normalizeEntry items) with (normalizeEntry <$> items).
    rewrite list_lookup_fmap, Hi. cbn. unfold normalizeEntry. rewrite Hl.
    reflexivity.
  - rewrite map_map. apply map_ext. intros e.
    unfold normalizeEntry at 1. rewrite normalizeEntry_not_link. reflexivity.
Qed.
End AnyAnswer.


(** * Further properties of the client *)

(** ** What fails before anything is written *)
Section EarlyFailures.
Import Protocol PathUtil Lsp.

(** X10. An operation whose path the guard rejects, or whose file cannot be
    read, throws that error once initialization is through; nothing is
    written to the server and no document state is touched. *)
Theorem early_failure_sends_nothing (w : World) (t p : nat) (op : Operation)
    (h : Handshake) (result : Js.value) (filePath : string) :
  tasks w !! t = Some {| operation := op; pc := AwaitInitialize p |} →
  handshakes w !! p = Some h →
  state h = Fulfilled result →
  filePath_of op = Some filePath →
  (∀ message,
     toAbsolutePath (cwd w) (workspaceRoot w) filePath = Throw message →
     let w' := step w (Tick t) in
     tasks w' !! t = Some {| operation := op; pc := Thrown message |}
     ∧ sent w' = sent w ∧ openDocuments w' = openDocuments w
     ∧ timers w' = timers w)
  ∧ (∀ absolutePath e,
       toAbsolutePath (cwd w) (workspaceRoot w) filePath = Ok absolutePath →
       let w' := run w [Tick t; ReadFile t (Throw e)] in
       tasks w' !! t = Some {| operation := op; pc := Thrown e |}
       ∧ sent w' = sent w ∧ openDocuments w' = openDocuments w
       ∧ timers w' = timers w).
Proof.
  intros Ht Hp Hs Hf. split.
  - intros message Habs w'. subst w'. cbn [step].
    rewrite (tick_after_initialize w t p op h result Ht Hp Hs).
    unfold after_initialize, ensureDocument_begin. rewrite Hf, Habs.
    wsimpl. rewrite lookup_insert_eq. done.
  - intros absolutePath e Habs w'. subst w'. cbn [run foldl step].
    rewrite (tick_after_initialize w t p op h result Ht Hp Hs).
    rewrite (after_initialize_reads w t op result filePath absolutePath Hf Habs).
    unfold readFile. rewrite tasks_set_pc. wsimpl.
    rewrite lookup_insert_eq. done.
Qed.

(** X11. A failed initialization is final: whatever happens afterwards, every
    later call of an operation other than [shutdown] throws the error of
    the handshake, and neither spawns a process nor writes to the server. *)
Theorem failed_initialization_is_final (w : World) (p : nat) (h : Handshake)
    (e : string) (es : list Event) (op : Operation) :
  initializePromise w = Some p →
  handshakes w !! p = Some h →
  state h = Rejected e →
  op ≠ Shutdown →
  let w1 := run w es in
  let t := next w1 in
  let w2 := run w1 [Call op; Tick t] in
  tasks w2 !! t = Some {| operation := op; pc := Thrown e |}
  ∧ spawned w2 = spawned w1
  ∧ sent w2 = sent w1.
Proof.
  intros Hmemo Hp Hs Hop w1 t w2.
  destruct (keeps_run w es) as [Hk1 Hk2]. fold w1 in Hk1, Hk2.
  specialize (Hk1 p Hmemo).
  destruct (Hk2 ltac:(congruence) p h Hp) as (h' & Hp' & Hs').
  rewrite Hs in Hs'. specialize (Hs' I).
  subst w2. cbn [run foldl step].
  assert (Hcall : call op w1
                  = set_pc t op (AwaitInitialize p) (set_next (S (next w1)) w1)).
  { unfold call, initialize. wsimpl. rewrite Hk1. destruct op; done. }
  rewrite Hcall. unfold tick. rewrite tasks_set_pc. wsimpl.
  rewrite Hp'. wsimpl. rewrite Hs'. wsimpl.
  rewrite lookup_insert_eq. done.
Qed.
End EarlyFailures.

(** ** The order of what is written *)
Section WireOrder.
Import Protocol PathUtil Lsp Wire.

Lemma opened_app (uri : string) (ms ms' : list Outgoing) :
  opened uri ms → opened uri (ms ++ ms').
Proof.
  intros (l & x & H). exists l, x. apply elem_of_app. left. exact H.
Qed.

Lemma opened_snoc (uri languageId text : string) (ms : list Outgoing) :
  opened uri (ms ++ [DidOpenTextDocumentNotification uri languageId 1 text]).
Proof.
  exists languageId, text. apply elem_of_app. right. apply list_elem_of_here.
Qed.

Lemma mirrors_opened_sent (uri : string) (ms : list Outgoing) (st : DocumentState) :
  mirrors uri ms (Some st) → opened uri ms.
Proof.
  intros H. remember (Some st) as o eqn:Ho. revert st Ho.
  induction H as [|ms l p x H _|ms ex x H IH Hne|ms m o H IH Hne];
    intros st Ho; try discriminate.
  - apply opened_snoc.
  - apply opened_app. eapply IH. reflexivity.
  - apply opened_app. eapply IH. exact Ho.
Qed.

Lemma request_of_uri (op : Operation) (uri : string) (m : Outgoing) :
  request_of op uri = Some m → request_uri m = Some uri.
Proof. destruct op; cbn; intros H; inversion H; reflexivity. Qed.

Lemma requests_follow_open_snoc (ms : list Outgoing) (m : Outgoing) :
  requests_follow_open ms →
  (∀ uri, request_uri m = Some uri → opened uri ms) →
  requests_follow_open (ms ++ [m]).
Proof.
  intros Hord Hm before m' after uri Heq Hreq.
  destruct (decide (after = [])) as [->|Hne].
  - apply app_inj_tail in Heq as [-> ->]. apply Hm, Hreq.
  - destruct (exists_last Hne) as (after' & m'' & ->).
    change (before ++ m' :: after' ++ [m''])
      with (before ++ (m' :: after') ++ [m'']) in Heq.
    rewrite app_assoc in Heq. apply app_inj_tail in Heq as [-> _].
    eapply Hord; [reflexivity|exact Hreq].
Qed.

Lemma handlers_tasks_back (params : PublishDiagnosticsParams)
    (ls : list Listener) (w : World) (t : nat) (task : Task) :
  tasks (foldl (fun w l => handler l params w) w ls) !! t = Some task →
  (∀ v, pc task ≠ Returned v) →
  tasks w !! t = Some task.
Proof.
  revert w. induction ls as [|l ls IH]; intros w Ht Hpc; [exact Ht|].
  cbn [foldl] in Ht. apply IH in Ht; [|exact Hpc].
  unfold handler, resolve in Ht. wsimpl_in Ht.
  destruct (tasks w !! waiter l) as [[op []]|] eqn:Hl; wsimpl_in Ht;
    try exact Ht.
  rewrite lookup_insert in Ht. case_decide; [|exact Ht].
  injection Ht as <-. exfalso. eapply Hpc. reflexivity.
Qed.

Lemma synchronised_step (w : World) (e : Event) :
  (∀ uri, mirrors uri (sent w) (openDocuments w !! uri)) →
  synchronised w → synchronised (step w e).
Proof.
  intros Hm Hs. unfold synchronised in *. destruct e; cbn [step].
  all: try (explode; intros t' op' uri' H;
            try (rewrite lookup_insert in H; case_decide; [simplify_eq|]);
            first [ eapply Hs; eassumption
                  | apply opened_app; eapply Hs; eassumption
                  | apply opened_snoc
                  | apply opened_app;
                    match goal with
                    | Ho : openDocuments _ !! ?u = Some _ |- opened ?u _ =>
                        pose proof (Hm u) as Hx; rewrite Ho in Hx;
                        eapply mirrors_opened_sent, Hx
                    end
                  | match goal with
                    | Ho : openDocuments _ !! ?u = Some _ |- opened ?u _ =>
                        pose proof (Hm u) as Hx; rewrite Ho in Hx;
                        eapply mirrors_opened_sent, Hx
                    end ]).
  unfold publishDiagnostics, handleDiagnostics.
  destruct (connection w); [|exact Hs].
  intros t' op' uri' H.
  destruct (mirrors_emit uri' (diag_uri params) params
              (set_diagnostics (<[diag_uri params:=params]> (diagnostics w)) w))
    as [-> _]. wsimpl.
  unfold emit in H. apply handlers_tasks_back in H; [|done].
  rewrite set_listeners_eq in H. eapply Hs. exact H.
Qed.

Lemma requests_follow_open_step (w : World) (e : Event) :
  synchronised w →
  requests_follow_open (sent w) → requests_follow_open (sent (step w e)).
Proof.
  intros Hs Ho. destruct e; cbn [step].
  all: try (explode; try exact Ho;
            (apply requests_follow_open_snoc; [exact Ho|]);
            intros u Hu;
            first [ discriminate Hu
                  | match goal with
                    | Hr : request_of _ _ = Some _ |- _ =>
                        rewrite (request_of_uri _ _ _ Hr) in Hu;
                        injection Hu as <-; eapply Hs; eassumption
                    end ]).
  unfold publishDiagnostics, handleDiagnostics.
  destruct (connection w); [|exact Ho].
  destruct (mirrors_emit "" (diag_uri params) params
              (set_diagnostics (<[diag_uri params:=params]> (diagnostics w)) w))
    as [-> _]. exact Ho.
Qed.

(** X13. In every state the client reaches, a request about a document has
    been written after an open notification for that document. *)
Theorem requests_after_open (cwd : string) (pid : Z)
    (options : TypeScriptLspClientOptions) (es : list Event)
    (before after : list Outgoing) (m : Outgoing) (uri : string) :
  sent (run (new_client cwd pid options) es) = before ++ m :: after →
  request_uri m = Some uri →
  ∃ languageId text,
    DidOpenTextDocumentNotification uri languageId 1 text ∈ before.
Proof.
  assert (Hinv : ∀ w es,
             (∀ uri, mirrors uri (sent w) (openDocuments w !! uri)) →
             synchronised w → requests_follow_open (sent w) →
             requests_follow_open (sent (run w es))).
  { clear. intros w es. revert w.
    induction es as [|e es IH]; intros w Hm Hs Ho; [exact Ho|].
    rewrite run_cons. apply IH.
    - intros uri. apply mirrors_step, Hm.
    - apply synchronised_step; assumption.
    - apply requests_follow_open_step; assumption. }
  intros Hsent Hreq.
  eapply (Hinv (new_client cwd pid options) es); [| | |exact Hsent|exact Hreq].
  - intros u. cbn. rewrite lookup_empty. constructor.
  - intros t op u Ht. cbn in Ht. rewrite lookup_empty in Ht. discriminate.
  - intros b m' a u Heq. cbn in Heq. destruct b; discriminate.
Qed.
End WireOrder.

(** ** The initialize request *)
Section FirstMessage.
Import Protocol PathUtil Lsp Wire.

Lemma request_of_not_initialize (op : Operation) (uri : string) (m : Outgoing) :
  request_of op uri = Some m → is_initialize m = false.
Proof. destruct op; cbn; intros H; inversion H; reflexivity. Qed.

Lemma pid_step (w : World) (e : Event) : pid (step w e) = pid w.
Proof.
  destruct e; cbn [step]; try (explode; reflexivity).
  unfold publishDiagnostics, handleDiagnostics, emit.
  destruct (connection w); [|done].
  match goal with
  | |- context [foldl ?f ?w0 ?ls] =>
      destruct (handlers_run params ls w0) as [ts ->]
  end.
  rewrite set_listeners_eq. done.
Qed.

(** Once the handshake has been started, no event writes another
    initialize request. *)
Lemma sent_after_start (w : World) (e : Event) (p : nat) :
  initializePromise w = Some p →
  ∃ ms, sent (step w e) = sent w ++ ms
        ∧ Forall (λ m, is_initialize m = false) ms.
Proof.
  intros Hp. destruct e; cbn [step].
  all: try (explode; try congruence;
            first [ exists []; rewrite app_nil_r; split; [reflexivity|constructor]
                  | eexists [_]; split; [reflexivity|];
                    repeat constructor;
                    match goal with
                    | Hr : request_of _ _ = Some _ |- _ =>
                        exact (request_of_not_initialize _ _ _ Hr)
                    end ]).
  unfold publishDiagnostics, handleDiagnostics.
  exists []. rewrite app_nil_r. split; [|constructor].
  destruct (connection w); [|reflexivity].
  destruct (mirrors_emit "" (diag_uri params) params
              (set_diagnostics (<[diag_uri params:=params]> (diagnostics w)) w))
    as [-> _]. reflexivity.
Qed.

(** Before the handshake nothing is written, except by the call that
    starts it. *)
Lemma sent_before_start (w : World) (e : Event) :
  initializePromise w = None → sent w = [] → connection w = None →
  handshakes w = ∅ →
  (initializePromise (step w e) = None ∧ sent (step w e) = []
   ∧ connection (step w e) = None ∧ handshakes (step w e) = ∅)
  ∨ ((∃ p, initializePromise (step w e) = Some p)
     ∧ sent (step w e) = [InitializeRequest (pid w) (toFileUri (workspaceRoot w))
                            (workspaceRoot w)]).
Proof.
  intros Hp Hs Hc Hh. destruct e; cbn [step].
  all: try (explode; try congruence;
            try match goal with
                | Hl : handshakes _ !! _ = Some _ |- _ =>
                    rewrite Hh, lookup_empty in Hl; discriminate Hl
                end;
            first [ left; done
                  | right; rewrite Hs; split; [eexists; reflexivity|reflexivity] ]).
  unfold publishDiagnostics. rewrite Hc. left. done.
Qed.

(** X12. In every state the client reaches, either nothing has been written,
    or the initialize request, for the resolved workspace root, is the
    first message written and the only initialize request. *)
Theorem initialize_request_first (cwd : string) (pid : Z)
    (options : TypeScriptLspClientOptions) (es : list Event) :
  let w := run (new_client cwd pid options) es in
  let root := NodePath.resolve cwd [workspacePath options] in
  sent w = []
  ∨ ∃ rest, sent w = InitializeRequest pid (toFileUri root) root :: rest
            ∧ Forall (λ m, is_initialize m = false) rest.
Proof.
  intros w root.
  set (Inv := λ w : World,
        (initializePromise w = None ∧ sent w = [] ∧ connection w = None
         ∧ handshakes w = ∅)
        ∨ ((∃ p, initializePromise w = Some p)
           ∧ ∃ rest, sent w = InitializeRequest (Lsp.pid w)
                                (toFileUri (workspaceRoot w)) (workspaceRoot w)
                              :: rest
                     ∧ Forall (λ m, is_initialize m = false) rest)).
  assert (Hstep : ∀ w e, Inv w → Inv (step w e)).
  { clear. intros w e [(Hp & Hs & Hc & Hh)|([p Hp] & rest & Hs & Hrest)].
    - destruct (sent_before_start w e Hp Hs Hc Hh) as [H|[Hq Hsent]];
        [left; exact H|].
      right. split; [exact Hq|]. exists [].
      rewrite pid_step. destruct (readonly_step w e) as (_ & -> & _).
      split; [exact Hsent|constructor].
    - right. destruct (keeps_step w e) as [Hk _]. split; [eauto|].
      destruct (sent_after_start w e p Hp) as (ms & -> & Hms).
      exists (rest ++ ms). rewrite pid_step.
      destruct (readonly_step w e) as (_ & -> & _). rewrite Hs.
      split; [reflexivity|]. apply Forall_app. done. }
  assert (Hrun : ∀ es w, Inv w → Inv (run w es)).
  { clear -Hstep. induction es as [|e es IH]; intros w H; [exact H|].
    rewrite run_cons. apply IH, Hstep, H. }
  assert (H0 : Inv (new_client cwd pid options)) by (left; done).
  apply (Hrun es) in H0. fold w in H0.
  destruct H0 as [(_ & Hs & _)|(_ & rest & Hs & Hrest)]; [left; exact Hs|].
  right. exists rest. split; [|exact Hrest]. rewrite Hs.
  unfold w. destruct (readonly_run (new_client cwd pid options) es) as (_ & -> & _).
  f_equal. clear. induction es as [|e es IH] using rev_ind; [reflexivity|].
  rewrite run_snoc, pid_step. exact IH.
Qed.
End FirstMessage.

(** ** The cache of diagnostics *)
Section DiagnosticsCache.
Import Protocol PathUtil Lsp.

Lemma diagnostics_emit (u : string) (params : PublishDiagnosticsParams) (w : World) :
  diagnostics (emit u params w) = diagnostics w.
Proof.
  unfold emit. destruct (handlers_run params (listeners w u)
                           (set_listeners u [] w)) as [ts ->].
  rewrite set_listeners_eq. reflexivity.
Qed.

(** Only a notification received on a live connection changes the cache,
    and only at its own uri. *)
Lemma diagnostics_step (w : World) (e : Event) :
  diagnostics (step w e)
  = match e with
    | PublishDiagnostics params =>
        match connection w with
        | Some _ => <[diag_uri params := params]> (diagnostics w)
        | None => diagnostics w
        end
    | _ => diagnostics w
    end.
Proof.
  destruct e; cbn [step]; try (explode; reflexivity).
  unfold publishDiagnostics, handleDiagnostics.
  destruct (connection w); [|reflexivity].
  rewrite diagnostics_emit. reflexivity.
Qed.

Lemma cached_kept (w : World) (es : list Event) (uri : string)
    (p : PublishDiagnosticsParams) :
  diagnostics w !! uri = Some p →
  ∃ p', diagnostics (run w es) !! uri = Some p'
        ∧ (p' = p ∨ PublishDiagnostics p' ∈ es).
Proof.
  revert w p. induction es as [|e es IH]; intros w p Hp; [eauto|].
  rewrite run_cons.
  assert (H : ∃ q, diagnostics (step w e) !! uri = Some q
                   ∧ (q = p ∨ e = PublishDiagnostics q)).
  { rewrite diagnostics_step. destruct e; eauto.
    destruct (connection w); [|eauto].
    rewrite lookup_insert. case_decide; eauto. }
  destruct H as (q & Hq & Hor).
  destruct (IH _ _ Hq) as (p' & Hp' & Hor').
  exists p'. split; [exact Hp'|].
  destruct Hor' as [-> | Hin]; [|right; apply elem_of_cons; auto].
  destruct Hor as [-> | ->]; [auto|]. right. apply list_elem_of_here.
Qed.

Lemma cached_published (w : World) (es : list Event) (uri : string)
    (p : PublishDiagnosticsParams) :
  diagnostics w = ∅ →
  diagnostics (run w es) !! uri = Some p →
  diag_uri p = uri ∧ PublishDiagnostics p ∈ es.
Proof.
  intros Hnew. revert uri p.
  induction es as [|e es IH] using rev_ind; intros uri p.
  - cbn. rewrite Hnew, lookup_empty. discriminate.
  - rewrite run_snoc, diagnostics_step. intros Hp.
    assert (Hcase : diagnostics (run w es) !! uri = Some p
                    ∨ (e = PublishDiagnostics p ∧ diag_uri p = uri)).
    { destruct e; auto. destruct (connection (run w es)); auto.
      rewrite lookup_insert in Hp. case_decide; auto.
      injection Hp as <-. auto. }
    destruct Hcase as [Hold|[He Hu]].
    + destruct (IH _ _ Hold) as [Hu Hin]. split; [exact Hu|].
      apply elem_of_app. auto.
    + split; [exact Hu|]. apply elem_of_app. right. rewrite He.
      apply list_elem_of_here.
Qed.

(** X15. What is cached for a uri is a report the server has published for
    that uri; a notification received on a live connection is cached at
    once; and a cached report is never dropped, only replaced by a report
    published later. *)
Theorem diagnostics_cache (cwd : string) (pid : Z)
    (options : TypeScriptLspClientOptions) (es : list Event) :
  let w := run (new_client cwd pid options) es in
  (∀ uri p, diagnostics w !! uri = Some p →
     diag_uri p = uri ∧ PublishDiagnostics p ∈ es)
  ∧ (∀ params, is_Some (connection w) →
       diagnostics (step w (PublishDiagnostics params)) !! diag_uri params
       = Some params)
  ∧ (∀ uri p es', diagnostics w !! uri = Some p →
       ∃ p', diagnostics (run w es') !! uri = Some p'
             ∧ (p' = p ∨ PublishDiagnostics p' ∈ es')).
Proof.
  intros w. split; [|split].
  - intros uri p. apply cached_published. reflexivity.
  - intros params [c Hc]. rewrite diagnostics_step, Hc. apply lookup_insert_eq.
  - intros uri p es'. apply cached_kept.
Qed.

End DiagnosticsCache.

(** ** One notification, many waiters *)
Section Broadcast.
Import Protocol PathUtil Lsp.

(** X17. A notification received on a live connection resolves every call that
    waits for diagnostics of its uri with its report and clears the timers
    of those calls; the handlers of that uri are gone, and the calls that
    wait for another uri, their handlers and their timers are left as they
    are. *)
Theorem notification_resolves_all_waiters (cwd : string) (pid : Z)
    (options : TypeScriptLspClientOptions) (es : list Event)
    (params : PublishDiagnosticsParams) :
  let w := run (new_client cwd pid options) es in
  let w' := step w (PublishDiagnostics params) in
  is_Some (connection w) →
  (∀ l, l ∈ listeners w (diag_uri params) →
     (∃ f, tasks w' !! waiter l
           = Some {| operation := GetDiagnostics f;
                     pc := Returned (VDiagnostics params) |})
     ∧ timers w' !! timer l = None)
  ∧ listeners w' (diag_uri params) = []
  ∧ (∀ u l, u ≠ diag_uri params → l ∈ listeners w u →
       l ∈ listeners w' u
       ∧ tasks w' !! waiter l = tasks w !! waiter l
       ∧ timers w' !! timer l = timers w !! timer l).
Proof.
  intros w w' [c Hc].
  assert (Hinv : waiters_inv w) by apply waiters_inv_run, waiters_inv_new.
  pose proof Hinv as (A & B & C & D & E & F & G).
  subst w'. cbn [step]. unfold publishDiagnostics, handleDiagnostics.
  rewrite Hc. set (uri := diag_uri params). set (w0 := set_diagnostics _ w).
  destruct (emit_frame uri params w0) as (_ & _ & Htimers).
  split; [|split].
  - intros l Hl. destruct (waiter_is_waiting w uri l Hinv Hl) as [f Hf].
    split.
    + exists f. unfold emit. apply handlers_tasks_resolved.
      * apply list_elem_of_fmap. exists l. done.
      * rewrite set_listeners_eq. exact Hf.
    + rewrite Htimers, decide_True; [reflexivity|].
      apply list_elem_of_fmap. exists l. done.
  - rewrite listeners_emit, decide_True; reflexivity.
  - intros u l Hu Hl. split; [|split].
    + rewrite listeners_emit, decide_False by done. exact Hl.
    + unfold emit. rewrite handlers_tasks_other.
      * rewrite set_listeners_eq. reflexivity.
      * intros Hin. apply list_elem_of_fmap in Hin as (l' & Heq & Hl').
        apply Hu. exact (G u uri l l' Hl Hl' Heq).
    + rewrite Htimers. case_decide as Hin; [|reflexivity]. exfalso.
      apply list_elem_of_fmap in Hin as (l' & Heq & Hl').
      destruct (waiter_timer w u l Hinv Hl) as [d Hd].
      destruct (waiter_timer w uri l' Hinv Hl') as [d' Hd'].
      rewrite Heq, Hd' in Hd. injection Hd as _ Hcb _.
      apply Hu. symmetry. exact Hcb.
Qed.
End Broadcast.

(** ** After the shutdown *)
Section Quiescence.
Import Protocol PathUtil Lsp Wire.

Lemma closed_step (w : World) (e : Event) :
  closed w →
  closed (step w e) ∧ sent (step w e) = sent w
  ∧ spawned (step w e) = spawned w
  ∧ openDocuments (step w e) = openDocuments w
  ∧ disposed (step w e) = disposed w ∧ killed (step w e) = killed w.
Proof.
  intros (Hc & p & h & Hp & Hh & Hs). unfold closed.
  destruct e; cbn [step].
  all: try (explode; try congruence;
            try match goal with
                | Hl : handshakes _ !! _ = Some _ |- _ =>
                    rewrite Hh in Hl; apply lookup_singleton_Some in Hl as [<- <-]
                end;
            try match goal with
                | Hst : state _ = _ |- _ =>
                    pose proof Hs as Hs'; rewrite Hst in Hs';
                    try (destruct Hs'; fail)
                end;
            (split; [split; [assumption|]|done]);
            eexists p, _; (split; [congruence|]);
            (split; [first [exact Hh | rewrite Hh; apply insert_singleton_eq]|]);
            first [exact Hs | exact Hs']).
  unfold publishDiagnostics. rewrite Hc.
  split; [split; [assumption|eauto]|done].
Qed.

(** X21. Once the handshake has settled and a shutdown has cleared the
    connection, the client is closed for good: whatever is called and
    whatever arrives, nothing more is written to the server, no process is
    spawned, disposed of or killed, and no document state changes. *)
Theorem closed_for_good (cwd : string) (pid : Z)
    (options : TypeScriptLspClientOptions) (es es' : list Event)
    (p : nat) (h : Handshake) :
  let w := run (new_client cwd pid options) es in
  connection w = None →
  handshakes w !! p = Some h →
  settled_state (state h) →
  let w' := run w es' in
  connection w' = None
  ∧ sent w' = sent w
  ∧ spawned w' = spawned w
  ∧ openDocuments w' = openDocuments w
  ∧ disposed w' = disposed w ∧ killed w' = killed w.
Proof.
  intros w Hc Hp Hs w'.
  assert (Hclosed : closed w).
  { split; [exact Hc|].
    assert (Hinv : memo_inv w) by apply memo_inv_run, memo_inv_new.
    destruct Hinv as [Hmemo _].
    destruct (initializePromise w) as [q|] eqn:Hq.
    - destruct Hmemo as (_ & h' & Hh). exists q, h'.
      rewrite Hh in Hp. apply lookup_singleton_Some in Hp as [<- <-]. done.
    - destruct Hmemo as (_ & Hh). rewrite Hh, lookup_empty in Hp. discriminate. }
  clear Hc Hp Hs. subst w'. generalize dependent w. intros w. clear.
  revert w. induction es' as [|e es' IH]; intros w Hclosed.
  - destruct Hclosed as [Hc _]. done.
  - rewrite run_cons.
    destruct (closed_step w e Hclosed) as (Hcl & H1 & H2 & H3 & H4 & H5).
    destruct (IH _ Hcl) as (Hc' & -> & -> & -> & -> & ->). done.
Qed.
End Quiescence.

(** ** The exit of the language server *)
Section ChildExit.
Import Protocol PathUtil Lsp.

Lemma shuttingDown_step (w : World) (e : Event) :
  shuttingDown w = true → shuttingDown (step w e) = true.
Proof.
  intros H. destruct e; cbn [step]; try (explode; done).
  unfold publishDiagnostics, handleDiagnostics, emit.
  destruct (connection w); [|done].
  match goal with
  | |- context [foldl ?f ?w0 ?ls] =>
      destruct (handlers_run params ls w0) as [ts ->]
  end.
  rewrite set_listeners_eq. done.
Qed.

Lemma shuttingDown_run (w : World) (es : list Event) :
  shuttingDown w = true → shuttingDown (run w es) = true.
Proof.
  revert w. induction es as [|e es IH]; intros w H; [exact H|].
  rewrite run_cons. apply IH, shuttingDown_step, H.
Qed.

(** X23. The exit of the language server changes nothing but the log: the
    connection, the child handle and the memo stay, so the server is not
    started again. Before a shutdown has begun the exit is logged as an
    error; once one has begun it is never logged, however late it comes. *)
Theorem exit_is_only_logged (w : World) (p : nat) (h : Handshake) :
  handshakes w !! p = Some h →
  let w' := step w (ChildExit p) in
  (connection w' = connection w ∧ child w' = child w
   ∧ initializePromise w' = initializePromise w ∧ handshakes w' = handshakes w
   ∧ tasks w' = tasks w ∧ sent w' = sent w ∧ spawned w' = spawned w)
  ∧ (shuttingDown w = false →
     logged w' = logged w ++ [(LogError, "tsgo process exited unexpectedly")])
  ∧ (shuttingDown w = true →
     ∀ es q, logged (step (run w es) (ChildExit q)) = logged (run w es)).
Proof.
  intros Hp w'. subst w'. cbn [step]. unfold childExit. rewrite Hp.
  split; [|split].
  - destruct (shuttingDown w); done.
  - intros ->. reflexivity.
  - intros Hs es q. pose proof (shuttingDown_run w es Hs) as Hrun.
    destruct (handshakes (run w es) !! q); [|reflexivity].
    rewrite Hrun. reflexivity.
Qed.
End ChildExit.

(** ** Two shutdowns at once *)
Section Reentrancy.
Import Protocol PathUtil Lsp.

(** X22. [shutdown] is not re-entrant: of two calls that have both sent their
    shutdown request, the one that completes first disposes of the
    connection and kills the child, and the other, once its request is
    answered or fails, throws on the connection that is now [null]. *)
Theorem second_shutdown_throws (w : World) (t1 t2 c k : nat)
    (v : Js.value) (r : result Js.value) :
  t1 ≠ t2 →
  tasks w !! t1 = Some {| operation := Shutdown; pc := AwaitShutdownRequest |} →
  tasks w !! t2 = Some {| operation := Shutdown; pc := AwaitShutdownRequest |} →
  connection w = Some c →
  child w = Some k →
  let w' := run w [Response t1 (Ok v); Written t1 (Ok ()); Response t2 r] in
  tasks w' !! t1 = Some {| operation := Shutdown; pc := Returned VVoid |}
  ∧ tasks w' !! t2 = Some {| operation := Shutdown; pc := Thrown null_dispose |}
  ∧ disposed w' = disposed w ++ [c]
  ∧ killed w' = killed w ++ [k]
  ∧ connection w' = None ∧ child w' = None.
Proof.
  intros Hne Ht1 Ht2 Hc Hk w'. subst w'. cbn [run foldl step].
  set (w1 := response t1 (Ok v) w).
  assert (H1 : w1 = set_pc t1 Shutdown AwaitExitNotification
                      (send ExitNotification w)).
  { subst w1. unfold response. rewrite Ht1, Hc. reflexivity. }
  set (w2 := written t1 (Ok ()) w1).
  assert (H2 : w2 = set_pc t1 Shutdown (Returned VVoid)
                      (set_child None
                         (set_killed (killed w ++ [k])
                            (set_connection None
                               (set_disposed (disposed w ++ [c]) w1))))).
  { assert (Hc1 : connection w1 = Some c) by (rewrite H1; exact Hc).
    assert (Hk1 : child w1 = Some k) by (rewrite H1; exact Hk).
    assert (Hd1 : disposed w1 = disposed w) by (rewrite H1; reflexivity).
    assert (Hl1 : killed w1 = killed w) by (rewrite H1; reflexivity).
    assert (Ht : tasks w1 !! t1
                 = Some {| operation := Shutdown; pc := AwaitExitNotification |})
      by (rewrite H1; apply tasks_set_pc).
    subst w2. clearbody w1. unfold written. rewrite Ht.
    unfold shutdown_finish. rewrite Hc1. wsimpl. rewrite Hk1, Hd1, Hl1.
    reflexivity. }
  assert (Ht2' : tasks w2 !! t2
                 = Some {| operation := Shutdown; pc := AwaitShutdownRequest |}).
  { rewrite H2, H1. wsimpl. rewrite !lookup_insert_ne by done. exact Ht2. }
  assert (Hc2 : connection w2 = None) by (rewrite H2; reflexivity).
  assert (H3 : response t2 r w2
               = set_pc t2 Shutdown (Thrown null_dispose) (shutdown_caught w2)).
  { unfold response. rewrite Ht2', Hc2.
    assert (Hfin : shutdown_finish t2 (shutdown_caught w2)
                   = set_pc t2 Shutdown (Thrown null_dispose) (shutdown_caught w2)).
    { unfold shutdown_finish. wsimpl. rewrite Hc2. reflexivity. }
    destruct r; exact Hfin. }
  rewrite H3. wsimpl. rewrite lookup_insert_eq, lookup_insert_ne by done.
  rewrite H2. wsimpl. rewrite lookup_insert_eq. done.
Qed.
End Reentrancy.

(** ** The life of the client *)
Section Lifecycle.
Import Protocol PathUtil Lsp Wire.

Lemma lifecycle_step (w : World) (e : Event) : lifecycle w → lifecycle (step w e).
Proof.
  unfold lifecycle.
  intros [(Hp & Hc & Hk & Hd & Hl & Hh)|(p & h & Hp & Hh & Hlive)].
  - destruct e; cbn [step].
    all: try (explode; try congruence;
              try match goal with
                  | Hq : handshakes _ !! _ = Some _ |- _ =>
                      rewrite Hh, lookup_empty in Hq; discriminate Hq
                  end;
              first [ left; done
                    | right; eexists _, _; split; [reflexivity|];
                      split; [rewrite Hh; apply insert_empty|];
                      left; wsimpl; rewrite Hd, Hl; done ]).
    unfold publishDiagnostics. rewrite Hc. left. done.
  - right. destruct e; cbn [step].
    all: try (explode; try congruence;
              try match goal with
                  | Hq : handshakes _ !! _ = Some _ |- _ =>
                      rewrite Hh in Hq;
                      apply lookup_singleton_Some in Hq as [<- <-]
                  end;
              eexists p, _; (split; [congruence|]);
              (split; [first [exact Hh | rewrite Hh; apply insert_singleton_eq]|]);
              wsimpl;
              destruct Hlive as [(Hc & Hk & Hl & Hd)|(Hc & Hk & Hl & Hd)];
              first [ left; repeat split; congruence
                    | right; repeat split; congruence
                    | exfalso; congruence
                    | right; simplify_eq; rewrite ?Hl, ?Hd; cbn [app];
                      repeat split; congruence ]).
    unfold publishDiagnostics, handleDiagnostics, emit.
    destruct (connection w) eqn:Hc in |- *; [|eauto].
    match goal with
    | |- context [foldl ?f ?w0 ?ls] =>
        destruct (handlers_run params ls w0) as [ts ->]
    end.
    rewrite set_listeners_eq. wsimpl. eauto.
Qed.

(** X20. A client is in one of three states, whatever has been called and
    whatever has arrived: not started; started, with the child and the
    connection of its one handshake and nothing killed or disposed of; or
    shut down, with that child killed once, that connection disposed of
    once, and both fields [null]. *)
Theorem client_lifecycle (cwd : string) (pid : Z)
    (options : TypeScriptLspClientOptions) (es : list Event) :
  lifecycle (run (new_client cwd pid options) es).
Proof.
  induction es as [|e es IH] using rev_ind.
  - left. done.
  - rewrite run_snoc. apply lifecycle_step, IH.
Qed.
End Lifecycle.

(** ** The delays of the timers *)
Section Delays.
Import Protocol PathUtil Lsp Wire.

Lemma configured_delays_step (w : World) (e : Event) :
  configured_delays w → configured_delays (step w e).
Proof.
  unfold configured_delays. intros H.
  destruct e; cbn [step].
  all: try (explode; intros i0 tm0;
            rewrite ?lookup_insert, ?lookup_delete;
            repeat case_decide; intros Htm; simplify_eq;
            first [reflexivity | eapply H; eassumption]).
  unfold publishDiagnostics, handleDiagnostics.
  destruct (connection w); [|exact H].
  intros i0 tm0.
  destruct (emit_frame (diag_uri params) params
              (set_diagnostics (<[diag_uri params:=params]> (diagnostics w)) w))
    as (_ & _ & ->).
  destruct (readonly_step w (PublishDiagnostics params)) as (_ & _ & Hi & Hd).
  case_decide; [discriminate|]. wsimpl.
  unfold emit.
  match goal with
  | |- context [foldl ?f ?w0 ?ls] =>
      destruct (handlers_run params ls w0) as [ts ->]
  end.
  rewrite set_listeners_eq. wsimpl. apply H.
Qed.

(** X18. Every timer that is set carries the delay configured for its kind:
    the initialization timeout, 10000 ms unless given, for the timer of
    the handshake, and the diagnostics timeout, 1500 ms unless given, for
    the timer of a diagnostics call. *)
Theorem timers_carry_configured_delays (cwd : string) (pid : Z)
    (options : TypeScriptLspClientOptions) (es : list Event)
    (id : nat) (tm : Timer) :
  timers (run (new_client cwd pid options) es) !! id = Some tm →
  delay tm
  = match callback tm with
    | InitializationTimeout _ =>
        default 10000 (initializationTimeoutMs options)
    | DiagnosticsTimeout _ _ =>
        default 1500 (diagnosticsTimeoutMs options)
    end.
Proof.
  intros Htm.
  assert (Hinv : configured_delays (run (new_client cwd pid options) es)).
  { clear Htm. induction es as [|e es IH] using rev_ind.
    - intros i t. cbn. rewrite lookup_empty. discriminate.
    - rewrite run_snoc. apply configured_delays_step, IH. }
  rewrite (Hinv id tm Htm).
  destruct (readonly_run (new_client cwd pid options) es) as (_ & _ & -> & ->).
  reflexivity.
Qed.
End Delays.

(** ** The race, outcome by outcome *)
Section RaceOutcomes.
Import Protocol PathUtil Lsp.

(** X19. Of the outcomes of the race, the first one wins. When the answer
    to the initialize request comes first, the timer is cleared, the
    initialized notification is written and, once it is written, the
    handshake is fulfilled with the answer; neither the timer nor an error
    of the child changes that afterwards. When the timer fires first, the
    handshake is rejected with the timeout message, and an answer that
    comes later is ignored: no initialized notification is written. *)
Theorem race_first_wins (w : World) (p : nat) (h : Handshake) (tm : Timer)
    (result : Js.value) (message : string) :
  handshakes w !! p = Some h →
  state h = Racing →
  timers w !! timeoutHandle h = Some tm →
  callback tm = InitializationTimeout p →
  (let w' := run w [InitializeResponse p (Ok result); InitializedWritten p (Ok ());
                    Fire (timeoutHandle h); ChildError p message] in
   state <$> handshakes w' !! p = Some (Fulfilled result)
   ∧ timers w' !! timeoutHandle h = None
   ∧ sent w' = sent w ++ [InitializedNotification])
  ∧ (let w' := run w [Fire (timeoutHandle h); InitializeResponse p (Ok result)] in
     state <$> handshakes w' !! p
     = Some (Rejected (timeout_message (initializationTimeout w)))
     ∧ timers w' !! timeoutHandle h = None
     ∧ sent w' = sent w).
Proof.
  intros Hp Hs Htm Hcb. split.
  - intros w'. subst w'. cbn [run foldl step].
    set (w1 := initializeResponse p (Ok result) w).
    assert (H1 : w1 = set_state p h (Acknowledging result)
                        (send InitializedNotification
                           (clearTimeout (timeoutHandle h) w))).
    { subst w1. unfold initializeResponse. rewrite Hp, Hs. reflexivity. }
    set (h1 := {| hs_child := hs_child h; hs_connection := hs_connection h;
                  timeoutHandle := timeoutHandle h;
                  errorListener := errorListener h;
                  state := Acknowledging result |}).
    assert (Hp1 : handshakes w1 !! p = Some h1).
    { rewrite H1. wsimpl. apply lookup_insert_eq. }
    set (w2 := initializedWritten p (Ok ()) w1).
    assert (H2 : w2 = set_state p h1 (Fulfilled result)
                        (log LogInfo "tsgo language server initialized" w1)).
    { subst w2. unfold initializedWritten. rewrite Hp1. reflexivity. }
    set (h2 := {| hs_child := hs_child h; hs_connection := hs_connection h;
                  timeoutHandle := timeoutHandle h;
                  errorListener := errorListener h;
                  state := Fulfilled result |}).
    assert (Hp2 : handshakes w2 !! p = Some h2).
    { rewrite H2. wsimpl. apply lookup_insert_eq. }
    assert (Htm2 : timers w2 !! timeoutHandle h = None).
    { rewrite H2, H1. wsimpl. apply lookup_delete_eq. }
    assert (Hs2 : sent w2 = sent w ++ [InitializedNotification]).
    { rewrite H2, H1. reflexivity. }
    assert (H3 : timeout (timeoutHandle h) w2 = w2).
    { unfold timeout. rewrite Htm2. reflexivity. }
    rewrite H3. clearbody w2. clear H1 H2 H3 Hp1 w1.
    unfold childError. rewrite Hp2.
    destruct (errorListener h2); wsimpl;
      rewrite ?lookup_insert_eq, ?Hp2; done.
  - intros w'. subst w'. cbn [run foldl step].
    set (w1 := timeout (timeoutHandle h) w).
    assert (H1 : w1 = set_state p h
                        (Rejected (timeout_message (initializationTimeout w)))
                        (set_timers (delete (timeoutHandle h) (timers w)) w)).
    { subst w1. unfold timeout. rewrite Htm, Hcb. wsimpl. rewrite Hp, Hs.
      reflexivity. }
    assert (Hp1 : state <$> handshakes w1 !! p
                  = Some (Rejected (timeout_message (initializationTimeout w)))).
    { rewrite H1. wsimpl. rewrite lookup_insert_eq. reflexivity. }
    assert (H2 : initializeResponse p (Ok result) w1 = w1).
    { unfold initializeResponse.
      destruct (handshakes w1 !! p) as [h1|]; [|reflexivity].
      cbn in Hp1. injection Hp1 as ->. reflexivity. }
    rewrite H2, Hp1. rewrite H1. wsimpl. rewrite lookup_delete_eq. done.
Qed.
End RaceOutcomes.

(** * The further properties on the concrete runs *)
Section MoreWitnesses.
Import NodePath PathUtil Protocol Locations Lsp Scenario Runs Wire.

Lemma early_failure_sends_nothing_witness :
  tasks (step escaping (Tick 5)) !! 5%nat
  = Some {| operation := GetHover "../x.ts" position;
            pc := Thrown "Resolved path /x.ts escapes workspace root /ws" |}
  ∧ sent (step escaping (Tick 5)) = sent escaping.
Proof.
  destruct (early_failure_sends_nothing escaping 5 3 (GetHover "../x.ts" position)
              fulfilled capabilities "../x.ts"
              ltac:(vm_compute; reflexivity) ltac:(vm_compute; reflexivity)
              ltac:(vm_compute; reflexivity) ltac:(vm_compute; reflexivity))
    as [Hguard _].
  destruct (Hguard "Resolved path /x.ts escapes workspace root /ws"
              ltac:(vm_compute; reflexivity)) as (Ht & Hs & _).
  split; [exact Ht|exact Hs].
Defined.

Lemma failed_initialization_is_final_witness :
  let w1 := run timed_out [Tick 0] in
  let w2 := run w1 [Call (GetDefinition "a.ts" position); Tick 5] in
  tasks w2 !! 5%nat
  = Some {| operation := GetDefinition "a.ts" position;
            pc := Thrown "Timed out after 10000ms waiting for LSP initialize response" |}
  ∧ spawned w2 = spawned w1.
Proof.
  intros w1 w2.
  destruct (failed_initialization_is_final timed_out 3 rejected
              "Timed out after 10000ms waiting for LSP initialize response"
              [Tick 0] (GetDefinition "a.ts" position)
              ltac:(vm_compute; reflexivity) ltac:(vm_compute; reflexivity)
              ltac:(vm_compute; reflexivity) ltac:(discriminate))
    as (Ht & Hsp & _).
  split; [exact Ht|exact Hsp].
Defined.

Lemma requests_after_open_witness :
  ∃ languageId text,
    DidOpenTextDocumentNotification "file:///ws/a.ts" languageId 1 text
    ∈ [InitializeRequest 4242 "file:///ws" "/ws"; InitializedNotification;
       DidOpenTextDocumentNotification "file:///ws/a.ts" "typescript" 1 "x"].
Proof.
  apply (requests_after_open "/" 4242 options (handshake ++ hover) _ []
           (HoverRequest "file:///ws/a.ts" position) "file:///ws/a.ts");
    vm_compute; reflexivity.
Defined.


Lemma notification_resolves_all_waiters_witness :
  listeners (step waiting (PublishDiagnostics silence)) "file:///ws/b.ts" = [].
Proof.
  destruct (notification_resolves_all_waiters "/" 4242 options
              (handshake ++ hover ++ asking ++ [Tick 5]) silence
              ltac:(vm_compute; eexists; reflexivity))
    as (_ & H & _).
  exact H.
Defined.

Lemma closed_for_good_witness :
  sent (run shut_down [Call (GetHover "b.ts" position); Tick 6;
                       PublishDiagnostics silence; Call Shutdown])
  = sent shut_down.
Proof.
  destruct (closed_for_good "/" 4242 options (handshake ++ hover ++ closing)
              [Call (GetHover "b.ts" position); Tick 6;
               PublishDiagnostics silence; Call Shutdown] 3 fulfilled
              ltac:(vm_compute; reflexivity) ltac:(vm_compute; reflexivity)
              ltac:(exact I))
    as (_ & H & _).
  exact H.
Defined.

Lemma exit_is_only_logged_witness :
  logged (step hovered (ChildExit 3))
  = logged hovered ++ [(LogError, "tsgo process exited unexpectedly")]
  ∧ connection (step hovered (ChildExit 3)) = connection hovered.
Proof.
  destruct (exit_is_only_logged hovered 3 fulfilled ltac:(vm_compute; reflexivity))
    as ((Hc & _) & Hlog & _).
  split; [apply Hlog; vm_compute; reflexivity|exact Hc].
Defined.

Lemma second_shutdown_throws_witness :
  tasks (run shutting_down_twice
           [Response 5 (Ok Js.Null); Written 5 (Ok ()); Response 6 (Ok Js.Null)])
    !! 6%nat
  = Some {| operation := Shutdown; pc := Thrown null_dispose |}.
Proof.
  destruct (second_shutdown_throws shutting_down_twice 5 6 2 1 Js.Null (Ok Js.Null)
              ltac:(discriminate) ltac:(vm_compute; reflexivity)
              ltac:(vm_compute; reflexivity) ltac:(vm_compute; reflexivity)
              ltac:(vm_compute; reflexivity))
    as (_ & H & _).
  exact H.
Defined.

Lemma toAbsolutePath_ok_within_witness :
  within "/" (NodePath.resolve "/" ["/ws"]) "/ws/src/a.ts" = true.
Proof.
  apply (toAbsolutePath_ok_within "/" "/ws" "src/../src/a.ts" "/ws/src/a.ts").
  vm_compute. reflexivity.
Defined.

Lemma toAbsolutePath_stable_witness :
  toAbsolutePath "/home" "ws" "/home/ws/src/a.ts" = Ok "/home/ws/src/a.ts".
Proof.
  apply (toAbsolutePath_stable "/home" "ws" "./src//lib/../a.ts" "/home/ws/src/a.ts").
  vm_compute. reflexivity.
Defined.

Lemma toDisplayFile_round_trip_witness :
  toAbsolutePath "/" "/ws" (Server.toDisplayFile "/" "/ws" "/ws/src/a.ts")
  = Ok "/ws/src/a.ts".
Proof.
  apply (toDisplayFile_round_trip "/" "/ws" "/ws/src/a.ts" "/ws/src/a.ts").
  vm_compute. reflexivity.
Defined.

Lemma toDisplayPath_round_trip_witness :
  toAbsolutePath "/" "/ws"
    (Formatter.toDisplayPath drop_scheme "/" "/ws" "file:///ws/src/a.ts")
  = Ok "/ws/src/a.ts".
Proof.
  pose proof (toDisplayPath_round_trip drop_scheme "/" "/ws"
                "file:///ws/src/a.ts" "/ws/src/a.ts"
                ltac:(vm_compute; reflexivity) ltac:(vm_compute; reflexivity))
    as H.
  cbv zeta in H.
  change (toAbsolutePath "/" "/ws" "/ws/src/a.ts") with (@Ok string "/ws/src/a.ts") in H.
  exact (proj1 H).
Defined.


Lemma only_hover_checks_first_witness :
  Server.handle "/ws" (Server.HoverTool "../x.ts" 0 0) fresh_client
  = Throw "Resolved path /x.ts escapes workspace root /ws".
Proof.
  apply (only_hover_checks_first "/ws" (Server.HoverTool "../x.ts" 0 0)
           fresh_client "Resolved path /x.ts escapes workspace root /ws");
    vm_compute; reflexivity.
Defined.

Lemma race_first_wins_witness :
  state <$> handshakes (run racing_world [Fire 4; InitializeResponse 3 (Ok capabilities)])
            !! 3%nat
  = Some (Rejected "Timed out after 10000ms waiting for LSP initialize response")
  ∧ sent (run racing_world [Fire 4; InitializeResponse 3 (Ok capabilities)])
    = sent racing_world.
Proof.
  destruct (race_first_wins racing_world 3 racing
              {| delay := 10000; callback := InitializationTimeout 3 |}
              capabilities "spawn tsgo ENOENT"
              ltac:(vm_compute; reflexivity) ltac:(vm_compute; reflexivity)
              ltac:(vm_compute; reflexivity) ltac:(vm_compute; reflexivity))
    as (_ & Hst & _ & Hsent).
  split; [exact Hst|exact Hsent].
Defined.

Lemma timers_carry_configured_delays_witness :
  delay {| delay := 1500; callback := DiagnosticsTimeout "file:///ws/b.ts" 5 |}
  = default 1500 (diagnosticsTimeoutMs options).
Proof.
  apply (timers_carry_configured_delays "/" 4242 options
           (handshake ++ hover ++ asking ++ [Tick 5]) 6
           {| delay := 1500; callback := DiagnosticsTimeout "file:///ws/b.ts" 5 |}).
  vm_compute. reflexivity.
Defined.
End MoreWitnesses.
(** ** Hover contents *)
Section HoverContents.
Import Protocol Hover.
Variable trim : string → string.

Lemma fenced_not_empty (language value : string) :
  flattenHoverSegment trim (Marked language value) ≠ "".
Proof. unfold flattenHoverSegment. destruct (String.eqb language ""); done. Qed.

(** X24. Of the contents of a hover given as an array, the segments that
    flatten to the empty string are dropped, so none of the texts
    returned is empty; a marked string is fenced and never dropped. A
    single segment is not filtered: contents that are one non-empty plain
    string are returned trimmed even when nothing is left of them. *)
Theorem hover_contents_filtered (segments : list Segment) :
  Forall (λ text, text ≠ "") (flattenHoverContents trim (Many segments))
  ∧ (∀ language value,
       Marked language value ∈ segments →
       flattenHoverSegment trim (Marked language value)
       ∈ flattenHoverContents trim (Many segments))
  ∧ (∀ text, text ≠ "" →
       flattenHoverContents trim (One (Plain text)) = [trim text])
  ∧ flattenHoverContents trim (One (Plain "")) = [].
Proof.
  split; [|split; [|split]].
  - unfold flattenHoverContents. apply Forall_forall. intros text Hin.
    apply list_elem_of_filter in Hin as [Hlen _]. intros ->. cbn in Hlen. lia.
  - intros language value Hin. unfold flattenHoverContents.
    apply list_elem_of_filter. split.
    + pose proof (fenced_not_empty language value) as Hne.
      destruct (flattenHoverSegment trim (Marked language value)); [done|].
      cbn. lia.
    + change (map (flattenHoverSegment trim) segments)
        with (flattenHoverSegment trim <$> segments).
      apply list_elem_of_fmap. eauto.
  - intros text Hne. unfold flattenHoverContents, falsy.
    rewrite (proj2 (String.eqb_neq _ _) Hne). reflexivity.
  - reflexivity.
Qed.
End HoverContents.

(** ** The language of a file *)
Section LanguageIds.
Import Lsp.

Lemma prefixes_compatible (r a b : string) :
  startsWith r a = true → startsWith r b = true →
  startsWith a b || startsWith b a = true.
Proof.
  revert a b. induction r as [|c r IH]; intros [|x a] [|y b]; try done.
  cbn [startsWith].
  intros [H1 H2]%andb_true_iff [H3 H4]%andb_true_iff.
  apply Ascii.eqb_eq in H1, H3. subst x y.
  rewrite Ascii.eqb_refl. cbn [andb]. apply IH; assumption.
Qed.

(** A path does not end in two suffixes of which neither ends in the
    other. *)
Lemma endsWith_excludes (p s s' : string) :
  endsWith s s' || endsWith s' s = false →
  endsWith p s = true → endsWith p s' = false.
Proof.
  unfold endsWith. intros Hno Hs.
  destruct (startsWith (String.rev p) (String.rev s')) eqn:Hs'; [|reflexivity].
  rewrite (prefixes_compatible _ _ _ Hs Hs') in Hno. discriminate.
Qed.

(** X25. The language id goes by the end of the path, the first test
    that matches deciding: [.tsx] is "typescriptreact", [.jsx] is
    "javascriptreact", [.js], [.cjs] and [.mjs] are "javascript", [.ts]
    is "typescript", and so is a path that ends in none of these. *)
Theorem language_by_extension (absolutePath : string) :
  (endsWith absolutePath ".tsx" = true →
   resolveLanguageId absolutePath = "typescriptreact")
  ∧ (endsWith absolutePath ".jsx" = true →
     resolveLanguageId absolutePath = "javascriptreact")
  ∧ (endsWith absolutePath ".js" || endsWith absolutePath ".cjs"
     || endsWith absolutePath ".mjs" = true →
     resolveLanguageId absolutePath = "javascript")
  ∧ (endsWith absolutePath ".ts" = true →
     resolveLanguageId absolutePath = "typescript")
  ∧ (endsWith absolutePath ".tsx" = false →
     endsWith absolutePath ".jsx" = false →
     endsWith absolutePath ".js" || endsWith absolutePath ".cjs"
     || endsWith absolutePath ".mjs" = false →
     resolveLanguageId absolutePath = "typescript").
Proof.
  unfold resolveLanguageId. split; [|split; [|split; [|split]]].
  - intros ->. reflexivity.
  - intros H. rewrite (endsWith_excludes _ ".jsx" ".tsx" eq_refl H), H.
    reflexivity.
  - intros H.
    assert (Hx : endsWith absolutePath ".tsx" = false
                 ∧ endsWith absolutePath ".jsx" = false).
    { apply orb_true_iff in H as [[H|H]%orb_true_iff|H];
        split; eapply endsWith_excludes; try exact H; reflexivity. }
    destruct Hx as [-> ->]. rewrite H. reflexivity.
  - intros H.
    rewrite (endsWith_excludes _ ".ts" ".tsx" eq_refl H),
      (endsWith_excludes _ ".ts" ".jsx" eq_refl H),
      (endsWith_excludes _ ".ts" ".js" eq_refl H),
      (endsWith_excludes _ ".ts" ".cjs" eq_refl H),
      (endsWith_excludes _ ".ts" ".mjs" eq_refl H).
    cbn [orb]. destruct (_ || _); reflexivity.
  - intros -> -> ->. destruct (_ || _); reflexivity.
Qed.
End LanguageIds.

(** ** A request and its answer *)
Section RequestRound.
Import Protocol PathUtil Lsp.


End RequestRound.
